(** * Cycle finding and time-memory tradeoff (hw5): a shallow embedding

    The three Python modules [floyd.py], [nivasch.py] and [hellman_tables.py]
    are embedded as Rocq functions.  Python integers are [Z]; Python lists are
    Rocq lists in the same order (index 0 first, so the top of a stack is the
    last element); a [defaultdict(list)] is a [gmap Z (list Z)] whose lookup
    inserts the empty list under a missing key.  [while] loops take a fuel
    argument; exceptions are values of [outcome]. *)

From stdpp Require Import base tactics option list numbers gmap.
From Stdlib Require Import ZArith Lia.

Local Open Scope Z_scope.

(** ** Outcomes of a Python call *)

Inductive exn : Type :=
  | ZeroDivisionError
  | IndexError.

Inductive outcome (A : Type) : Type :=
  | Ret (a : A)
  | Raise (e : exn)
  | OutOfFuel.

Arguments Ret {A} a.
Arguments Raise {A} e.
Arguments OutOfFuel {A}.

#[global] Instance outcome_ret : MRet outcome := fun A a => Ret a.

#[global] Instance outcome_bind : MBind outcome := fun A B k m =>
  match m with
  | Ret a => k a
  | Raise e => Raise e
  | OutOfFuel => OutOfFuel
  end.

(** [a % b] on Python integers: the result has the sign of [b], as
    [Z.modulo]; a zero divisor raises. *)
Definition py_mod (a b : Z) : outcome Z :=
  if b =? 0 then Raise ZeroDivisionError else Ret (a mod b).

(** The position that index [i] denotes in a Python list of length [len]:
    a negative index counts from the end, anything outside raises. *)
Definition py_index (len : nat) (i : Z) : outcome nat :=
  let j := if i <? 0 then i + Z.of_nat len else i in
  if (0 <=? j) && (j <? Z.of_nat len) then Ret (Z.to_nat j)
  else Raise IndexError.

(** [l[i]] on a Python list. *)
Definition py_getitem {A : Type} (l : list A) (i : Z) : outcome A :=
  j ← py_index (length l) i;
  match l !! j with
  | Some a => Ret a
  | None => Raise IndexError
  end.

(** [x in l] on a Python list of integers. *)
Definition py_in (x : Z) (l : list Z) : bool := existsb (Z.eqb x) l.

(** ** floyd.py *)

Module Floyd.

Section WithMap.

(** [f.calc], the self-map under attack. *)
Variable f : Z → Z.

(** Lines 21-24: the tortoise and the hare. *)
Fixpoint tortoise_hare (fuel : nat) (p1 p2 : Z) (count : nat)
  : outcome (Z * Z * nat) :=
  if p1 =? p2 then Ret (p1, p2, count)
  else match fuel with
       | O => OutOfFuel
       | S fuel' => tortoise_hare fuel' (f p1) (f (f p2)) (S count)
       end.

(** Lines 27-31: [for _ in range(n)], [true] when the walk meets [start]. *)
Fixpoint check_start (start : Z) (n : nat) (p1 : Z) : bool :=
  match n with
  | O => false
  | S n' =>
      let p1' := f p1 in
      if p1' =? start then true else check_start start n' p1'
  end.

(** Lines 35-37: walk both pointers until their successors coincide. *)
Fixpoint walk_to_collision (fuel : nat) (p1 p2 : Z) : outcome (Z * Z) :=
  if f p1 =? f p2 then Ret (p1, p2)
  else match fuel with
       | O => OutOfFuel
       | S fuel' => walk_to_collision fuel' (f p1) (f p2)
       end.

Definition find_collision (fuel : nat) (start : Z) : outcome (Z * Z) :=
  if f start =? start then Ret (start, start)
  else
    '(p1, p2, count) ← tortoise_hare fuel (f start) (f (f start)) 0%nat;
    if check_start start (count * 2) p1 then Ret (start, start)
    else walk_to_collision fuel start p2.

End WithMap.

End Floyd.

(** ** nivasch.py *)

Module Nivasch.

Section WithMap.

(** [f.calc], the self-map under attack. *)
Variable f : Z → Z.

(** Lines 16-18: [k] empty stacks ([range(k)] is empty for [k <= 0]). *)
Definition new_stacks (k : Z) : list (list Z) := replicate (Z.to_nat k) [].

(** Lines 16-21: the stacks before the main loop is entered. *)
Definition init (k start : Z) : outcome (list (list Z)) :=
  let stacks := new_stacks k in
  idx ← py_mod start k;
  j ← py_index (length stacks) idx;
  s ← py_getitem stacks idx;
  Ret (<[j := s ++ [start]]> stacks).

(** Lines 31-34: pop while the top of the stack is greater than [next].
    One entry is popped per round, so [length s] rounds are enough; the
    budget [n] is never exhausted from there ([pop_greater_total]). *)
Fixpoint pop_greater (n : nat) (s : list Z) (next : Z) : outcome (list Z) :=
  top ← py_getitem s (-1);
  if top >? next then
    let s' := removelast s in
    if (length s' =? 0)%nat then Ret s'
    else match n with
         | O => OutOfFuel
         | S n' => pop_greater n' s' next
         end
  else Ret s.

(** Lines 23-35: one round of [while True].  [inl x] is [return x];
    [inr (stacks, next)] is the state at the next loop head. *)
Definition iteration (k : Z) (stacks : list (list Z)) (next : Z)
  : outcome (Z + list (list Z) * Z) :=
  let next := f next in
  idx ← py_mod next k;
  j ← py_index (length stacks) idx;
  s ← py_getitem stacks idx;
  if py_in next s then Ret (inl next)
  else if (length s =? 0)%nat then
    Ret (inr (<[j := s ++ [next]]> stacks, next))
  else
    s' ← pop_greater (length s) s next;
    Ret (inr (<[j := s' ++ [next]]> stacks, next)).

Fixpoint loop (fuel : nat) (k : Z) (stacks : list (list Z)) (next : Z)
  : outcome Z :=
  match fuel with
  | O => OutOfFuel
  | S fuel' =>
      r ← iteration k stacks next;
      match r with
      | inl x => Ret x
      | inr (stacks', next') => loop fuel' k stacks' next'
      end
  end.

Definition find_cycle (fuel : nat) (k start : Z) : outcome Z :=
  stacks ← init k start;
  loop fuel k stacks start.

(** The states at the head of [while True] that an execution goes through. *)
Inductive reachable (k start : Z) : list (list Z) → Z → Prop :=
  | reach_init stacks :
      init k start = Ret stacks → reachable k start stacks start
  | reach_iteration stacks next stacks' next' :
      reachable k start stacks next →
      iteration k stacks next = Ret (inr (stacks', next')) →
      reachable k start stacks' next'.

(** A stack read from the bottom (index 0) to the top (last index). *)
Definition strictly_increasing (s : list Z) : Prop :=
  ∀ (i j : nat) (x y : Z),
    s !! i = Some x → s !! j = Some y → (i < j)%nat → x < y.

Definition strictly_decreasing (s : list Z) : Prop :=
  ∀ (i j : nat) (x y : Z),
    s !! i = Some x → s !! j = Some y → (i < j)%nat → x > y.

(** [x] was visited at most [n] steps after [start]. *)
Definition visited (start : Z) (n : nat) (x : Z) : Prop :=
  ∃ i : nat, (i ≤ n)%nat ∧ x = Nat.iter i f start.

(** What holds at the head of [while True] after [n] rounds. *)
Record invariant (k start : Z) (n : nat) (stacks : list (list Z)) (next : Z)
  : Prop := {
  inv_k : 1 ≤ k;
  inv_length : length stacks = Z.to_nat k;
  inv_next : next = Nat.iter n f start;
  inv_top : ∃ s, stacks !! Z.to_nat (next mod k) = Some s ∧ next ∈ s;
  inv_increasing :
    ∀ (j : nat) (s : list Z), stacks !! j = Some s → strictly_increasing s;
  inv_partition :
    ∀ (j : nat) (s : list Z) (x : Z),
      stacks !! j = Some s → x ∈ s → x mod k = Z.of_nat j;
  inv_visited :
    ∀ (j : nat) (s : list Z) (x : Z),
      stacks !! j = Some s → x ∈ s → visited start n x
}.

End WithMap.

End Nivasch.

(** ** hellman_tables.py *)

Module PRF.

(** Modelled from the spec: the Oracle collaborator ([prf.py] is not among
    the sources).  It exposes an evaluation operation over the integers and
    publishes the sizes of its domain and of its range. *)
Record t : Type := { calc : Z → Z; domain : Z; rang : Z }.

End PRF.

Module ModifiedPRF.

Record t : Type := { f : PRF.t }.

(** Lines 11-16: [__init__] stores the oracle and nothing else. *)
Definition init (f : PRF.t) : outcome t := Ret {| f := f |}.

(** Lines 18-33. *)
Definition calc (self : t) (x : Z) : outcome Z :=
  let domain := PRF.domain (f self) in
  let rang := PRF.rang (f self) in
  if domain <? rang then
    r ← py_mod x domain;
    Ret (PRF.calc (f self) r)
  else if domain >? rang then
    r ← py_mod (x + 1) domain;
    Ret (PRF.calc (f self) (x + r * rang))
  else Ret (PRF.calc (f self) x).

(** Lines 35-49. *)
Definition recover_x (self : t) (x : Z) : outcome Z :=
  let domain := PRF.domain (f self) in
  let rang := PRF.rang (f self) in
  if domain <? rang then py_mod x domain
  else if domain >? rang then
    r ← py_mod (x + 1) domain;
    Ret (x + r * rang)
  else Ret x.

End ModifiedPRF.

Module Hellman.

(** A table is a [defaultdict(list)] from end points to start points. *)
Abbreviation table := (gmap Z (list Z)).

(** Code that reads and mutates the list of tables, and may raise: the
    tables as they are when the code stops are always part of the result. *)
Definition M (A : Type) : Type := list table → outcome A * list table.

#[global] Instance M_ret : MRet M := fun A a tables => (Ret a, tables).

#[global] Instance M_bind : MBind M := fun A B k m tables =>
  match m tables with
  | (Ret a, tables') => k a tables'
  | (Raise e, tables') => (Raise e, tables')
  | (OutOfFuel, tables') => (OutOfFuel, tables')
  end.

(** Code that does not touch the tables. *)
Definition lift {A : Type} (o : outcome A) : M A := fun tables => (o, tables).

(** [d[key]] on a [defaultdict(list)]: a missing key is first inserted
    with a fresh empty list. *)
Definition dd_getitem (d : table) (key : Z) : list Z * table :=
  match d !! key with
  | Some l => (l, d)
  | None => ([], <[key := []]> d)
  end.

(** [tables[i][key]]. *)
Definition tables_getitem (i key : Z) : M (list Z) := fun tables =>
  match py_index (length tables) i with
  | Ret j =>
      match tables !! j with
      | Some d =>
          let '(l, d') := dd_getitem d key in (Ret l, <[j := d']> tables)
      | None => (Raise IndexError, tables)
      end
  | Raise e => (Raise e, tables)
  | OutOfFuel => (OutOfFuel, tables)
  end.

Section Online.

Variables (t y : Z) (f_tag : ModifiedPRF.t).

(** The perturbed step [f_tag.calc((a + i) % f_tag.f.domain)]. *)
Definition step (i a : Z) : outcome Z :=
  x ← py_mod (a + i) (PRF.domain (ModifiedPRF.f f_tag));
  ModifiedPRF.calc f_tag x.

(** Lines 92-95: [for _ in range(t)] replaying the chain of one start
    point; [Some x] is [return x]. *)
Fixpoint replay (i : Z) (n : nat) (a : Z) : outcome (option Z) :=
  match n with
  | O => Ret None
  | S n' =>
      v ← step i a;
      if v =? y then
        x ← py_mod (a + i) (PRF.domain (ModifiedPRF.f f_tag));
        Ret (Some x)
      else
        a' ← step i a;
        replay i n' a'
  end.

(** Line 91: [for a in tables[i][curr]]. *)
Fixpoint replay_all (i : Z) (starts : list Z) : outcome (option Z) :=
  match starts with
  | [] => Ret None
  | a :: starts' =>
      r ← replay i (Z.to_nat t) a;
      match r with
      | Some x => Ret (Some x)
      | None => replay_all i starts'
      end
  end.

(** Lines 89-96: [for _ in range(t)] walking forward from [curr]. *)
Fixpoint walk (i : Z) (n : nat) (curr : Z) : M (option Z) :=
  match n with
  | O => mret None
  | S n' =>
      l ← tables_getitem i curr;
      r ← (if (0 <? length l)%nat then
             starts ← tables_getitem i curr;
             lift (replay_all i starts)
           else mret None);
      match r with
      | Some x => mret (Some x)
      | None =>
          curr' ← lift (step i curr);
          walk i n' curr'
      end
  end.

(** Lines 87-97: [for i in range(len(tables))], then [return None]. *)
Fixpoint each_table (indices : list nat) : M (option Z) :=
  match indices with
  | [] => mret None
  | i :: indices' =>
      r ← walk (Z.of_nat i) (Z.to_nat t) y;
      match r with
      | Some x => mret (Some x)
      | None => each_table indices'
      end
  end.

(** The point [n] perturbed steps after [a] in the chains of table [i]. *)
Fixpoint chain (i : Z) (n : nat) (a : Z) : outcome Z :=
  match n with
  | O => Ret a
  | S n' =>
      a' ← step i a;
      chain i n' a'
  end.

(** Replaying the chain of start point [a] in table [i] confirms [x]:
    [x] is a point of the chain, with the perturbation applied, that the
    adapted map sends to [y]. *)
Definition confirmed (i a x : Z) : Prop :=
  ∃ (s : nat) (a_s : Z),
    (s < Z.to_nat t)%nat ∧ chain i s a = Ret a_s ∧
    py_mod (a_s + i) (PRF.domain (ModifiedPRF.f f_tag)) = Ret x ∧
    ModifiedPRF.calc f_tag x = Ret y.

(** Within [n] steps from [curr] the walk in table [i] meets an end
    point one of whose start points confirms [x]. *)
Definition hit_from (tables : list table) (i n : nat) (curr x : Z)
  : Prop :=
  ∃ (d : table) (j : nat) (e : Z) (l : list Z) (a : Z),
    tables !! i = Some d ∧ (j < n)%nat ∧
    chain (Z.of_nat i) j curr = Ret e ∧
    d !! e = Some l ∧ a ∈ l ∧ confirmed (Z.of_nat i) a x.

Definition hit (tables : list table) (i : nat) (x : Z) : Prop :=
  hit_from tables i (Z.to_nat t) y x.

End Online.

(** [d'] is [d] up to keys bound to the empty list: every entry of [d] is
    in [d'] with the same list, and a key that [d] lacks is missing from
    [d'] or bound to [[]] there. *)
Definition table_extends (d d' : table) : Prop :=
  ∀ key : Z,
    match d !! key with
    | Some l => d' !! key = Some l
    | None => d' !! key = None ∨ d' !! key = Some []
    end.

Definition tables_extend (tables tables' : list table) : Prop :=
  Forall2 table_extends tables tables'.

(** The value returned (or the exception raised) and the tables as the
    call leaves them. *)
Definition hellman_online (tables : list table) (t y : Z)
    (f_tag : ModifiedPRF.t) : outcome (option Z) * list table :=
  each_table t y f_tag (seq 0 (length tables)) tables.

End Hellman.

(** ** Self-maps used in the examples *)

(** 0 -> 1 -> 2 -> 3 -> 4 -> 2: a tail of length two into a cycle of
    length three. *)
Definition rho (x : Z) : Z := nth (Z.to_nat x) [1; 2; 3; 4; 2] 0.

(** 0 -> 1 -> 2 -> 0. *)
Definition three_cycle (x : Z) : Z := nth (Z.to_nat x) [1; 2; 0] 0.

(** The identity on a domain and range of ten points. *)
Definition identity_prf : PRF.t :=
  {| PRF.calc := fun x => x; PRF.domain := 10; PRF.rang := 10 |}.

(** The successor modulo ten. *)
Definition successor_prf : PRF.t :=
  {| PRF.calc := fun x => (x + 1) mod 10; PRF.domain := 10; PRF.rang := 10 |}.

(** An oracle whose domain is larger than the square of its range. *)
Definition oversized_prf : PRF.t :=
  {| PRF.calc := fun x => x mod 2; PRF.domain := 1000; PRF.rang := 2 |}.

(** An oracle with more outputs than inputs. *)
Definition expanding_prf : PRF.t :=
  {| PRF.calc := fun x => 3 * x; PRF.domain := 4; PRF.rang := 16 |}.

(** An oracle with more inputs than outputs. *)
Definition compressing_prf : PRF.t :=
  {| PRF.calc := fun x => x mod 4; PRF.domain := 16; PRF.rang := 4 |}.

(** An oracle that publishes an empty domain and an empty range; the sizes
    satisfy [domain <= rang ^ 2] and [rang <= domain ^ 2]. *)
Definition empty_prf : PRF.t :=
  {| PRF.calc := fun x => x; PRF.domain := 0; PRF.rang := 0 |}.

(** * The rest of the code *)

(** ** floyd.py: the retry loop of [main] *)

Module FloydMain.

Section WithMap.

(** [f.calc] for the oracle that [main] builds. *)
Variable f : Z → Z.

(** Lines 46-56: [while True] around [find_collision].  [fuel] bounds each
    loop of one [find_collision] call and [rounds] the number of calls.
    Printing is left out; the value is the start point and the pair at
    which the loop breaks. *)
Fixpoint main_loop (fuel rounds : nat) (start : Z) : outcome (Z * (Z * Z)) :=
  match rounds with
  | O => OutOfFuel
  | S rounds' =>
      '(x_0, x_1) ← Floyd.find_collision f fuel start;
      if negb (x_0 =? x_1) && (f x_0 =? f x_1) then Ret (start, (x_0, x_1))
      else main_loop fuel rounds' (start + 1)
  end.

(** Lines 45-56: the loop is entered with [start = 0]. *)
Definition main (fuel rounds : nat) : outcome (Z * (Z * Z)) :=
  main_loop fuel rounds 0.

(** [x] lies on a cycle of [f]. *)
Definition periodic (x : Z) : Prop :=
  ∃ n : nat, (0 < n)%nat ∧ Nat.iter n f x = x.

End WithMap.

End FloydMain.

(** 0 -> 1 -> 0, and 2 -> 0: the start points 0 and 1 lie on a cycle, 2 is
    the first that does not. *)
Definition swap_with_tail (x : Z) : Z := nth (Z.to_nat x) [1; 0; 0] 0.

(** ** nivasch.py: the order kept by the stacks *)

Module NivaschOrder.

Section WithMap.

Variable f : Z → Z.

(** After [n] rounds every stack entry [x] is unbeaten: it was pushed at
    some step [i], and no point visited since then in its residue class
    modulo [k] is at or below it. *)
Definition unbeaten (k start : Z) (n : nat) (stacks : list (list Z)) : Prop :=
  ∀ (j : nat) (s : list Z) (x : Z),
    stacks !! j = Some s → x ∈ s →
    ∃ i : nat, (i ≤ n)%nat ∧ x = Nat.iter i f start ∧
      ∀ i' : nat, (i < i' ≤ n)%nat →
                  Nat.iter i' f start mod k = x mod k →
                  x < Nat.iter i' f start.

End WithMap.

End NivaschOrder.

(** ** hellman_tables.py: preprocessing and the test driver *)

#[global] Instance exn_eq_dec : EqDecision exn.
Proof. solve_decision. Defined.

#[global] Instance outcome_eq_dec {A : Type} `{EqDecision A} :
  EqDecision (outcome A).
Proof. solve_decision. Defined.

Module HellmanRun.

Section WithDraws.

(** The value of [int.from_bytes(urandom(f.domain_bytes), byteorder='big')]
    at its [c]-th evaluation: the random source is an input, and the code
    is passed the number [c] of values drawn so far. *)
Variable draw : nat → Z.

(** [d[key].append(v)] on a [defaultdict(list)]. *)
Definition dd_append (d : gmap Z (list Z)) (key v : Z) : gmap Z (list Z) :=
  let '(l, d') := Hellman.dd_getitem d key in <[key := l ++ [v]]> d'.

(** Lines 64-70: [for _ in range(m)], one chain of [t] steps per drawn
    start point, recorded under its end point. *)
Fixpoint fill_table (t : Z) (f_tag : ModifiedPRF.t) (i : Z) (n c : nat)
    (table : gmap Z (list Z)) : outcome (gmap Z (list Z) * nat) :=
  match n with
  | O => Ret (table, c)
  | S n' =>
      let start := draw c in
      curr ← Hellman.chain f_tag i (Z.to_nat t) start;
      fill_table t f_tag i n' (S c) (dd_append table curr start)
  end.

(** Lines 61-74: [for i in range(t)], one table per perturbation index. *)
Fixpoint build_tables (m t : Z) (f_tag : ModifiedPRF.t) (indices : list nat)
    (c : nat) (tables : list (gmap Z (list Z)))
  : outcome (list (gmap Z (list Z)) * nat) :=
  match indices with
  | [] => Ret (tables, c)
  | i :: indices' =>
      '(table, c') ← fill_table t f_tag (Z.of_nat i) (Z.to_nat m) c ∅;
      build_tables m t f_tag indices' c' (tables ++ [table])
  end.

(** Lines 52-75; printing is left out.  The result is the list of tables
    and the number of values drawn when the call returns. *)
Definition hellman_preprocess (m t : Z) (f_tag : ModifiedPRF.t) (c : nat)
  : outcome (list (gmap Z (list Z)) * nat) :=
  build_tables m t f_tag (seq 0 (Z.to_nat t)) c [].

(** Lines 114-121: [for _ in range(100)], with the tables as the earlier
    lookups left them. *)
Fixpoint trials (f : PRF.t) (t : Z) (f_tag : ModifiedPRF.t) (n c : nat)
    (tables : list (gmap Z (list Z))) (success_count : Z) : outcome Z :=
  match n with
  | O => Ret success_count
  | S n' =>
      let y := PRF.calc f (draw c) in
      match Hellman.hellman_online tables t y f_tag with
      | (Ret (Some x), tables') =>
          x' ← ModifiedPRF.recover_x f_tag x;
          if PRF.calc f x' =? y
          then trials f t f_tag n' (S c) tables' (success_count + 1)
          else trials f t f_tag n' (S c) tables' success_count
      | (Ret None, tables') =>
          trials f t f_tag n' (S c) tables' success_count
      | (Raise e, _) => Raise e
      | (OutOfFuel, _) => OutOfFuel
      end
  end.

(** Lines 100-121; printing is left out. *)
Definition run_hellman (f : PRF.t) (m t : Z) (c : nat) : outcome Z :=
  f_tag ← ModifiedPRF.init f;
  '(tables, c') ← hellman_preprocess m t f_tag c;
  trials f t f_tag 100 c' tables 0.

(** The same loop counting every lookup that returns a value, without the
    test [f.calc(x) == y] of line 119. *)
Fixpoint lookups_found (f : PRF.t) (t : Z) (f_tag : ModifiedPRF.t)
    (n c : nat) (tables : list (gmap Z (list Z))) (found : Z) : outcome Z :=
  match n with
  | O => Ret found
  | S n' =>
      let y := PRF.calc f (draw c) in
      match Hellman.hellman_online tables t y f_tag with
      | (Ret (Some x), tables') =>
          lookups_found f t f_tag n' (S c) tables' (found + 1)
      | (Ret None, tables') => lookups_found f t f_tag n' (S c) tables' found
      | (Raise e, _) => Raise e
      | (OutOfFuel, _) => OutOfFuel
      end
  end.

(** The start points drawn for table [i] when the first table starts at
    draw [c], in the order of drawing. *)
Definition starts_of (m : Z) (c i : nat) : list Z :=
  draw <$> seq (c + i * Z.to_nat m) (Z.to_nat m).

(** The entry under an end point after the start points [new] with that
    end point were appended. *)
Definition add_starts (o : option (list Z)) (new : list Z)
  : option (list Z) :=
  match new with
  | [] => o
  | _ => Some (default [] o ++ new)
  end.

(** What the finished table [i] holds when [starts] were drawn for it:
    under each end point the start points that lead there, in the order of
    drawing, and nothing under any other key. *)
Definition table_holds (t : Z) (f_tag : ModifiedPRF.t)
    (d : gmap Z (list Z)) (i : nat) (starts : list Z) : Prop :=
  ∀ (e : Z) (l : list Z),
    d !! e = Some l ↔
    l ≠ [] ∧
    l = filter (λ s, Hellman.chain f_tag (Z.of_nat i) (Z.to_nat t) s = Ret e)
               starts.

End WithDraws.

End HellmanRun.

(** ** bellcore.py *)

(** [a // b] on Python integers: floor division, as [Z.div]. *)
Definition py_floordiv (a b : Z) : outcome Z :=
  if b =? 0 then Raise ZeroDivisionError else Ret (a / b).

(** [divmod(a, b)]. *)
Definition py_divmod (a b : Z) : outcome (Z * Z) :=
  if b =? 0 then Raise ZeroDivisionError else Ret (a / b, a mod b).

Module Bellcore.

(** Lines 5-15 ([if r:] holds when [r] is not zero). *)
Definition divceil (a b : Z) : outcome Z :=
  '(q, r) ← py_divmod a b;
  if negb (r =? 0) then Ret (q + 1) else Ret q.

(** Lines 18-26. *)
Definition divfloor (a b : Z) : outcome Z :=
  '(q, r) ← py_divmod a b;
  Ret q.

(** Lines 29-37: the recursion is on [b % a], whose absolute value is less
    than that of [a]; [fuel] bounds its depth. *)
Fixpoint egcd (fuel : nat) (a b : Z) : outcome (Z * Z * Z) :=
  if a =? 0 then Ret (b, 0, 1)
  else match fuel with
       | O => OutOfFuel
       | S fuel' =>
           r ← py_mod b a;
           '(g, y, x) ← egcd fuel' r a;
           q ← py_floordiv b a;
           Ret (g, x - q * y, y)
       end.

(** Lines 40-48: [Ret None] is
    [raise Exception('modular inverse does not exist')]. *)
Definition modinv (fuel : nat) (a m : Z) : outcome (option Z) :=
  '(g, x, y) ← egcd fuel a m;
  if negb (g =? 1) then Ret None
  else
    r ← py_mod x m;
    Ret (Some r).

(** What the base class [RSA_CRT] of [oracles.py], which is not among the
    sources, provides to [RSA_oracle]: the primes, the modulus and the
    three partial decryptions. *)
Record RSA_CRT : Type := {
  _p : Z;
  _q : Z;
  n : Z;
  _dec_mod_p : Z → Z;
  _dec_mod_q : Z → Z;
  _faulty_dec_mod_p : Z → Z
}.

Record RSA_oracle : Type := {
  base : RSA_CRT;
  _q_inv : Z;
  _p_inv : Z
}.

(** Lines 52-55: [__init__] for a key with primes [key_p] and [key_q];
    [base] is what [super().__init__(key)] sets up.  [Ret None] is the
    exception of [modinv]. *)
Definition init (fuel : nat) (key_p key_q : Z) (base : RSA_CRT)
  : outcome (option RSA_oracle) :=
  q_inv ← modinv fuel key_q key_p;
  match q_inv with
  | None => Ret None
  | Some q_inv =>
      p_inv ← modinv fuel key_p key_q;
      match p_inv with
      | None => Ret None
      | Some p_inv =>
          Ret (Some {| base := base; _q_inv := q_inv; _p_inv := p_inv |})
      end
  end.

(** Lines 80-87. *)
Definition CRT (self : RSA_oracle) (m_p m_q : Z) : outcome Z :=
  py_mod (m_p * _q (base self) * _q_inv self
          + m_q * _p (base self) * _p_inv self)
         (n (base self)).

(** Lines 57-66. *)
Definition dec (self : RSA_oracle) (c : Z) : outcome Z :=
  let m_p := _dec_mod_p (base self) c in
  let m_q := _dec_mod_q (base self) c in
  CRT self m_p m_q.

(** Lines 68-77. *)
Definition faulty_dec (self : RSA_oracle) (c : Z) : outcome Z :=
  let m_p := _faulty_dec_mod_p (base self) c in
  let m_q := _dec_mod_q (base self) c in
  CRT self m_p m_q.

Definition MESSAGE_TO_DECRYPT : Z := 4096.

(** Lines 90-108: [Ret None] is [return None]. *)
Definition bellcore_attack (fuel : nat) (rsa : RSA_oracle)
  : outcome (option (Z * Z)) :=
  m ← dec rsa MESSAGE_TO_DECRYPT;
  m_prime ← faulty_dec rsa MESSAGE_TO_DECRYPT;
  '(g, _, _) ← egcd fuel (n (base rsa)) (m - m_prime);
  let q := Z.abs g in
  p ← py_floordiv (n (base rsa)) q;
  if p * q =? n (base rsa) then Ret (Some (p, q)) else Ret None.

End Bellcore.

(** ** manger.py *)

Module Manger.

(** The exceptions that the attack can meet, beside those of [exn]. *)
Inductive raised : Type :=
  | Builtin (e : exn)
  | ValueError
  | OverflowError.

Inductive result (A : Type) : Type :=
  | Ok (a : A)
  | Err (e : raised)
  | Fuel.

Arguments Ok {A} a.
Arguments Err {A} e.
Arguments Fuel {A}.

#[global] Instance result_ret : MRet result := fun A a => Ok a.

#[global] Instance result_bind : MBind result := fun A B k m =>
  match m with
  | Ok a => k a
  | Err e => Err e
  | Fuel => Fuel
  end.

Definition of_outcome {A : Type} (o : outcome A) : result A :=
  match o with
  | Ret a => Ok a
  | Raise e => Err (Builtin e)
  | OutOfFuel => Fuel
  end.

(** The public key: the exponent of an RSA key is a natural number. *)
Record key : Type := { e : N; n : Z }.

(** [pow(b, e, n)] for a natural exponent. *)
Definition py_pow3 (b : Z) (e : N) (n : Z) : result Z :=
  if n =? 0 then Err ValueError else Ok ((b ^ Z.of_N e) mod n).

(** [x.to_bytes(k, byteorder='big')]; the [k] bytes are represented by the
    integer that they spell. *)
Definition to_bytes (x k : Z) : result Z :=
  if k <? 0 then Err ValueError
  else if x <? 0 then Err OverflowError
  else if 256 ^ k <=? x then Err OverflowError
  else Ok x.

(** Lines 10-20. *)
Definition divceil (a b : Z) : result Z :=
  '(q, r) ← of_outcome (py_divmod a b);
  if negb (r =? 0) then Ok (q + 1) else Ok q.

(** Lines 23-31. *)
Definition divfloor (a b : Z) : result Z :=
  '(q, r) ← of_outcome (py_divmod a b);
  Ok q.

Section Attack.

(** The block length in bytes, the public key, the ciphertext as an
    integer, and [oracle.query] as a function of the integer that the bytes
    it is passed spell. *)
Variables (k : Z) (key : key) (c : Z) (query : Z → bool).

(** Lines 33-35. *)
Definition try_with_oracle (f : Z) : result bool :=
  p ← py_pow3 f (e key) (n key);
  attempt ← of_outcome (py_mod (p * c) (n key));
  bytes ← to_bytes attempt k;
  Ok (query bytes).

(** Lines 49-51. *)
Fixpoint find_f1_loop (fuel : nat) (f1 : Z) : result Z :=
  try_with_oracle f1 ≫= λ b : bool,
  if b then
    match fuel with
    | O => Fuel
    | S fuel' => find_f1_loop fuel' (f1 * 2)
    end
  else Ok f1.

(** Lines 47-51. *)
Definition find_f1 (fuel : nat) : result Z := find_f1_loop fuel 2.

(** [2 ** (8 * (k - 1))], for [k >= 1] (Python gives a float below). *)
Definition B : Z := 2 ^ (8 * (k - 1)).

(** Lines 69-71; [f1 // 2] has a nonzero divisor and is [f1 / 2]. *)
Fixpoint find_f2_loop (fuel : nat) (f1 f2 : Z) : result Z :=
  try_with_oracle f2 ≫= λ b : bool,
  if negb b then
    match fuel with
    | O => Fuel
    | S fuel' => find_f2_loop fuel' f1 (f2 + f1 / 2)
    end
  else Ok f2.

(** Lines 65-71. *)
Definition find_f2 (fuel : nat) (f1 : Z) : result Z :=
  d ← divfloor (n key + B) B;
  find_f2_loop fuel f1 (d * (f1 / 2)).

(** Lines 88-101; printing and the round counter are left out. *)
Fixpoint find_m_loop (fuel : nat) (m_min m_max : Z) : result Z :=
  if negb (m_max =? m_min) then
    match fuel with
    | O => Fuel
    | S fuel' =>
        f_tmp ← divfloor (2 * B) (m_max - m_min);
        i ← divfloor (f_tmp * m_min) (n key);
        f3 ← divceil (i * n key) m_min;
        try_with_oracle f3 ≫= λ b : bool,
        if b then
          m_max' ← divfloor (i * n key + B) f3;
          find_m_loop fuel' m_min m_max'
        else
          m_min' ← divceil (i * n key + B) f3;
          find_m_loop fuel' m_min' m_max
    end
  else Ok m_min.

(** Lines 84-101. *)
Definition find_m (fuel : nat) (f2 : Z) : result Z :=
  m_min ← divceil (n key) f2;
  m_max ← divfloor (n key + B) f2;
  find_m_loop fuel m_min m_max.

(** Lines 114-130, from the ciphertext as an integer; printing is left
    out.  [Ok None] is [return None]. *)
Definition manger_attack (fuel : nat) : result (option Z) :=
  f1 ← find_f1 fuel;
  f2 ← find_f2 fuel f1;
  m ← find_m fuel f2;
  p ← py_pow3 m (e key) (n key);
  if p =? c then
    bytes ← to_bytes m k;
    Ok (Some bytes)
  else Ok None.

(** The oracle tells, for every multiplier [f], whether [f * m] reduced
    modulo [n] is below [B]: what an oracle that decrypts the query and
    compares it with [B] answers when [m] is the decryption of [c]. *)
Definition oracle_for (m : Z) : Prop :=
  ∀ f : Z, query ((f ^ Z.of_N (e key)) mod n key * c mod n key)
           = ((f * m) mod n key <? B).

End Attack.

End Manger.

(** * Properties *)

(** ** Outcomes *)

Lemma bind_Ret_inv {A B : Type} (m : outcome A) (k : A → outcome B) (b : B) :
  m ≫= k = Ret b → ∃ a, m = Ret a ∧ k a = Ret b.
Proof. destruct m as [a| |]; simpl; intros H; try discriminate. eauto. Qed.

Lemma py_mod_Ret (a b : Z) : b ≠ 0 → py_mod a b = Ret (a mod b).
Proof. intros Hb. unfold py_mod. destruct (Z.eqb_spec b 0); [lia | done]. Qed.

Lemma py_mod_Ret_inv (a b r : Z) : py_mod a b = Ret r → b ≠ 0 ∧ r = a mod b.
Proof.
  unfold py_mod. destruct (Z.eqb_spec b 0); [discriminate |].
  intros [= <-]. done.
Qed.

(** ** Iterating a self-map *)

Section Iterates.

Variable f : Z → Z.

Lemma iter_period (n q : nat) (s : Z) :
  Nat.iter n f s = s → Nat.iter (q * n) f s = s.
Proof.
  intros Hn. induction q as [|q IH]; [done |].
  replace (S q * n)%nat with (q * n + n)%nat by lia.
  by rewrite Nat.iter_add, Hn.
Qed.

(** On a cycle the map is injective: two points of the orbit of a periodic
    point that meet after [a] more steps were equal. *)
Lemma iter_cycle_inj (n a b : nat) (s : Z) :
  (0 < n)%nat → Nat.iter n f s = s →
  Nat.iter a f s = Nat.iter a f (Nat.iter b f s) →
  s = Nat.iter b f s.
Proof.
  intros Hn Hper Heq.
  assert (Hs : Nat.iter (a * n) f s = s) by by apply iter_period.
  assert (Hsplit : (a * n = (a * n - a) + a)%nat) by nia.
  rewrite <- Hs at 1. rewrite Hsplit, Nat.iter_add, Heq.
  rewrite <- !Nat.iter_add.
  replace (a * n - a + a + b)%nat with (b + a * n)%nat by lia.
  by rewrite Nat.iter_add, Hs.
Qed.

End Iterates.

(** ** Floyd *)

Section FloydFacts.

Variable f : Z → Z.

(** What the tortoise-and-hare loop returns: the pointers after the first
    round count [d] at which they coincide. *)
Lemma tortoise_hare_Ret fuel p1 p2 count q1 q2 count' :
  Floyd.tortoise_hare f fuel p1 p2 count = Ret (q1, q2, count') →
  ∃ d : nat, count' = (count + d)%nat ∧ q1 = Nat.iter d f p1 ∧
             q2 = Nat.iter (2 * d) f p2 ∧ q1 = q2 ∧
             (d = 0%nat ↔ p1 = p2).
Proof.
  revert p1 p2 count.
  induction fuel as [|fuel IH]; intros p1 p2 count;
    cbn [Floyd.tortoise_hare];
    destruct (Z.eqb_spec p1 p2) as [-> | Hne]; intros H; try discriminate.
  - injection H as <- <- <-. exists 0%nat. repeat split; auto with lia.
  - injection H as <- <- <-. exists 0%nat. repeat split; auto with lia.
  - apply IH in H as (d & -> & -> & -> & Heq & _).
    exists (S d). split_and!.
    + lia.
    + by rewrite Nat.iter_succ_r.
    + replace (2 * S d)%nat with (S (S (2 * d))) by lia.
      by rewrite !Nat.iter_succ_r.
    + done.
    + split; [lia | done].
Qed.

Lemma tortoise_hare_total fuel d p1 p2 count :
  Nat.iter d f p1 = Nat.iter (2 * d) f p2 → (d ≤ fuel)%nat →
  ∃ r, Floyd.tortoise_hare f fuel p1 p2 count = Ret r.
Proof.
  revert d p1 p2 count.
  induction fuel as [|fuel IH]; intros d p1 p2 count Hd Hle;
    cbn [Floyd.tortoise_hare];
    destruct (Z.eqb_spec p1 p2) as [-> | Hne]; eauto.
  - assert (d = 0%nat) as -> by lia. simpl in Hd. done.
  - destruct d as [|d]; [simpl in Hd; done |].
    apply (IH d); [| lia].
    replace (2 * S d)%nat with (S (S (2 * d))) in Hd by lia.
    by rewrite !Nat.iter_succ_r in Hd.
Qed.

Lemma check_start_true start n j p :
  (0 < j ≤ n)%nat → Nat.iter j f p = start →
  Floyd.check_start f start n p = true.
Proof.
  revert j p. induction n as [|n IH]; intros j p Hj Hit; [lia |].
  simpl. destruct (Z.eqb_spec (f p) start) as [|Hne]; [done |].
  destruct j as [|j]; [lia |]. rewrite Nat.iter_succ_r in Hit.
  destruct j as [|j]; [simpl in Hit; done |].
  apply (IH (S j)); [lia | done].
Qed.

Lemma walk_to_collision_Ret fuel p1 p2 x0 x1 :
  Floyd.walk_to_collision f fuel p1 p2 = Ret (x0, x1) →
  f x0 = f x1 ∧ (p1 ≠ p2 → x0 ≠ x1) ∧ (p1 = p2 → x0 = p1 ∧ x1 = p1).
Proof.
  revert p1 p2.
  induction fuel as [|fuel IH]; intros p1 p2; simpl;
    destruct (Z.eqb_spec (f p1) (f p2)) as [Heq | Hne];
    intros H; try discriminate.
  - injection H as <- <-. split_and!; [done | done | by intros ->].
  - injection H as <- <-. split_and!; [done | done | by intros ->].
  - apply IH in H as (Hf & Hd & _). split_and!; [done | |].
    + intros Hp. apply Hd. congruence.
    + intros ->. done.
Qed.

End FloydFacts.

(** C1.  Whenever [find_collision f start] returns a pair [(x0, x1)], either
    [x0 <> x1] and [f x0 = f x1], or the pair is the degenerate
    [(start, start)]. *)
Theorem find_collision_sound (f : Z → Z) (fuel : nat) (start x0 x1 : Z) :
  Floyd.find_collision f fuel start = Ret (x0, x1) →
  (x0 ≠ x1 ∧ f x0 = f x1) ∨ (x0 = start ∧ x1 = start).
Proof.
  unfold Floyd.find_collision.
  destruct (Z.eqb_spec (f start) start) as [Hfix | Hnfix].
  { intros [= <- <-]. by right. }
  intros H. apply bind_Ret_inv in H as ([[p1 p2] count] & _ & H).
  destruct (Floyd.check_start f start (count * 2) p1).
  { injection H as <- <-. by right. }
  apply walk_to_collision_Ret in H as (Hf & Hne & Heq).
  destruct (decide (start = p2)) as [<- | Hsp].
  - right. by apply Heq.
  - left. auto.
Qed.

(** A run on [rho] from 0: the two preimages of 2 are found. *)
Lemma find_collision_sound_witness :
  Floyd.find_collision rho 10 0 = Ret (1, 4) ∧
  ((1 ≠ 4 ∧ rho 1 = rho 4) ∨ (1 = 0 ∧ 4 = 0)).
Proof.
  split; [reflexivity |].
  apply (find_collision_sound rho 10 0 1 4). reflexivity.
Defined.

(** C5.  When [start] lies on the cycle of its own orbit (it comes back to
    itself after [n > 0] steps), [find_collision] returns the degenerate pair
    [(start, start)] as soon as the fuel covers [n] rounds; unless [start] is
    a fixed point, the tortoise and the hare meet at some point [m] after
    [count] rounds and the walk of [2 * count] steps from [m] revisits
    [start]. *)
Theorem find_collision_start_on_cycle (f : Z → Z) (start : Z) (n fuel : nat) :
  (0 < n)%nat → Nat.iter n f start = start → (n ≤ fuel)%nat →
  Floyd.find_collision f fuel start = Ret (start, start) ∧
  (f start ≠ start →
   ∃ (m : Z) (count : nat),
     Floyd.tortoise_hare f fuel (f start) (f (f start)) 0 = Ret (m, m, count) ∧
     Floyd.check_start f start (count * 2) m = true).
Proof.
  intros Hn Hper Hfuel. unfold Floyd.find_collision.
  destruct (Z.eqb_spec (f start) start) as [Hfix | Hnfix]; [done |].
  assert (Hloop : ∃ (m : Z) (count : nat),
    Floyd.tortoise_hare f fuel (f start) (f (f start)) 0 = Ret (m, m, count) ∧
    Floyd.check_start f start (count * 2) m = true).
  { destruct (tortoise_hare_total f fuel (n - 1) (f start) (f (f start)) 0%nat)
      as [[[q1 q2] count] Hth]; [| lia |].
    { rewrite <- !Nat.iter_succ_r.
      replace (S (n - 1)) with n by lia.
      replace (S (S (2 * (n - 1)))) with (2 * n)%nat by lia.
      by rewrite Hper, iter_period. }
    pose proof Hth as Hinv.
    apply tortoise_hare_Ret in Hinv as (d & Hc & Hq1 & Hq2 & Heq & Hd0).
    simpl in Hc. subst count.
    rewrite <- Nat.iter_succ_r in Hq1. rewrite <- !Nat.iter_succ_r in Hq2.
    assert (Hm : start = q1).
    { rewrite Hq1. apply (iter_cycle_inj f n (S d)); [done | done |].
      rewrite <- Nat.iter_add.
      replace (S d + S d)%nat with (S (S (2 * d))) by lia.
      by rewrite <- Hq1, <- Hq2. }
    exists q1, d. split; [by rewrite Heq at 2 |].
    apply (check_start_true f start (d * 2) (S d)); [| by rewrite <- Hm, <- Hq1].
    destruct d as [|d]; [| lia].
    simpl in Hq1. congruence. }
  split; [| done].
  destruct Hloop as (m & count & -> & Hcheck). simpl. by rewrite Hcheck.
Qed.

(** A run on [three_cycle] from 0. *)
Lemma find_collision_start_on_cycle_witness :
  Floyd.find_collision three_cycle 3 0 = Ret (0, 0).
Proof.
  apply (find_collision_start_on_cycle three_cycle 0 3 3); [lia | reflexivity | lia].
Defined.

(** ** Python lists *)

Lemma bind_Ret {A B : Type} (a : A) (k : A → outcome B) : Ret a ≫= k = k a.
Proof. reflexivity. Qed.

Lemma py_in_true (x : Z) (l : list Z) : py_in x l = true ↔ x ∈ l.
Proof.
  unfold py_in. rewrite existsb_exists, list_elem_of_In. split.
  - intros (y & Hy & Heq). apply Z.eqb_eq in Heq. by subst.
  - intros Hx. exists x. split; [done | apply Z.eqb_refl].
Qed.

Lemma py_index_Ret (len : nat) (i : Z) :
  0 ≤ i < Z.of_nat len → py_index len i = Ret (Z.to_nat i).
Proof.
  intros Hi. unfold py_index.
  destruct (Z.ltb_spec i 0); [lia |].
  destruct (Z.leb_spec 0 i); [| lia].
  destruct (Z.ltb_spec i (Z.of_nat len)); [done | lia].
Qed.

Lemma py_getitem_Ret {A : Type} (l : list A) (i : Z) (a : A) :
  0 ≤ i → l !! Z.to_nat i = Some a → py_getitem l i = Ret a.
Proof.
  intros Hi Ha. unfold py_getitem. rewrite py_index_Ret.
  - by rewrite bind_Ret, Ha.
  - apply lookup_lt_Some in Ha. lia.
Qed.

Lemma py_getitem_top (s : list Z) (top : Z) :
  py_getitem (s ++ [top]) (-1) = Ret top.
Proof.
  unfold py_getitem, py_index. rewrite length_app. simpl length.
  replace (-1 <? 0) with true by done.
  replace (-1 + Z.of_nat (length s + 1)) with (Z.of_nat (length s)) by lia.
  destruct (Z.leb_spec 0 (Z.of_nat (length s))); [| lia].
  destruct (Z.ltb_spec (Z.of_nat (length s)) (Z.of_nat (length s + 1)));
    [| lia].
  simpl. rewrite Nat2Z.id. by rewrite list_lookup_middle.
Qed.

(** ** Nivasch *)

Section NivaschFacts.

Variable f : Z → Z.

Lemma increasing_prefix (s r : list Z) :
  Nivasch.strictly_increasing (s ++ r) → Nivasch.strictly_increasing s.
Proof.
  intros Hs i j x y Hx Hy Hij.
  apply (Hs i j); [by apply lookup_app_l_Some .. | done].
Qed.

Lemma increasing_snoc (s : list Z) (x : Z) :
  Nivasch.strictly_increasing s →
  (∀ top, last s = Some top → top < x) →
  Nivasch.strictly_increasing (s ++ [x]).
Proof.
  intros Hs Htop i j a b Ha Hb Hij.
  apply lookup_snoc_Some in Ha as [[Hi Ha] | [Hi _]];
    [| apply lookup_lt_Some in Hb; rewrite length_app in Hb; simpl in Hb;
       lia].
  apply lookup_snoc_Some in Hb as [[Hj Hb] | [Hj <-]]; [by apply (Hs i j) |].
  destruct (last s) as [top|] eqn:Hlast;
    [| apply last_None in Hlast; subst; simpl in Hi; lia].
  specialize (Htop top eq_refl). rewrite last_lookup in Hlast.
  destruct (decide (i = pred (length s))) as [-> | Hne]; [congruence |].
  assert (a < top); [| lia].
  apply (Hs i (pred (length s))); [done | done | lia].
Qed.

(** The inner loop returns a prefix of the stack: it drops the entries
    greater than [next] from the top and stops at the first other one. *)
Lemma pop_greater_total (n : nat) (s : list Z) (next : Z) :
  s ≠ [] → (length s ≤ S n)%nat →
  ∃ s' r, Nivasch.pop_greater n s next = Ret s' ∧ s = s' ++ r ∧
          Forall (λ x, next < x) r ∧
          (∀ top, last s' = Some top → top ≤ next).
Proof.
  revert s. induction n as [|n IH]; intros s Hne Hlen;
    destruct (exists_last Hne) as (s0 & top & ->);
    cbn [Nivasch.pop_greater]; rewrite py_getitem_top, bind_Ret;
    rewrite removelast_last; rewrite length_app in Hlen; simpl in Hlen;
    destruct (Z.gtb_spec top next) as [Hgt | Hle].
  - destruct s0 as [|a s0]; [| simpl in Hlen; lia]. simpl.
    exists [], [top]. split_and!; [done | done | | done].
    by apply Forall_singleton.
  - exists (s0 ++ [top]), []. split_and!; [done | | done |].
    + by rewrite app_nil_r.
    + intros top'. rewrite last_snoc. by intros [= <-].
  - destruct (Nat.eqb_spec (length s0) 0) as [Hz | Hnz].
    + apply length_zero_iff_nil in Hz as ->.
      exists [], [top]. split_and!; [done | done | | done].
      by apply Forall_singleton.
    + destruct (IH s0) as (s' & r & Hpop & -> & Hr & Hlast).
      { by intros ->. }
      { lia. }
      exists s', (r ++ [top]). split_and!; [done | | | done].
      * by rewrite app_assoc.
      * apply Forall_app. split; [done |]. by apply Forall_singleton.
  - exists (s0 ++ [top]), []. split_and!; [done | | done |].
    + by rewrite app_nil_r.
    + intros top'. rewrite last_snoc. by intros [= <-].
Qed.

Lemma visited_S (start : Z) (n : nat) (x : Z) :
  Nivasch.visited f start n x → Nivasch.visited f start (S n) x.
Proof. intros (i & Hi & ->). exists i. split; [lia | done]. Qed.

Lemma init_Ret (k start : Z) :
  1 ≤ k →
  ∃ stacks, Nivasch.init k start = Ret stacks ∧
            Nivasch.invariant f k start 0 stacks start.
Proof.
  intros Hk. unfold Nivasch.init, Nivasch.new_stacks.
  pose proof (Z.mod_pos_bound start k ltac:(lia)) as Hidx.
  assert (Hlook : replicate (Z.to_nat k) ([] : list Z)
                    !! Z.to_nat (start mod k) = Some []).
  { apply lookup_replicate_2. lia. }
  rewrite py_mod_Ret, bind_Ret by lia.
  rewrite py_index_Ret, bind_Ret by (rewrite length_replicate; lia).
  rewrite (py_getitem_Ret _ _ []), bind_Ret by first [done | lia].
  eexists. split; [done |]. simpl.
  assert (Hins : ∀ (j : nat) (s : list Z),
    <[Z.to_nat (start mod k) := [start]]> (replicate (Z.to_nat k) [])
      !! j = Some s →
    (j = Z.to_nat (start mod k) ∧ s = [start]) ∨ s = []).
  { intros j s Hj. apply list_lookup_insert_Some in Hj as [(<- & <- & _) | [_ Hj]].
    - by left.
    - apply lookup_replicate in Hj as [-> _]. by right. }
  split.
  - done.
  - by rewrite length_insert, length_replicate.
  - done.
  - exists [start]. split; [| by apply list_elem_of_singleton].
    apply list_lookup_insert_eq. rewrite length_replicate. lia.
  - intros j s Hj i1 i2 x y Hx Hy Hlt.
    apply Hins in Hj as [[_ ->] | ->].
    + apply lookup_lt_Some in Hy. simpl in Hy. lia.
    + done.
  - intros j s x Hj Hx. apply Hins in Hj as [[-> ->] | ->].
    + apply list_elem_of_singleton in Hx as ->. lia.
    + by apply not_elem_of_nil in Hx.
  - intros j s x Hj Hx. apply Hins in Hj as [[-> ->] | ->].
    + apply list_elem_of_singleton in Hx as ->. exists 0%nat. done.
    + by apply not_elem_of_nil in Hx.
Qed.

(** One round of the main loop from a state that satisfies the invariant:
    either the new point is found on its stack and returned, or the round
    ends in a state that satisfies the invariant again, where the stack of
    the new point lost only entries greater than it. *)
Lemma iteration_step (k start : Z) (n : nat) (stacks : list (list Z))
    (next : Z) :
  Nivasch.invariant f k start n stacks next →
  ∃ s, stacks !! Z.to_nat (f next mod k) = Some s ∧
    ((f next ∈ s ∧ Nivasch.iteration f k stacks next = Ret (inl (f next))) ∨
     ((f next ∉ s) ∧
      ∃ s' r, s = s' ++ r ∧ Forall (λ x, f next < x) r ∧
        Nivasch.iteration f k stacks next =
          Ret (inr (<[Z.to_nat (f next mod k) := s' ++ [f next]]> stacks,
                    f next)) ∧
        Nivasch.invariant f k start (S n)
          (<[Z.to_nat (f next mod k) := s' ++ [f next]]> stacks) (f next))).
Proof.
  intros [Hk Hlen Hnext _ Hincr Hpart Hvis].
  pose proof (Z.mod_pos_bound (f next) k ltac:(lia)) as Hidx.
  set (nx := f next) in *. set (j := Z.to_nat (nx mod k)).
  destruct (lookup_lt_is_Some_2 stacks j) as [s Hs]; [unfold j; lia |].
  exists s. split; [done |].
  unfold Nivasch.iteration. fold nx.
  rewrite py_mod_Ret, bind_Ret by lia.
  rewrite py_index_Ret, bind_Ret by lia.
  rewrite (py_getitem_Ret _ _ s), bind_Ret by first [done | lia]. fold j.
  destruct (py_in nx s) eqn:Hin.
  { left. by apply py_in_true in Hin. }
  assert (Hnin : nx ∉ s).
  { intros Hx. apply py_in_true in Hx. congruence. }
  right. split; [done |].
  assert (Hpop : ∃ s' r, s = s' ++ r ∧ Forall (λ x, nx < x) r ∧
    (∀ top, last s' = Some top → top ≤ nx) ∧
    (if (length s =? 0)%nat
     then Ret (@inr Z _ (<[j := s ++ [nx]]> stacks, nx))
     else s' ← Nivasch.pop_greater (length s) s nx;
          Ret (inr (<[j := s' ++ [nx]]> stacks, nx)))
    = Ret (inr (<[j := s' ++ [nx]]> stacks, nx))).
  { destruct (Nat.eqb_spec (length s) 0) as [Hz | Hnz].
    - apply length_zero_iff_nil in Hz as ->. exists [], []. done.
    - destruct (pop_greater_total (length s) s nx) as (s' & r & -> & ? & ? & ?).
      { by intros ->. }
      { lia. }
      exists s', r. by rewrite bind_Ret. }
  destruct Hpop as (s' & r & -> & Hr & Htop & ->).
  exists s', r. split_and!; [done | done | done |].
  assert (Hsub : ∀ x, x ∈ s' → x ∈ s' ++ r).
  { intros x Hx. apply elem_of_app. by left. }
  assert (Hins : ∀ (i : nat) (s0 : list Z),
    <[j := s' ++ [nx]]> stacks !! i = Some s0 →
    (i = j ∧ s0 = s' ++ [nx]) ∨ (i ≠ j ∧ stacks !! i = Some s0)).
  { intros i s0 Hi.
    apply list_lookup_insert_Some in Hi as [(<- & <- & _) | [? ?]]; auto. }
  split.
  - done.
  - by rewrite length_insert.
  - subst nx. by rewrite Hnext.
  - exists (s' ++ [nx]). split.
    + apply list_lookup_insert_eq. by apply lookup_lt_Some in Hs.
    + apply elem_of_app. right. by apply list_elem_of_singleton.
  - intros i s0 Hi. apply Hins in Hi as [[-> ->] | [_ Hi]]; [| by eapply Hincr].
    apply increasing_snoc.
    + eapply increasing_prefix, Hincr, Hs.
    + intros top Hlast. specialize (Htop top Hlast).
      assert (top ≠ nx); [| lia].
      intros ->. apply Hnin, Hsub.
      apply last_Some in Hlast as [l ->].
      apply elem_of_app. right. by apply list_elem_of_singleton.
  - intros i s0 x Hi Hx. apply Hins in Hi as [[-> ->] | [_ Hi]];
      [| by eapply Hpart].
    apply elem_of_app in Hx as [Hx | Hx].
    + eapply Hpart; [exact Hs | by apply Hsub].
    + apply list_elem_of_singleton in Hx as ->. unfold j. lia.
  - intros i s0 x Hi Hx. apply Hins in Hi as [[-> ->] | [_ Hi]];
      [| by eapply visited_S, Hvis].
    apply elem_of_app in Hx as [Hx | Hx].
    + eapply visited_S, Hvis; [exact Hs | by apply Hsub].
    + apply list_elem_of_singleton in Hx as ->.
      exists (S n). split; [done |]. subst nx. by rewrite Hnext.
Qed.

Lemma reachable_invariant (k start : Z) (stacks : list (list Z)) (next : Z) :
  1 ≤ k → Nivasch.reachable f k start stacks next →
  ∃ n, Nivasch.invariant f k start n stacks next.
Proof.
  intros Hk Hreach.
  induction Hreach as [stacks Hinit | stacks next stacks' next' _ [n IH] Hit].
  - destruct (init_Ret k start Hk) as (stacks0 & Hinit0 & Hinv).
    exists 0%nat. congruence.
  - destruct (iteration_step _ _ _ _ _ IH)
      as (s & _ & [[_ Heq] | (_ & s' & r & _ & _ & Heq & Hinv)]);
      rewrite Heq in Hit; [discriminate |].
    injection Hit as <- <-. by exists (S n).
Qed.

End NivaschFacts.

(** ** Orbits in a finite domain *)

Section Orbits.

Variable f : Z → Z.

Lemma repeat_in_list (l : list Z) :
  ¬ NoDup l →
  ∃ (i j : nat) (x : Z), (i < j)%nat ∧ l !! i = Some x ∧ l !! j = Some x.
Proof.
  induction l as [|a l IH]; intros Hdup.
  - destruct Hdup. constructor.
  - destruct (decide (a ∈ l)) as [Hin | Hnin].
    + apply list_elem_of_lookup in Hin as [j Hj].
      exists 0%nat, (S j), a. split_and!; [lia | done | done].
    + destruct IH as (i & j & x & Hij & Hi & Hj).
      { intros Hnd. apply Hdup. by constructor. }
      exists (S i), (S j), x. split_and!; [lia | done | done].
Qed.

(** Pigeonhole: the first [length dom + 1] points of an orbit that stays
    in [dom] cannot all differ. *)
Lemma orbit_repeats (dom : list Z) (start : Z) :
  (∀ x, x ∈ dom → f x ∈ dom) → start ∈ dom →
  ∃ i j : nat, (i < j ≤ length dom)%nat ∧
               Nat.iter i f start = Nat.iter j f start.
Proof.
  intros Hclosed Hstart.
  set (orbit := (λ i, Nat.iter i f start) <$> seq 0 (S (length dom))).
  assert (Hdup : ¬ NoDup orbit).
  { intros Hnd.
    assert (Hlen : (length orbit ≤ length dom)%nat).
    { apply submseteq_length, NoDup_submseteq; [done |].
      intros x Hx. apply list_elem_of_fmap in Hx as (i & -> & _).
      by apply Nat.iter_ind. }
    unfold orbit in Hlen. rewrite length_fmap, length_seq in Hlen. lia. }
  destruct (repeat_in_list orbit Hdup) as (i & j & x & Hij & Hi & Hj).
  unfold orbit in Hi, Hj. rewrite list_lookup_fmap in Hi, Hj.
  destruct (seq 0 (S (length dom)) !! i) as [i'|] eqn:Hi'; [| done].
  destruct (seq 0 (S (length dom)) !! j) as [j'|] eqn:Hj'; [| done].
  apply lookup_seq in Hi' as [-> _]. apply lookup_seq in Hj' as [-> Hlt].
  simpl in Hi, Hj. exists i, j. split; [lia | congruence].
Qed.

Lemma iter_mod (n m : nat) (s : Z) :
  (0 < n)%nat → Nat.iter n f s = s →
  Nat.iter m f s = Nat.iter (m mod n) f s.
Proof.
  intros Hn Hper.
  transitivity (Nat.iter (m mod n + (m / n) * n) f s).
  - f_equal. pose proof (Nat.div_mod_eq m n). lia.
  - by rewrite Nat.iter_add, iter_period.
Qed.

Lemma argmin (g : nat → Z) (n : nat) :
  (0 < n)%nat → ∃ m0 : nat, (m0 < n)%nat ∧ ∀ m, (m < n)%nat → g m0 ≤ g m.
Proof.
  induction n as [|n IH]; [lia |]. intros _.
  destruct n as [|n].
  { exists 0%nat. split; [lia |]. intros m Hm.
    replace m with 0%nat by lia. lia. }
  destruct IH as (m0 & Hm0 & Hmin); [lia |].
  destruct (Z_le_gt_dec (g m0) (g (S n))) as [Hle | Hgt].
  - exists m0. split; [lia |]. intros m Hm.
    destruct (decide (m = S n)) as [-> | Hne]; [done |].
    apply Hmin. lia.
  - exists (S n). split; [lia |]. intros m Hm.
    destruct (decide (m = S n)) as [-> | Hne]; [lia |].
    specialize (Hmin m). lia.
Qed.

(** The orbit of [start] reaches, after [n0] steps, the least point [c] of
    its cycle; [d] is the length of the cycle. *)
Lemma cycle_minimum (dom : list Z) (start : Z) :
  (∀ x, x ∈ dom → f x ∈ dom) → start ∈ dom →
  ∃ (n0 d : nat) (c : Z),
    (1 ≤ d)%nat ∧ (n0 + d ≤ 2 * length dom)%nat ∧
    c = Nat.iter n0 f start ∧ Nat.iter d f c = c ∧
    ∀ m : nat, c ≤ Nat.iter m f c.
Proof.
  intros Hclosed Hstart.
  destruct (orbit_repeats dom start Hclosed Hstart) as (i & j & Hij & Heq).
  set (p := Nat.iter i f start). set (d := (j - i)%nat).
  assert (Hper : Nat.iter d f p = p).
  { unfold p, d. rewrite <- Nat.iter_add, Heq. f_equal. lia. }
  destruct (argmin (λ m, Nat.iter m f p) d) as (m0 & Hm0 & Hmin);
    [unfold d; lia |].
  exists (i + m0)%nat, d, (Nat.iter m0 f p).
  split_and!.
  - unfold d. lia.
  - unfold d. lia.
  - unfold p. rewrite <- Nat.iter_add. f_equal. lia.
  - rewrite <- Nat.iter_add. replace (d + m0)%nat with (m0 + d)%nat by lia.
    by rewrite Nat.iter_add, Hper.
  - intros m. rewrite <- Nat.iter_add.
    rewrite (iter_mod d (m + m0) p) by first [done | lia].
    apply Hmin. apply Nat.mod_upper_bound. lia.
Qed.

End Orbits.

(** ** The main loop of Nivasch's algorithm *)

Section NivaschLoop.

Variable f : Z → Z.

Lemma loop_mono (fuel fuel' : nat) (k : Z) (stacks : list (list Z))
    (next x : Z) :
  Nivasch.loop f fuel k stacks next = Ret x → (fuel ≤ fuel')%nat →
  Nivasch.loop f fuel' k stacks next = Ret x.
Proof.
  revert fuel' stacks next.
  induction fuel as [|fuel IH]; intros fuel' stacks next H Hle;
    [discriminate |].
  destruct fuel' as [|fuel']; [lia |]. cbn [Nivasch.loop] in *.
  destruct (Nivasch.iteration f k stacks next) as [[y | [st nx]] | |];
    simpl in *; try discriminate; [done |].
  apply IH; [done | lia].
Qed.

Lemma loop_no_raise (k start : Z) (n : nat) (stacks : list (list Z))
    (next : Z) (fuel : nat) (e : exn) :
  Nivasch.invariant f k start n stacks next →
  Nivasch.loop f fuel k stacks next ≠ Raise e.
Proof.
  revert n stacks next.
  induction fuel as [|fuel IH]; intros n stacks next Hinv; [discriminate |].
  cbn [Nivasch.loop].
  destruct (iteration_step f _ _ _ _ _ Hinv)
    as (s & _ & [[_ ->] | (_ & s' & r & _ & _ & -> & Hinv')]);
    rewrite bind_Ret; [discriminate | by eapply IH].
Qed.

Lemma loop_Ret_repeat (k start : Z) (n : nat) (stacks : list (list Z))
    (next : Z) (fuel : nat) (x : Z) :
  Nivasch.invariant f k start n stacks next →
  Nivasch.loop f fuel k stacks next = Ret x →
  ∃ i j : nat, (i < j)%nat ∧
               Nat.iter i f start = x ∧ Nat.iter j f start = x.
Proof.
  revert n stacks next.
  induction fuel as [|fuel IH]; intros n stacks next Hinv H;
    [discriminate |].
  cbn [Nivasch.loop] in H.
  destruct (iteration_step f _ _ _ _ _ Hinv)
    as (s & Hs & [[Hin Heq] | (_ & s' & r & _ & _ & Heq & Hinv')]);
    rewrite Heq, bind_Ret in H.
  - injection H as <-.
    destruct (Nivasch.inv_visited _ _ _ _ _ _ Hinv _ _ _ Hs Hin)
      as (i & Hi & Hx).
    exists i, (S n). split_and!; [lia | done |].
    simpl. by rewrite <- (Nivasch.inv_next _ _ _ _ _ _ Hinv).
  - by eapply IH.
Qed.

(** Running [m] rounds: either the loop has returned, or it is at the
    [m]-th point of the orbit with the invariant. *)
Lemma loop_run (k start : Z) (n : nat) (stacks : list (list Z)) (next : Z)
    (m : nat) :
  Nivasch.invariant f k start n stacks next →
  (∃ x, Nivasch.loop f m k stacks next = Ret x) ∨
  (∃ stacks',
     Nivasch.invariant f k start (n + m) stacks' (Nat.iter m f next) ∧
     ∀ fuel, Nivasch.loop f (m + fuel) k stacks next
             = Nivasch.loop f fuel k stacks' (Nat.iter m f next)).
Proof.
  revert n stacks next.
  induction m as [|m IH]; intros n stacks next Hinv.
  { right. exists stacks. rewrite Nat.add_0_r. done. }
  destruct (iteration_step f _ _ _ _ _ Hinv)
    as (s & _ & [[_ Heq] | (_ & s' & r & _ & _ & Heq & Hinv')]).
  - left. exists (f next). cbn [Nivasch.loop]. by rewrite Heq.
  - destruct (IH _ _ _ Hinv') as [[x Hx] | (stacks' & Hinv'' & Hrun)].
    + left. exists x. cbn [Nivasch.loop]. by rewrite Heq, bind_Ret.
    + right. exists stacks'. rewrite Nat.iter_succ_r. split.
      * by replace (n + S m)%nat with (S n + m)%nat by lia.
      * intros fuel. cbn [Nivasch.loop Nat.add].
        by rewrite Heq, bind_Ret.
Qed.

(** Once a point [c] sits on its stack and the orbit comes back to it
    through points that are not below it, the loop returns. *)
Lemma loop_finds (k start : Z) (n : nat) (stacks : list (list Z))
    (next c : Z) (d fuel : nat) :
  Nivasch.invariant f k start n stacks next →
  (∃ s, stacks !! Z.to_nat (c mod k) = Some s ∧ c ∈ s) →
  (∀ i : nat, c ≤ Nat.iter i f next) →
  Nat.iter d f next = c → (1 ≤ d ≤ fuel)%nat →
  ∃ x, Nivasch.loop f fuel k stacks next = Ret x.
Proof.
  revert n stacks next fuel.
  induction d as [|d IH]; intros n stacks next fuel Hinv Hc Hge Hd Hfuel;
    [lia |].
  destruct fuel as [|fuel]; [lia |]. cbn [Nivasch.loop].
  destruct Hc as (s & Hs & Hc).
  destruct (iteration_step f _ _ _ _ _ Hinv)
    as (s1 & Hs1 & [[Hin Heq] | (Hnin & s' & r & -> & Hr & Heq & Hinv')]);
    rewrite Heq, bind_Ret; [by eauto |].
  rewrite Nat.iter_succ_r in Hd.
  destruct d as [|d].
  { simpl in Hd. rewrite Hd in Hs1, Hnin. congruence. }
  apply (IH (S n) _ (f next) fuel); [done | | | done | lia].
  - destruct (decide (Z.to_nat (c mod k) = Z.to_nat (f next mod k)))
      as [Hsame | Hdiff].
    + rewrite Hsame in Hs. rewrite Hs1 in Hs. injection Hs as <-.
      exists (s' ++ [f next]). split.
      * rewrite Hsame. apply list_lookup_insert_eq.
        by apply lookup_lt_Some in Hs1.
      * apply elem_of_app in Hc as [Hc | Hc];
          [apply elem_of_app; by left |].
        rewrite Forall_forall in Hr. apply Hr in Hc.
        specialize (Hge 1%nat). simpl in Hge. lia.
    + exists s. split; [| done].
      by rewrite list_lookup_insert_ne.
  - intros i. rewrite <- Nat.iter_succ_r. apply Hge.
Qed.

End NivaschLoop.

Lemma py_index_empty (i : Z) : py_index 0 i = Raise IndexError.
Proof.
  unfold py_index. change (Z.of_nat 0) with 0. rewrite Z.add_0_r.
  replace (if i <? 0 then i else i) with i by (by destruct (i <? 0)).
  cbv zeta. destruct (Z.leb_spec 0 i), (Z.ltb_spec i 0); simpl; first [done | lia].
Qed.

Lemma init_Ret_inv (k start : Z) (stacks : list (list Z)) :
  Nivasch.init k start = Ret stacks → 1 ≤ k.
Proof.
  unfold Nivasch.init, Nivasch.new_stacks. intros H.
  apply bind_Ret_inv in H as (idx & Hidx & H).
  apply bind_Ret_inv in H as (j & Hj & _).
  apply py_mod_Ret_inv in Hidx as [Hk _].
  unfold py_index in Hj. rewrite length_replicate in Hj.
  destruct (_ && _) eqn:Hb in Hj; [| discriminate].
  apply andb_prop in Hb as [H1 H2].
  apply Z.leb_le in H1. apply Z.ltb_lt in H2.
  destruct (idx <? 0); lia.
Qed.

(** C2.  A value returned by [find_cycle f k start] lies on the cycle of the
    orbit of [start]: it is the point reached after [i] steps and again after
    [j > i] steps. *)
Theorem find_cycle_on_cycle (f : Z → Z) (fuel : nat) (k start x : Z) :
  Nivasch.find_cycle f fuel k start = Ret x →
  ∃ i j : nat, (i < j)%nat ∧
               Nat.iter i f start = x ∧ Nat.iter j f start = x.
Proof.
  unfold Nivasch.find_cycle. intros H.
  apply bind_Ret_inv in H as (stacks & Hinit & Hloop).
  pose proof (init_Ret_inv _ _ _ Hinit) as Hk.
  destruct (init_Ret f k start Hk) as (stacks0 & Hinit0 & Hinv).
  assert (stacks0 = stacks) as -> by congruence.
  by eapply loop_Ret_repeat.
Qed.

(** On [rho] with one stack, from 0, the cycle point 2 is returned: it is
    reached after two steps and again after five. *)
Lemma find_cycle_on_cycle_witness :
  Nivasch.find_cycle rho 10 1 0 = Ret 2 ∧
  ∃ i j : nat, (i < j)%nat ∧ Nat.iter i rho 0 = 2 ∧ Nat.iter j rho 0 = 2.
Proof.
  split; [reflexivity |].
  apply (find_cycle_on_cycle rho 10 1 0 2). reflexivity.
Defined.

(** C7, as stated, fails: on [three_cycle] with one stack, from 0, the stack
    holds 0 below 1 after the first round. *)
Lemma stacks_decreasing_counterexample :
  1 ≤ 1 ∧ Nivasch.reachable three_cycle 1 0 [[0; 1]] 1 ∧
  [[0; 1]] !! 0%nat = Some [0; 1] ∧ ¬ Nivasch.strictly_decreasing [0; 1].
Proof.
  split_and!; [lia | | done |].
  - apply (Nivasch.reach_iteration three_cycle 1 0 [[0]] 0); [| reflexivity].
    by apply Nivasch.reach_init.
  - intros Hdec. specialize (Hdec 0%nat 1%nat 0 1 eq_refl eq_refl). lia.
Qed.

(** Popping entries off the top of a stack leaves a prefix of it. *)
Lemma popped_prefix (m : nat) (s : list Z) :
  ∃ r, s = Nat.iter m (@removelast Z) s ++ r.
Proof.
  induction m as [|m [r IH]]; [exists []; by rewrite app_nil_r |].
  simpl. destruct (Nat.iter m (@removelast Z) s) as [|a l] eqn:Hl.
  - by exists r.
  - assert (Hne : a :: l ≠ []) by done.
    exists ([List.last (a :: l) 0] ++ r). rewrite app_assoc.
    by rewrite <- (app_removelast_last 0 Hne).
Qed.

(** C7, amended.  At every head of the main loop of [find_cycle f k start]
    with [k >= 1], and after any number [m] of pops from there, each stack
    is strictly increasing from bottom to top and every point stored in
    stack [j] is a point of the orbit of [start] with [point mod k = j]. *)
Theorem stacks_increasing (f : Z → Z) (k start : Z)
    (stacks : list (list Z)) (next : Z) (j : nat) (s : list Z) (m : nat) :
  1 ≤ k → Nivasch.reachable f k start stacks next → stacks !! j = Some s →
  Nivasch.strictly_increasing (Nat.iter m (@removelast Z) s) ∧
  ∀ x, x ∈ Nat.iter m (@removelast Z) s →
       x mod k = Z.of_nat j ∧ ∃ i : nat, x = Nat.iter i f start.
Proof.
  intros Hk Hreach Hs.
  destruct (reachable_invariant f k start stacks next Hk Hreach)
    as [n [_ _ _ _ Hincr Hpart Hvis]].
  destruct (popped_prefix m s) as [r Hr].
  split.
  - apply (increasing_prefix _ r). rewrite <- Hr. by eapply Hincr.
  - intros x Hx.
    assert (Hin : x ∈ s) by (rewrite Hr; apply elem_of_app; by left).
    split; [by eapply Hpart |].
    destruct (Hvis j s x Hs Hin) as (i & _ & ->). by exists i.
Qed.

Lemma stacks_increasing_witness :
  Nivasch.strictly_increasing [0; 1] ∧
  ∀ x, x ∈ [0; 1] →
       x mod 1 = Z.of_nat 0 ∧ ∃ i : nat, x = Nat.iter i three_cycle 0.
Proof.
  apply (stacks_increasing three_cycle 1 0 [[0; 1]] 1 0 [0; 1] 0);
    [lia | | reflexivity].
  apply (Nivasch.reach_iteration three_cycle 1 0 [[0]] 0); [| reflexivity].
  apply Nivasch.reach_init. reflexivity.
Defined.

(** C9.  On a finite domain [dom] closed under [f], with [k >= 1] and
    [start] in [dom], [find_cycle f k start] returns a value, after at most
    [2 * length dom] rounds of its main loop. *)
Theorem find_cycle_terminates (f : Z → Z) (dom : list Z) (k start : Z) :
  1 ≤ k → (∀ x, x ∈ dom → f x ∈ dom) → start ∈ dom →
  ∃ x, ∀ fuel : nat, (2 * length dom ≤ fuel)%nat →
                     Nivasch.find_cycle f fuel k start = Ret x.
Proof.
  intros Hk Hclosed Hstart.
  destruct (init_Ret f k start Hk) as (stacks & Hinit & Hinv).
  destruct (cycle_minimum f dom start Hclosed Hstart)
    as (n0 & d & c & Hd & Hbound & Hc & Hper & Hmin).
  assert (Hret : ∃ x, Nivasch.loop f (n0 + d) k stacks start = Ret x).
  { destruct (loop_run f k start 0 stacks start n0 Hinv)
      as [[x Hx] | (stacks' & Hinv' & Hrun)].
    - exists x. apply (loop_mono f n0); [done | lia].
    - rewrite Hrun. rewrite <- Hc in *.
      apply (loop_finds f k start (0 + n0) stacks' c c d d);
        [done | | done | done | lia].
      apply (Nivasch.inv_top _ _ _ _ _ _ Hinv'). }
  destruct Hret as [x Hx]. exists x. intros fuel Hfuel.
  unfold Nivasch.find_cycle. rewrite Hinit, bind_Ret.
  apply (loop_mono f (n0 + d)); [done | lia].
Qed.

Lemma find_cycle_terminates_witness :
  ∃ x, ∀ fuel : nat, (2 * length [0; 1; 2; 3; 4] ≤ fuel)%nat →
                     Nivasch.find_cycle rho fuel 3 0 = Ret x.
Proof.
  apply (find_cycle_terminates rho [0; 1; 2; 3; 4] 3 0); [lia | |].
  - apply Forall_forall. by vm_compute; repeat constructor.
  - by apply list_elem_of_here.
Defined.

(** C10.  With [k >= 1] no call of [find_cycle] raises and the index
    [f next mod k] computed at a loop head lies within the list of stacks;
    with [k = 0] the call raises [ZeroDivisionError] before the loop is
    entered; with [k < 0] it raises [IndexError] there. *)
Theorem find_cycle_stack_index (f : Z → Z) (k start : Z) :
  (1 ≤ k →
   (∀ (fuel : nat) (e : exn), Nivasch.find_cycle f fuel k start ≠ Raise e) ∧
   (∀ stacks next, Nivasch.reachable f k start stacks next →
      length stacks = Z.to_nat k ∧
      0 ≤ f next mod k < Z.of_nat (length stacks))) ∧
  (k = 0 →
   py_mod start k = Raise ZeroDivisionError ∧
   Nivasch.init k start = Raise ZeroDivisionError ∧
   ∀ fuel : nat, Nivasch.find_cycle f fuel k start = Raise ZeroDivisionError) ∧
  (k < 0 →
   ∀ fuel : nat, Nivasch.find_cycle f fuel k start = Raise IndexError).
Proof.
  split_and!.
  - intros Hk. split.
    + intros fuel e. unfold Nivasch.find_cycle.
      destruct (init_Ret f k start Hk) as (stacks & -> & Hinv).
      rewrite bind_Ret. by eapply loop_no_raise.
    + intros stacks next Hreach.
      destruct (reachable_invariant f k start stacks next Hk Hreach)
        as [n [_ Hlen _ _ _ _ _]].
      split; [done |].
      pose proof (Z.mod_pos_bound (f next) k ltac:(lia)). lia.
  - intros ->. done.
  - intros Hk fuel. unfold Nivasch.find_cycle, Nivasch.init, Nivasch.new_stacks.
    rewrite py_mod_Ret, bind_Ret by lia.
    replace (Z.to_nat k) with 0%nat by lia. simpl replicate. simpl length.
    by rewrite py_index_empty.
Qed.

Lemma find_cycle_stack_index_witness :
  (∀ (fuel : nat) (e : exn), Nivasch.find_cycle rho fuel 3 0 ≠ Raise e) ∧
  Nivasch.find_cycle rho 10 0 0 = Raise ZeroDivisionError ∧
  Nivasch.find_cycle rho 10 (-2) 0 = Raise IndexError.
Proof.
  split_and!.
  - apply (find_cycle_stack_index rho 3 0). lia.
  - apply (find_cycle_stack_index rho 0 0). lia.
  - apply (find_cycle_stack_index rho (-2) 0). lia.
Defined.

(** ** Hellman tables *)

Section HellmanTables.

Lemma M_bind_eq {A B : Type} (m : Hellman.M A) (k : A → Hellman.M B)
    (tables : list (gmap Z (list Z))) :
  (m ≫= k) tables =
  match m tables with
  | (Ret a, tables') => k a tables'
  | (Raise e, tables') => (Raise e, tables')
  | (OutOfFuel, tables') => (OutOfFuel, tables')
  end.
Proof. reflexivity. Qed.

Lemma table_extends_refl (d : gmap Z (list Z)) : Hellman.table_extends d d.
Proof. intros key. destruct (d !! key); auto. Qed.

Lemma table_extends_trans (d1 d2 d3 : gmap Z (list Z)) :
  Hellman.table_extends d1 d2 → Hellman.table_extends d2 d3 →
  Hellman.table_extends d1 d3.
Proof.
  intros H12 H23 key. specialize (H12 key). specialize (H23 key).
  destruct (d1 !! key) as [l|].
  - by rewrite H12 in H23.
  - destruct H12 as [H | H]; rewrite H in H23; [done | by right].
Qed.

Lemma tables_extend_refl (tables : list (gmap Z (list Z))) :
  Hellman.tables_extend tables tables.
Proof.
  induction tables; constructor; [apply table_extends_refl | done].
Qed.

Lemma tables_extend_trans (ts1 ts2 ts3 : list (gmap Z (list Z))) :
  Hellman.tables_extend ts1 ts2 → Hellman.tables_extend ts2 ts3 →
  Hellman.tables_extend ts1 ts3.
Proof.
  intros H12. revert ts3.
  induction H12 as [|d1 d2 ts1 ts2 Hd _ IH]; intros ts3 H23;
    inversion H23; subst; constructor.
  - by eapply table_extends_trans.
  - by apply IH.
Qed.

Lemma dd_getitem_extends (d : gmap Z (list Z)) (key : Z) :
  Hellman.table_extends d (Hellman.dd_getitem d key).2.
Proof.
  unfold Hellman.dd_getitem.
  destruct (d !! key) eqn:Hkey; simpl; [apply table_extends_refl |].
  intros key'. destruct (decide (key = key')) as [<- | Hne].
  - rewrite Hkey, lookup_insert_eq. by right.
  - rewrite lookup_insert_ne by done. destruct (d !! key'); auto.
Qed.

Lemma dd_getitem_value (d : gmap Z (list Z)) (key : Z) :
  (Hellman.dd_getitem d key).1 = default [] (d !! key).
Proof. unfold Hellman.dd_getitem. by destruct (d !! key). Qed.

(** A start point read through a table that extends [d0] is a start point
    that [d0] records under the same end point. *)
Lemma table_extends_read (d0 d : gmap Z (list Z)) (key a : Z) :
  Hellman.table_extends d0 d → a ∈ default [] (d !! key) →
  d0 !! key = Some (default [] (d !! key)).
Proof.
  intros Hext Ha. specialize (Hext key).
  destruct (d0 !! key) as [l|]; [by rewrite Hext |].
  destruct Hext as [H | H]; rewrite H in Ha; simpl in Ha;
    by apply not_elem_of_nil in Ha.
Qed.

Lemma tables_getitem_spec (i : nat) (key : Z)
    (tables : list (gmap Z (list Z))) :
  Hellman.tables_extend tables
    (Hellman.tables_getitem (Z.of_nat i) key tables).2 ∧
  (∀ l, (Hellman.tables_getitem (Z.of_nat i) key tables).1 = Ret l →
        ∃ d, tables !! i = Some d ∧ l = default [] (d !! key)) ∧
  ((i < length tables)%nat →
   ∃ l, (Hellman.tables_getitem (Z.of_nat i) key tables).1 = Ret l).
Proof.
  unfold Hellman.tables_getitem.
  destruct (decide (i < length tables)%nat) as [Hlt | Hge].
  - rewrite py_index_Ret by lia. rewrite Nat2Z.id.
    destruct (lookup_lt_is_Some_2 tables i Hlt) as [d Hd]. rewrite Hd.
    pose proof (dd_getitem_extends d key) as Hext.
    pose proof (dd_getitem_value d key) as Hval.
    destruct (Hellman.dd_getitem d key) as [l d']. simpl in *.
    split_and!.
    + rewrite <- (list_insert_id tables i d Hd) at 1.
      apply Forall2_insert; [apply tables_extend_refl | done].
    + intros l0 [= <-]. eauto.
    + eauto.
  - assert (Hidx : py_index (length tables) (Z.of_nat i) = Raise IndexError).
    { unfold py_index.
      destruct (Z.ltb_spec (Z.of_nat i) 0); [lia |].
      destruct (Z.leb_spec 0 (Z.of_nat i)); [| lia].
      destruct (Z.ltb_spec (Z.of_nat i) (Z.of_nat (length tables)));
        [lia | done]. }
    rewrite Hidx. simpl.
    split_and!; [apply tables_extend_refl | discriminate | done].
Qed.

Variables (t y : Z) (f_tag : ModifiedPRF.t).

Lemma calc_total (x : Z) :
  PRF.domain (ModifiedPRF.f f_tag) ≠ 0 →
  ∃ v, ModifiedPRF.calc f_tag x = Ret v.
Proof.
  intros Hdom. unfold ModifiedPRF.calc.
  destruct (_ <? _); [rewrite py_mod_Ret by done; by eauto |].
  destruct (_ >? _); [rewrite py_mod_Ret by done; by eauto | by eauto].
Qed.

Lemma step_total (i a : Z) :
  PRF.domain (ModifiedPRF.f f_tag) ≠ 0 →
  ∃ v, Hellman.step f_tag i a = Ret v.
Proof.
  intros Hdom. unfold Hellman.step.
  rewrite py_mod_Ret, bind_Ret by done. by apply calc_total.
Qed.

Lemma replay_spec (i : Z) (n : nat) (a : Z) :
  (∀ x, Hellman.replay y f_tag i n a = Ret (Some x) →
        ∃ (s : nat) (a_s : Z),
          (s < n)%nat ∧ Hellman.chain f_tag i s a = Ret a_s ∧
          py_mod (a_s + i) (PRF.domain (ModifiedPRF.f f_tag)) = Ret x ∧
          ModifiedPRF.calc f_tag x = Ret y) ∧
  (PRF.domain (ModifiedPRF.f f_tag) ≠ 0 →
   ∃ r, Hellman.replay y f_tag i n a = Ret r).
Proof.
  revert a. induction n as [|n IH]; intros a; cbn [Hellman.replay].
  { split; [discriminate | by eauto]. }
  split.
  - intros x H. apply bind_Ret_inv in H as (v & Hv & H).
    destruct (Z.eqb_spec v y) as [-> | Hne].
    + apply bind_Ret_inv in H as (x0 & Hx0 & [= <-]).
      exists 0%nat, a. split_and!; [lia | done | done |].
      unfold Hellman.step in Hv. by rewrite Hx0, bind_Ret in Hv.
    + apply bind_Ret_inv in H as (a' & Ha' & H).
      apply IH in H as (s & a_s & Hs & Hchain & Hx & Hy).
      exists (S s), a_s. split_and!; [lia | | done | done].
      cbn [Hellman.chain]. by rewrite Ha', bind_Ret.
  - intros Hdom. destruct (step_total i a Hdom) as [v ->].
    rewrite !bind_Ret. destruct (v =? y).
    + rewrite py_mod_Ret by done. by eauto.
    + by apply IH.
Qed.

Lemma replay_all_spec (i : Z) (starts : list Z) :
  (∀ x, Hellman.replay_all t y f_tag i starts = Ret (Some x) →
        ∃ a, a ∈ starts ∧ Hellman.confirmed t y f_tag i a x) ∧
  (PRF.domain (ModifiedPRF.f f_tag) ≠ 0 →
   ∃ r, Hellman.replay_all t y f_tag i starts = Ret r).
Proof.
  induction starts as [|a starts [IHs IHt]]; cbn [Hellman.replay_all].
  { split; [discriminate | by eauto]. }
  destruct (replay_spec i (Z.to_nat t) a) as [Hs Ht].
  split.
  - intros x H. apply bind_Ret_inv in H as ([x0|] & Hr & H).
    + injection H as <-. exists a. split; [apply list_elem_of_here |].
      destruct (Hs _ Hr) as (s & a_s & ?). by exists s, a_s.
    + destruct (IHs _ H) as (a' & Ha' & Hconf).
      exists a'. split; [by apply list_elem_of_further | done].
  - intros Hdom. destruct (Ht Hdom) as [[x0|] ->]; rewrite bind_Ret;
      [by eauto | by apply IHt].
Qed.

(** The walk in table [i], from tables [ts] that extend the tables [ts0]
    of the call. *)
Lemma walk_spec (ts0 : list (gmap Z (list Z))) (i n : nat) (curr : Z)
    (ts : list (gmap Z (list Z))) :
  Hellman.tables_extend ts0 ts →
  Hellman.tables_extend ts0
    (Hellman.walk t y f_tag (Z.of_nat i) n curr ts).2 ∧
  (∀ x, (Hellman.walk t y f_tag (Z.of_nat i) n curr ts).1 = Ret (Some x) →
        Hellman.hit_from t y f_tag ts0 i n curr x) ∧
  (PRF.domain (ModifiedPRF.f f_tag) ≠ 0 → (i < length ts0)%nat →
   ∃ r, (Hellman.walk t y f_tag (Z.of_nat i) n curr ts).1 = Ret r).
Proof.
  revert curr ts. induction n as [|n IH]; intros curr ts Hext;
    cbn [Hellman.walk].
  { split_and!; [done | discriminate | by eauto]. }
(* what follows the lookups when nothing was returned *)
assert (Hcont : ∀ ts2, Hellman.tables_extend ts0 ts2 →
  let res := (Hellman.lift (Hellman.step f_tag (Z.of_nat i) curr)
              ≫= λ curr', Hellman.walk t y f_tag (Z.of_nat i) n curr')
               ts2 in
  Hellman.tables_extend ts0 res.2 ∧
  (∀ x, res.1 = Ret (Some x) →
        Hellman.hit_from t y f_tag ts0 i (S n) curr x) ∧
  (PRF.domain (ModifiedPRF.f f_tag) ≠ 0 → (i < length ts0)%nat →
   ∃ r, res.1 = Ret r)).
{ intros ts2 Hext2. rewrite M_bind_eq. unfold Hellman.lift.
  destruct (Hellman.step f_tag (Z.of_nat i) curr) as [curr'| |] eqn:Hstep;
    simpl.
  - destruct (IH curr' ts2 Hext2) as (Hext' & Hhit & Htot).
    split_and!; [done | | done].
    intros x Hx.
    destruct (Hhit x Hx) as (d & j & e & l & a & Hd & Hj & Hrest).
    exists d, (S j), e, l, a. cbn [Hellman.chain]. rewrite Hstep, bind_Ret.
    split_and!; [done | lia | apply Hrest ..].
  - split_and!; [done | discriminate |].
    intros Hdom _. destruct (step_total (Z.of_nat i) curr Hdom).
    congruence.
  - split_and!; [done | discriminate |].
    intros Hdom _. destruct (step_total (Z.of_nat i) curr Hdom).
    congruence. }
rewrite M_bind_eq.
destruct (tables_getitem_spec i curr ts) as (Hext1 & _ & Htot1).
destruct (Hellman.tables_getitem (Z.of_nat i) curr ts) as [o1 ts1].
simpl in Hext1, Htot1.
assert (Hext01 : Hellman.tables_extend ts0 ts1)
  by by eapply tables_extend_trans.
assert (Hlen : length ts0 = length ts) by by eapply Forall2_length.
destruct o1 as [l | e |]; simpl.
2, 3: split_and!; [done | discriminate |];
  intros _ Hi; destruct Htot1 as [? ?]; [lia | discriminate].
rewrite M_bind_eq.
destruct (0 <? length l)%nat; [| by apply Hcont].
rewrite M_bind_eq.
destruct (tables_getitem_spec i curr ts1) as (Hext2 & Hret2 & Htot2).
destruct (Hellman.tables_getitem (Z.of_nat i) curr ts1) as [o2 ts2].
simpl in Hext2, Hret2, Htot2.
assert (Hext02 : Hellman.tables_extend ts0 ts2)
  by by eapply tables_extend_trans.
assert (Hlen1 : length ts0 = length ts1) by by eapply Forall2_length.
destruct o2 as [starts | e |]; simpl.
2, 3: split_and!; [done | discriminate |];
  intros _ Hi; destruct Htot2 as [? ?]; [lia | discriminate].
destruct (Hret2 starts eq_refl) as (d1 & Hd1 & Hstarts).
destruct (replay_all_spec (Z.of_nat i) starts) as [Hs Ht].
unfold Hellman.lift.
destruct (Hellman.replay_all t y f_tag (Z.of_nat i) starts)
  as [[x|] | e |]; simpl.
- split_and!; [done | | by eauto].
  intros x' [= <-]. destruct (Hs x eq_refl) as (a & Ha & Hconf).
  destruct (Forall2_lookup_r _ _ _ _ _ Hext01 Hd1) as (d0 & Hd0 & Hd01).
  exists d0, 0%nat, curr, starts, a.
  split_and!; [done | lia | done | | done | done].
  rewrite Hstarts in Ha |- *. by eapply table_extends_read.
- by apply Hcont.
- split_and!; [done | discriminate |].
  intros Hdom _. destruct (Ht Hdom). discriminate.
- split_and!; [done | discriminate |].
  intros Hdom _. destruct (Ht Hdom). discriminate.
Qed.

Lemma each_table_spec (ts0 : list (gmap Z (list Z))) (indices : list nat)
    (ts : list (gmap Z (list Z))) :
  Hellman.tables_extend ts0 ts →
  (∀ i, i ∈ indices → (i < length ts0)%nat) →
  Hellman.tables_extend ts0 (Hellman.each_table t y f_tag indices ts).2 ∧
  (∀ x, (Hellman.each_table t y f_tag indices ts).1 = Ret (Some x) →
        ∃ i, i ∈ indices ∧ Hellman.hit t y f_tag ts0 i x) ∧
  (PRF.domain (ModifiedPRF.f f_tag) ≠ 0 →
   ∃ r, (Hellman.each_table t y f_tag indices ts).1 = Ret r).
Proof.
  revert ts. induction indices as [|i indices IH]; intros ts Hext Hidx;
    cbn [Hellman.each_table].
  { split_and!; [done | discriminate | by eauto]. }
  rewrite M_bind_eq.
  destruct (walk_spec ts0 i (Z.to_nat t) y ts Hext) as (Hext1 & Hhit & Htot).
  destruct (Hellman.walk t y f_tag (Z.of_nat i) (Z.to_nat t) y ts)
    as [[[x|] | e |] ts1]; simpl in *.
  - split_and!; [done | | by eauto].
    intros x' [= <-]. exists i. split; [apply list_elem_of_here |].
    by apply Hhit.
  - destruct (IH ts1 Hext1) as (Hext2 & Hhit2 & Htot2).
    { intros i' Hi'. apply Hidx. by apply list_elem_of_further. }
    split_and!; [done | | done].
    intros x Hx. destruct (Hhit2 x Hx) as (i' & Hi' & Hh).
    exists i'. split; [by apply list_elem_of_further | done].
  - split_and!; [done | discriminate |].
    intros Hdom. destruct Htot as [? ?];
      [done | apply Hidx, list_elem_of_here | discriminate].
  - split_and!; [done | discriminate |].
    intros Hdom. destruct Htot as [? ?];
      [done | apply Hidx, list_elem_of_here | discriminate].
Qed.

Lemma hellman_online_spec (tables : list (gmap Z (list Z))) :
  Hellman.tables_extend tables (Hellman.hellman_online tables t y f_tag).2 ∧
  (∀ x, (Hellman.hellman_online tables t y f_tag).1 = Ret (Some x) →
        ∃ i, Hellman.hit t y f_tag tables i x) ∧
  (PRF.domain (ModifiedPRF.f f_tag) ≠ 0 →
   ∃ r, (Hellman.hellman_online tables t y f_tag).1 = Ret r).
Proof.
  unfold Hellman.hellman_online.
  destruct (each_table_spec tables (seq 0 (length tables)) tables)
    as (Hext & Hhit & Htot).
  - apply tables_extend_refl.
  - intros i Hi. apply elem_of_seq in Hi. lia.
  - split_and!; [done | | done].
    intros x Hx. destruct (Hhit x Hx) as (i & _ & Hh). by exists i.
Qed.

End HellmanTables.

(** C3, as stated, fails: with [empty_prf], whose domain size is 0, no
    replayed chain confirms a preimage of 5 in the empty table, and the call
    raises [ZeroDivisionError] at [(curr + i) % f_tag.f.domain] instead of
    returning [None]. *)
Lemma hellman_online_none_counterexample :
  (PRF.domain empty_prf ≤ PRF.rang empty_prf ^ 2 ∧
   PRF.rang empty_prf ≤ PRF.domain empty_prf ^ 2) ∧
  (∀ i x, ¬ Hellman.hit 1 5 {| ModifiedPRF.f := empty_prf |} [∅] i x) ∧
  (Hellman.hellman_online [∅] 1 5 {| ModifiedPRF.f := empty_prf |}).1
  = Raise ZeroDivisionError ∧
  (Hellman.hellman_online [∅] 1 5 {| ModifiedPRF.f := empty_prf |}).1
  ≠ Ret None.
Proof.
  split_and!; [done | done | | reflexivity | discriminate].
  intros i x (d & j & e & l & a & Hd & _ & _ & Hl & _).
  destruct i as [|i]; simpl in Hd; [| done].
  injection Hd as <-. by rewrite lookup_empty in Hl.
Qed.

(** C3, amended.  A value [x] that [hellman_online] returns is a confirmed
    preimage of [y]: [ModifiedPRF.calc] sends it to [y].  When the published
    domain size is not 0 the call raises nothing, and it returns [None]
    when no replayed chain confirms a preimage. *)
Theorem hellman_online_sound (tables : list (gmap Z (list Z))) (t y : Z)
    (f_tag : ModifiedPRF.t) :
  (∀ x, (Hellman.hellman_online tables t y f_tag).1 = Ret (Some x) →
        ModifiedPRF.calc f_tag x = Ret y) ∧
  (PRF.domain (ModifiedPRF.f f_tag) ≠ 0 →
   (∃ r, (Hellman.hellman_online tables t y f_tag).1 = Ret r) ∧
   ((∀ i x, ¬ Hellman.hit t y f_tag tables i x) →
    (Hellman.hellman_online tables t y f_tag).1 = Ret None)).
Proof.
  destruct (hellman_online_spec t y f_tag tables) as (_ & Hhit & Htot).
  split.
  - intros x Hx. destruct (Hhit x Hx) as (i & Hi).
    destruct Hi as (d & j & e & l & a & _ & _ & _ & _ & _ & Hconf).
    by destruct Hconf as (s & a_s & _ & _ & _ & Hy).
  - intros Hdom. split; [by apply Htot |].
    intros Hnone. destruct (Htot Hdom) as [[x|] Hr]; [| done].
    destruct (Hhit x Hr) as (i & Hi). by destruct (Hnone i x).
Qed.

(** The chain 3 -> 4 -> 5 of the successor map ends in 5: the preimage 4 of 5
    is found; from an empty table nothing is found. *)
Lemma hellman_online_sound_witness :
  ((Hellman.hellman_online [{[5 := [3]]}] 3 5
      {| ModifiedPRF.f := successor_prf |}).1 = Ret (Some 4) ∧
   ModifiedPRF.calc {| ModifiedPRF.f := successor_prf |} 4 = Ret 5) ∧
  (Hellman.hellman_online [∅] 2 5 {| ModifiedPRF.f := identity_prf |}).1
  = Ret None.
Proof.
  split; [split; [reflexivity |] |].
  - apply (proj1 (hellman_online_sound [{[5 := [3]]}] 3 5
                    {| ModifiedPRF.f := successor_prf |}) 4).
    reflexivity.
  - apply (proj2 (hellman_online_sound [∅] 2 5
                    {| ModifiedPRF.f := identity_prf |})); [done |].
    intros i x (d & j & e & l & a & Hd & _ & _ & Hl & _).
    destruct i as [|i]; simpl in Hd; [| done].
    injection Hd as <-. by rewrite lookup_empty in Hl.
Defined.

(** C4.  In each of the three regimes the adapted map at [x] is the oracle at
    [recover_x x]; so [recover_x] turns a preimage of [y] under
    [ModifiedPRF.calc] into a preimage of [y] under the oracle. *)
Theorem recover_x_round_trip (self : ModifiedPRF.t) (x : Z) :
  ModifiedPRF.calc self x =
    (x' ← ModifiedPRF.recover_x self x;
     Ret (PRF.calc (ModifiedPRF.f self) x')) ∧
  ∀ y, ModifiedPRF.calc self x = Ret y →
       ∃ x', ModifiedPRF.recover_x self x = Ret x' ∧
             PRF.calc (ModifiedPRF.f self) x' = y.
Proof.
  assert (Heq : ModifiedPRF.calc self x =
    (x' ← ModifiedPRF.recover_x self x;
     Ret (PRF.calc (ModifiedPRF.f self) x'))).
  { unfold ModifiedPRF.calc, ModifiedPRF.recover_x.
    destruct (_ <? _); [done |]. destruct (_ >? _); [| done].
    by destruct (py_mod _ _). }
  split; [done |].
  intros y Hy. rewrite Heq in Hy.
  apply bind_Ret_inv in Hy as (x' & Hx' & [= <-]). by exists x'.
Qed.

(** One point in each regime: domain < range, domain > range and
    domain = range. *)
Lemma recover_x_round_trip_witness :
  (∃ x', ModifiedPRF.recover_x {| ModifiedPRF.f := expanding_prf |} 6
         = Ret x' ∧ PRF.calc expanding_prf x' = 6) ∧
  (∃ x', ModifiedPRF.recover_x {| ModifiedPRF.f := compressing_prf |} 1
         = Ret x' ∧ PRF.calc compressing_prf x' = 1) ∧
  (∃ x', ModifiedPRF.recover_x {| ModifiedPRF.f := identity_prf |} 7
         = Ret x' ∧ PRF.calc identity_prf x' = 7).
Proof.
  split_and!.
  - apply (proj2 (recover_x_round_trip
                    {| ModifiedPRF.f := expanding_prf |} 6) 6).
    reflexivity.
  - apply (proj2 (recover_x_round_trip
                    {| ModifiedPRF.f := compressing_prf |} 1) 1).
    reflexivity.
  - apply (proj2 (recover_x_round_trip
                    {| ModifiedPRF.f := identity_prf |} 7) 7).
    reflexivity.
Defined.

(** C6, as stated, fails: looking 5 up in an empty table inserts it, so the
    table has the key 5 after the call and did not have it before. *)
Lemma tables_unchanged_counterexample :
  (Hellman.hellman_online [∅] 1 5 {| ModifiedPRF.f := identity_prf |}).2
  = [{[5 := []]}] ∧
  ({[5 := []]} : gmap Z (list Z)) !! 5 = Some [] ∧
  (∅ : gmap Z (list Z)) !! 5 = None.
Proof. split_and!; reflexivity. Qed.

(** C6, amended.  A call of [hellman_online] keeps the number of tables and
    every list of start points recorded under an end point, in its order;
    the only change it makes to a table is to bind end points that the table
    lacked to the empty list. *)
Theorem hellman_online_keeps_entries (tables : list (gmap Z (list Z)))
    (t y : Z) (f_tag : ModifiedPRF.t) (i : nat) (d : gmap Z (list Z)) :
  tables !! i = Some d →
  length (Hellman.hellman_online tables t y f_tag).2 = length tables ∧
  ∃ d', (Hellman.hellman_online tables t y f_tag).2 !! i = Some d' ∧
        ∀ key : Z,
          (∀ l, d !! key = Some l → d' !! key = Some l) ∧
          (d !! key = None → d' !! key = None ∨ d' !! key = Some []).
Proof.
  intros Hd.
  destruct (hellman_online_spec t y f_tag tables) as (Hext & _ & _).
  split; [symmetry; by eapply Forall2_length |].
  destruct (Forall2_lookup_l _ _ _ _ _ Hext Hd) as (d' & Hd' & Hdd').
  exists d'. split; [done |].
  intros key. specialize (Hdd' key).
  destruct (d !! key) as [l0|]; split; try done.
  by intros l [= <-].
Qed.

Lemma hellman_online_keeps_entries_witness :
  length (Hellman.hellman_online [{[5 := [3]]}] 3 7
            {| ModifiedPRF.f := successor_prf |}).2
  = length [({[5 := [3]]} : gmap Z (list Z))] ∧
  ∃ d', (Hellman.hellman_online [{[5 := [3]]}] 3 7
           {| ModifiedPRF.f := successor_prf |}).2 !! 0%nat = Some d' ∧
        ∀ key : Z,
          (∀ l, ({[5 := [3]]} : gmap Z (list Z)) !! key = Some l →
                d' !! key = Some l) ∧
          (({[5 := [3]]} : gmap Z (list Z)) !! key = None →
           d' !! key = None ∨ d' !! key = Some []).
Proof.
  apply (hellman_online_keeps_entries [{[5 := [3]]}] 3 7
           {| ModifiedPRF.f := successor_prf |} 0 {[5 := [3]]}).
  reflexivity.
Defined.

(** C8, as stated, fails: [oversized_prf] has a domain larger than the square
    of its range, and the adapter is built around it all the same. *)
Lemma init_validates_counterexample :
  ¬ (PRF.domain oversized_prf ≤ PRF.rang oversized_prf ^ 2 ∧
     PRF.rang oversized_prf ≤ PRF.domain oversized_prf ^ 2) ∧
  ModifiedPRF.init oversized_prf = Ret {| ModifiedPRF.f := oversized_prf |} ∧
  ∀ e, ModifiedPRF.init oversized_prf ≠ Raise e.
Proof.
  split_and!; [| reflexivity | discriminate].
  simpl. lia.
Qed.

(** C8, amended.  Building the adapter checks nothing: for every oracle,
    whatever sizes it publishes, [__init__] succeeds and stores the oracle. *)
Theorem init_accepts_every_oracle (f : PRF.t) :
  ModifiedPRF.init f = Ret {| ModifiedPRF.f := f |} ∧
  ∀ e, ModifiedPRF.init f ≠ Raise e.
Proof. split; [reflexivity | discriminate]. Qed.

(** * Properties of the rest of the code *)

(** ** Floyd: termination and the shape of the result *)

Section FloydTotal.

Variable f : Z → Z.

Lemma tortoise_hare_mono fuel fuel' p1 p2 count r :
  Floyd.tortoise_hare f fuel p1 p2 count = Ret r → (fuel ≤ fuel')%nat →
  Floyd.tortoise_hare f fuel' p1 p2 count = Ret r.
Proof.
  revert fuel' p1 p2 count.
  induction fuel as [|fuel IH]; intros fuel' p1 p2 count;
    cbn [Floyd.tortoise_hare]; destruct fuel' as [|fuel'];
    cbn [Floyd.tortoise_hare]; destruct (p1 =? p2); try done; try lia.
  intros H Hle. apply IH; [done | lia].
Qed.

Lemma tortoise_hare_rounds fuel p1 p2 count q1 q2 count' :
  Floyd.tortoise_hare f fuel p1 p2 count = Ret (q1, q2, count') →
  (count ≤ count' ≤ count + fuel)%nat.
Proof.
  revert p1 p2 count.
  induction fuel as [|fuel IH]; intros p1 p2 count;
    cbn [Floyd.tortoise_hare]; destruct (p1 =? p2);
    try discriminate; try (intros [= <- <- <-]; lia).
  intros H. apply IH in H. lia.
Qed.

Lemma walk_to_collision_mono fuel fuel' p1 p2 r :
  Floyd.walk_to_collision f fuel p1 p2 = Ret r → (fuel ≤ fuel')%nat →
  Floyd.walk_to_collision f fuel' p1 p2 = Ret r.
Proof.
  revert fuel' p1 p2.
  induction fuel as [|fuel IH]; intros fuel' p1 p2;
    cbn [Floyd.walk_to_collision]; destruct fuel' as [|fuel'];
    cbn [Floyd.walk_to_collision]; destruct (f p1 =? f p2);
    try done; try lia.
  intros H Hle. apply IH; [done | lia].
Qed.

Lemma walk_to_collision_total fuel e p1 p2 :
  Nat.iter (S e) f p1 = Nat.iter (S e) f p2 → (e ≤ fuel)%nat →
  ∃ r, Floyd.walk_to_collision f fuel p1 p2 = Ret r.
Proof.
  revert e p1 p2.
  induction fuel as [|fuel IH]; intros e p1 p2 He Hle;
    cbn [Floyd.walk_to_collision];
    destruct (Z.eqb_spec (f p1) (f p2)) as [Heq | Hne]; eauto.
  - assert (e = 0%nat) as -> by lia. simpl in He. done.
  - destruct e as [|e]; [simpl in He; done |].
    apply (IH e); [| lia]. by rewrite <- !Nat.iter_succ_r.
Qed.

(** The pair that the last loop returns: both pointers after the same
    number of steps. *)
Lemma walk_to_collision_steps fuel p1 p2 x0 x1 :
  Floyd.walk_to_collision f fuel p1 p2 = Ret (x0, x1) →
  ∃ e : nat, x0 = Nat.iter e f p1 ∧ x1 = Nat.iter e f p2.
Proof.
  revert p1 p2.
  induction fuel as [|fuel IH]; intros p1 p2;
    cbn [Floyd.walk_to_collision]; destruct (f p1 =? f p2);
    try discriminate; try (intros [= <- <-]; by exists 0%nat).
  intros H. apply IH in H as (e & -> & ->).
  exists (S e). by rewrite !Nat.iter_succ_r.
Qed.

Lemma check_start_true_inv start n p :
  Floyd.check_start f start n p = true →
  ∃ j : nat, (0 < j ≤ n)%nat ∧ Nat.iter j f p = start.
Proof.
  revert p. induction n as [|n IH]; intros p; [discriminate |].
  simpl. destruct (Z.eqb_spec (f p) start) as [Heq | Hne].
  - intros _. exists 1%nat. split; [lia | done].
  - intros H. apply IH in H as (j & Hj & Hit).
    exists (S j). split; [lia |]. by rewrite Nat.iter_succ_r.
Qed.

(** Some multiple of [l] lies in every window of [l] consecutive numbers. *)
Lemma multiple_in_window (i l : nat) :
  (0 < l)%nat → ∃ q : nat, (i ≤ q * l < i + l)%nat.
Proof.
  intros Hl. induction i as [|i [q Hq]]; [exists 0%nat; lia |].
  destruct (decide (q * l = i)%nat) as [Heq | Hne].
  - exists (S q). lia.
  - exists q. lia.
Qed.

(** In a finite domain the tortoise and the hare meet within
    [length dom] rounds. *)
Lemma meeting_round (dom : list Z) (start : Z) :
  (∀ x, x ∈ dom → f x ∈ dom) → start ∈ dom →
  ∃ d : nat, (d < length dom)%nat ∧
             Nat.iter (S d) f start = Nat.iter (2 * S d) f start.
Proof.
  intros Hclosed Hstart.
  destruct (orbit_repeats f dom start Hclosed Hstart) as (i & j & Hij & Heq).
  set (l := (j - i)%nat).
  assert (Hper : Nat.iter l f (Nat.iter i f start) = Nat.iter i f start).
  { rewrite <- Nat.iter_add. rewrite Heq. f_equal. unfold l. lia. }
  destruct (multiple_in_window (Nat.max i 1) l) as [q Hq]; [unfold l; lia |].
  set (n := (q * l)%nat) in *.
  assert (Hn : Nat.iter n f (Nat.iter i f start) = Nat.iter i f start)
    by by apply iter_period.
  exists (n - 1)%nat. split; [unfold l in Hq; lia |].
  replace (S (n - 1)) with n by lia.
  replace (2 * n)%nat with ((n - i) + (n + i))%nat by lia.
  rewrite Nat.iter_add, (Nat.iter_add n i), Hn, <- Nat.iter_add.
  f_equal. lia.
Qed.

(** What the first loop hands to the rest of [find_collision] when the
    start is not a fixed point: the meeting point and the round count. *)
Lemma meeting_point (dom : list Z) (start : Z) (fuel : nat) :
  (∀ x, x ∈ dom → f x ∈ dom) → start ∈ dom → (length dom ≤ fuel)%nat →
  ∃ (m : Z) (count : nat),
    Floyd.tortoise_hare f fuel (f start) (f (f start)) 0 = Ret (m, m, count) ∧
    (count < length dom)%nat ∧
    m = Nat.iter (S count) f start ∧ Nat.iter (S count) f m = m.
Proof.
  intros Hclosed Hstart Hfuel.
  destruct (meeting_round dom start Hclosed Hstart) as (d & Hd & Hmeet).
  destruct (tortoise_hare_total f (length dom) d (f start) (f (f start)) 0%nat)
    as [[[q1 q2] count] Hth]; [| lia |].
  { rewrite <- !Nat.iter_succ_r.
    by replace (S (S (2 * d))) with (2 * S d)%nat by lia. }
  pose proof (tortoise_hare_rounds _ _ _ _ _ _ _ Hth) as Hcount.
  pose proof Hth as Hinv.
  apply tortoise_hare_Ret in Hinv as (c & Hc & Hq1 & Hq2 & Heq & _).
  simpl in Hc. subst c.
  rewrite <- Nat.iter_succ_r in Hq1. rewrite <- !Nat.iter_succ_r in Hq2.
  assert (Hlt : (count < length dom)%nat).
  { destruct (decide (count < length dom)%nat) as [|Hge]; [done |].
    exfalso.
(* the loop stops at the first meeting, which comes by round [d] *)
assert (Hquick : ∃ r, Floyd.tortoise_hare f d (f start) (f (f start))
                        0%nat = Ret r).
{ apply (tortoise_hare_total f d d); [| lia].
  rewrite <- !Nat.iter_succ_r.
  by replace (S (S (2 * d))) with (2 * S d)%nat by lia. }
destruct Hquick as [[[r1 r2] c'] Hr].
pose proof (tortoise_hare_rounds _ _ _ _ _ _ _ Hr) as Hc'.
apply (tortoise_hare_mono d (length dom)) in Hr; [| lia].
rewrite Hr in Hth. injection Hth as _ _ ->. lia. }
exists q1, count. split_and!.
- apply (tortoise_hare_mono (length dom)); [| done]. by rewrite Heq at 2.
- done.
- done.
- rewrite Hq1 at 1. rewrite <- Nat.iter_add.
replace (S count + S count)%nat with (S (S (2 * count))) by lia.
by rewrite <- Hq2.
Qed.

(** A pair returned from a start point on a cycle is the degenerate one. *)
Lemma find_collision_periodic (start : Z) (fuel : nat) (x0 x1 : Z) :
  FloydMain.periodic f start →
  Floyd.find_collision f fuel start = Ret (x0, x1) →
  x0 = start ∧ x1 = start.
Proof.
  intros (n & Hn & Hper). unfold Floyd.find_collision.
  destruct (f start =? start); [by intros [= <- <-] |].
  intros H. apply bind_Ret_inv in H as ([[p1 p2] count] & Hth & H).
  destruct (Floyd.check_start f start (count * 2) p1);
    [by injection H as <- <- |].
  apply tortoise_hare_Ret in Hth as (d & _ & Hq1 & Hq2 & Heq & _).
  rewrite <- Nat.iter_succ_r in Hq1. rewrite <- !Nat.iter_succ_r in Hq2.
  assert (Hm : start = p2).
  { rewrite <- Heq, Hq1. apply (iter_cycle_inj f n (S d)); [done | done |].
    rewrite <- Nat.iter_add.
    replace (S d + S d)%nat with (S (S (2 * d))) by lia.
    by rewrite <- Hq1, <- Hq2. }
  apply walk_to_collision_Ret in H as (_ & _ & Hsame).
  destruct (Hsame Hm) as [-> ->]. done.
Qed.

(** Termination on a finite domain, with a result that no longer depends
    on the fuel. *)
Lemma find_collision_Ret_dom (dom : list Z) (start : Z) :
  (∀ x, x ∈ dom → f x ∈ dom) → start ∈ dom →
  ∃ r, ∀ fuel : nat, (length dom ≤ fuel)%nat →
                     Floyd.find_collision f fuel start = Ret r.
Proof.
  intros Hclosed Hstart.
  assert (Hret : ∃ r, Floyd.find_collision f (length dom) start = Ret r).
  { unfold Floyd.find_collision. destruct (f start =? start); [by eauto |].
    destruct (meeting_point dom start (length dom) Hclosed Hstart)
      as (m & count & -> & Hcount & Hm & Hper); [done |].
    rewrite bind_Ret.
    destruct (Floyd.check_start f start (count * 2) m); [by eauto |].
    apply (walk_to_collision_total _ count); [| lia].
    by rewrite Hper, Hm. }
  destruct Hret as [[x0 x1] Hr]. exists (x0, x1). intros fuel Hfuel.
  unfold Floyd.find_collision in *. destruct (f start =? start); [done |].
  apply bind_Ret_inv in Hr as ([[p1 p2] count] & Hth & Hr).
  rewrite (tortoise_hare_mono _ fuel _ _ _ _ Hth Hfuel), bind_Ret.
  destruct (Floyd.check_start f start (count * 2) p1); [done |].
  by apply (walk_to_collision_mono (length dom)).
Qed.

(** The result from a start point off its cycle. *)
Lemma find_collision_off_cycle_Ret (dom : list Z) (start : Z)
    (fuel : nat) :
  (∀ x, x ∈ dom → f x ∈ dom) → start ∈ dom →
  ¬ FloydMain.periodic f start → (length dom ≤ fuel)%nat →
  ∃ x0 x1 : Z,
    Floyd.find_collision f fuel start = Ret (x0, x1) ∧
    x0 ≠ x1 ∧ f x0 = f x1 ∧
    (∃ e : nat, x0 = Nat.iter e f start) ∧
    ¬ FloydMain.periodic f x0 ∧ FloydMain.periodic f x1.
Proof.
  intros Hclosed Hstart Hoff Hfuel. unfold Floyd.find_collision.
  destruct (Z.eqb_spec (f start) start) as [Hfix | _].
  { destruct Hoff. exists 1%nat. split; [lia | done]. }
  destruct (meeting_point dom start fuel Hclosed Hstart Hfuel)
    as (m & count & -> & Hcount & Hm & Hper).
  rewrite bind_Ret.
  destruct (Floyd.check_start f start (count * 2) m) eqn:Hcheck.
  { apply check_start_true_inv in Hcheck as (j & Hj & Hback).
    destruct Hoff. exists (j + S count)%nat. split; [lia |].
    by rewrite Nat.iter_add, <- Hm. }
  destruct (walk_to_collision_total fuel count start m) as [[x0 x1] Hw];
    [by rewrite Hper, Hm | lia |].
  exists x0, x1. split; [done |].
  pose proof (walk_to_collision_steps _ _ _ _ _ Hw) as (e & Hx0 & Hx1).
  apply walk_to_collision_Ret in Hw as (Hf & Hne & _).
  assert (Hsm : start ≠ m).
  { intros Heq. destruct Hoff. exists (S count). split; [lia |].
    by rewrite <- Hm. }
  assert (Hx1per : Nat.iter (S count) f x1 = x1).
  { rewrite Hx1, <- Nat.iter_add.
    replace (S count + e)%nat with (e + S count)%nat by lia.
    by rewrite Nat.iter_add, Hper. }
  assert (Hx01 : x1 = Nat.iter (S count) f x0).
  { rewrite Hx0, Hx1, Hm, <- !Nat.iter_add. f_equal. lia. }
  split_and!; [by apply Hne | done | by exists e | |].
  - intros (n & Hn & Hx0per). apply (Hne Hsm). rewrite Hx01.
    apply (iter_cycle_inj f n 1); [done | done |].
    rewrite <- Hx01. done.
  - exists (S count). split; [lia | done].
Qed.

End FloydTotal.

(** X1.  On a finite domain closed under [f], [find_collision] returns from
    every start point of the domain, and the same pair for every fuel from
    [length dom] on. *)
Theorem find_collision_terminates (f : Z → Z) (dom : list Z) (start : Z) :
  (∀ x, x ∈ dom → f x ∈ dom) → start ∈ dom →
  ∃ r, ∀ fuel : nat, (length dom ≤ fuel)%nat →
                     Floyd.find_collision f fuel start = Ret r.
Proof. apply find_collision_Ret_dom. Qed.

Lemma find_collision_terminates_witness :
  ∃ r, ∀ fuel : nat, (length [0; 1; 2; 3; 4] ≤ fuel)%nat →
                     Floyd.find_collision rho fuel 0 = Ret r.
Proof.
  apply (find_collision_terminates rho [0; 1; 2; 3; 4] 0).
  - apply Forall_forall. by vm_compute; repeat constructor.
  - by apply list_elem_of_here.
Defined.

(** X2.  From a start point of a finite domain that is not on a cycle,
    [find_collision] returns a genuine collision: [x0] is the last point of
    the tail of the orbit of [start], [x1] is the point of the cycle with
    the same image, and they differ. *)
Theorem find_collision_off_cycle (f : Z → Z) (dom : list Z) (start : Z)
    (fuel : nat) :
  (∀ x, x ∈ dom → f x ∈ dom) → start ∈ dom →
  ¬ FloydMain.periodic f start → (length dom ≤ fuel)%nat →
  ∃ x0 x1 : Z,
    Floyd.find_collision f fuel start = Ret (x0, x1) ∧
    x0 ≠ x1 ∧ f x0 = f x1 ∧
    (∃ e : nat, x0 = Nat.iter e f start) ∧
    ¬ FloydMain.periodic f x0 ∧ FloydMain.periodic f x1.
Proof. apply find_collision_off_cycle_Ret. Qed.

(** On [rho] the tail 0 -> 1 meets the cycle 2 -> 3 -> 4 -> 2 at 2: the
    pair is (1, 4). *)
Lemma find_collision_off_cycle_witness :
  ∃ x0 x1 : Z,
    Floyd.find_collision rho 5 0 = Ret (x0, x1) ∧
    x0 ≠ x1 ∧ rho x0 = rho x1 ∧
    (∃ e : nat, x0 = Nat.iter e rho 0) ∧
    ¬ FloydMain.periodic rho x0 ∧ FloydMain.periodic rho x1.
Proof.
  apply (find_collision_off_cycle rho [0; 1; 2; 3; 4] 0 5).
  - apply Forall_forall. by vm_compute; repeat constructor.
  - by apply list_elem_of_here.
  - intros (n & Hn & Hper).
    assert (Hin : ∀ k : nat, Nat.iter (S k) rho 0 ∈ [1; 2; 3; 4]).
    { induction k as [|k IH]; [vm_compute; by constructor |].
      rewrite Nat.iter_succ. revert IH.
      generalize (Nat.iter (S k) rho 0). intros z Hz.
      repeat (apply elem_of_cons in Hz as [-> | Hz];
              [vm_compute; by repeat constructor |]).
      by apply elem_of_nil in Hz. }
    destruct n as [|n]; [lia |].
    specialize (Hin n). rewrite Hper in Hin.
    repeat (apply elem_of_cons in Hin as [Hin | Hin]; [done |]).
    by apply elem_of_nil in Hin.
  - simpl. lia.
Defined.

(** X3.  When [find_collision] returns the degenerate pair, [start] lies on
    a cycle: the caller's retry is not a false alarm. *)
Theorem find_collision_degenerate_on_cycle (f : Z → Z) (fuel : nat)
    (start : Z) :
  Floyd.find_collision f fuel start = Ret (start, start) →
  FloydMain.periodic f start.
Proof.
  unfold Floyd.find_collision.
  destruct (Z.eqb_spec (f start) start) as [Hfix | _].
  { intros _. exists 1%nat. split; [lia | done]. }
  intros H. apply bind_Ret_inv in H as ([[p1 p2] count] & Hth & H).
  apply tortoise_hare_Ret in Hth as (d & _ & Hq1 & Hq2 & Heq & _).
  rewrite <- Nat.iter_succ_r in Hq1. rewrite <- !Nat.iter_succ_r in Hq2.
  destruct (Floyd.check_start f start (count * 2) p1) eqn:Hcheck.
  - apply check_start_true_inv in Hcheck as (j & Hj & Hback).
    exists (j + S d)%nat. split; [lia |].
    by rewrite Nat.iter_add, <- Hq1.
  - apply walk_to_collision_Ret in H as (_ & Hne & _).
    destruct (decide (start = p2)) as [Hsame | Hdiff]; [| by destruct Hne].
    exists (S (S (2 * d))). split; [lia |]. by rewrite <- Hq2.
Qed.

Lemma find_collision_degenerate_on_cycle_witness :
  FloydMain.periodic three_cycle 0.
Proof.
  apply (find_collision_degenerate_on_cycle three_cycle 3 0). reflexivity.
Defined.

(** ** Floyd: the retry loop of [main] *)

(** X4.  [main] breaks at the first start point that is off its cycle: when
    the start points 0, ..., s-1 lie on cycles and [s] does not, it tries
    them in turn and ends with a genuine collision found from [s]. *)
Theorem main_first_off_cycle (f : Z → Z) (dom : list Z) (s fuel rounds : nat) :
  (∀ x, x ∈ dom → f x ∈ dom) →
  (∀ s' : nat, (s' ≤ s)%nat → Z.of_nat s' ∈ dom) →
  (∀ s' : nat, (s' < s)%nat → FloydMain.periodic f (Z.of_nat s')) →
  ¬ FloydMain.periodic f (Z.of_nat s) →
  (length dom ≤ fuel)%nat → (s < rounds)%nat →
  ∃ x0 x1 : Z,
    FloydMain.main f fuel rounds = Ret (Z.of_nat s, (x0, x1)) ∧
    x0 ≠ x1 ∧ f x0 = f x1.
Proof.
  intros Hclosed Hdom Hper Hoff Hfuel Hrounds.
  destruct (find_collision_off_cycle_Ret f dom (Z.of_nat s) fuel)
    as (x0 & x1 & Hfc & Hne & Hf & _); [done | by apply Hdom | done | done |].
  exists x0, x1. split; [| done].
  unfold FloydMain.main.
  assert (Hfrom : ∀ (d : nat) (rounds' : nat),
    (d ≤ s)%nat → (d < rounds')%nat →
    FloydMain.main_loop f fuel rounds' (Z.of_nat (s - d))
    = Ret (Z.of_nat s, (x0, x1))).
  { induction d as [|d IH]; intros rounds' Hd Hr;
      (destruct rounds' as [|rounds']; [lia |]); cbn [FloydMain.main_loop].
    - rewrite Nat.sub_0_r, Hfc, bind_Ret.
      destruct (Z.eqb_spec x0 x1); [done |].
      destruct (Z.eqb_spec (f x0) (f x1)); done.
    - destruct (find_collision_Ret_dom f dom (Z.of_nat (s - S d)))
        as [[y0 y1] Hy]; [done | apply Hdom; lia |].
      specialize (Hy fuel Hfuel). rewrite Hy, bind_Ret.
      destruct (find_collision_periodic f _ _ _ _ (Hper (s - S d)%nat
                  ltac:(lia)) Hy) as [-> ->].
      rewrite Z.eqb_refl. simpl.
      replace (Z.of_nat (s - S d) + 1) with (Z.of_nat (s - d)) by lia.
      apply IH; lia. }
  specialize (Hfrom s rounds). rewrite Nat.sub_diag in Hfrom.
  apply Hfrom; lia.
Qed.

(** On [swap_with_tail] the start points 0 and 1 lie on the cycle and give
    the degenerate pair; the loop breaks at the third start point, 2. *)
Lemma main_first_off_cycle_witness :
  ∃ x0 x1 : Z,
    FloydMain.main swap_with_tail 3 3 = Ret (Z.of_nat 2, (x0, x1)) ∧
    x0 ≠ x1 ∧ swap_with_tail x0 = swap_with_tail x1.
Proof.
  apply (main_first_off_cycle swap_with_tail [0; 1; 2] 2 3 3).
  - apply Forall_forall. by vm_compute; repeat constructor.
  - intros s' Hs'. destruct s' as [|[|[|s']]]; [| | | lia];
      vm_compute; by repeat constructor.
  - intros s' Hs'. exists 2%nat. split; [lia |].
    destruct s' as [|[|s']]; [reflexivity | reflexivity | lia].
  - intros (n & Hn & Hper).
    assert (Hin : ∀ k : nat, Nat.iter (S k) swap_with_tail 2 ∈ [0; 1]).
    { induction k as [|k IH]; [vm_compute; by constructor |].
      rewrite Nat.iter_succ. revert IH.
      generalize (Nat.iter (S k) swap_with_tail 2). intros z Hz.
      repeat (apply elem_of_cons in Hz as [-> | Hz];
              [vm_compute; by repeat constructor |]).
      by apply elem_of_nil in Hz. }
    destruct n as [|n]; [lia |].
    specialize (Hin n). change (Z.of_nat 2) with 2 in Hper.
    rewrite Hper in Hin.
    repeat (apply elem_of_cons in Hin as [Hin | Hin]; [done |]).
    by apply elem_of_nil in Hin.
  - simpl. lia.
  - lia.
Defined.

(** X5.  When every start point from 0 on lies on a cycle (as for a
    permutation), the loop of [main] never breaks, however many rounds and
    however much fuel it is given. *)
Theorem main_never_breaks (f : Z → Z) (fuel rounds : nat)
    (r : Z * (Z * Z)) :
  (∀ s : Z, 0 ≤ s → FloydMain.periodic f s) →
  FloydMain.main f fuel rounds ≠ Ret r.
Proof.
  intros Hper. unfold FloydMain.main.
  assert (Hfrom : ∀ start, 0 ≤ start →
                  FloydMain.main_loop f fuel rounds start ≠ Ret r).
  { induction rounds as [|rounds IH]; intros start Hstart; [discriminate |].
    cbn [FloydMain.main_loop].
    destruct (Floyd.find_collision f fuel start) as [[x0 x1] | e |] eqn:Hfc;
      [| discriminate | discriminate].
    rewrite bind_Ret.
    destruct (find_collision_periodic f _ _ _ _ (Hper start Hstart) Hfc)
      as [-> ->].
    rewrite Z.eqb_refl. simpl. apply IH. lia. }
  by apply Hfrom.
Qed.

(** The successor modulo three is a permutation of 0, 1, 2 and the
    identity elsewhere. *)
Lemma main_never_breaks_witness :
  FloydMain.main (λ x, if (0 <=? x) && (x <? 3) then (x + 1) mod 3 else x)
                 10 10
  ≠ Ret (0, (1, 2)).
Proof.
  apply (main_never_breaks
           (λ x, if (0 <=? x) && (x <? 3) then (x + 1) mod 3 else x) 10 10).
  intros s Hs. exists 3%nat. split; [lia |]. simpl.
  destruct (Z.ltb_spec s 3) as [Hlt | Hge].
  - assert (s = 0 ∨ s = 1 ∨ s = 2) as [-> | [-> | ->]] by lia; reflexivity.
  - destruct (Z.leb_spec 0 s); [| lia]. simpl.
    destruct (Z.leb_spec 0 s); [| lia].
    destruct (Z.ltb_spec s 3); [lia |]. simpl.
    destruct (Z.leb_spec 0 s); [| lia].
    destruct (Z.ltb_spec s 3); [lia | done].
Defined.

(** ** Nivasch: which point of the cycle is returned *)

Section NivaschLeast.

Variable f : Z → Z.

Lemma unbeaten_init (k start : Z) (stacks : list (list Z)) (next : Z) :
  Nivasch.invariant f k start 0 stacks next →
  NivaschOrder.unbeaten f k start 0 stacks.
Proof.
  intros Hinv j s x Hs Hx.
  destruct (Nivasch.inv_visited _ _ _ _ _ _ Hinv j s x Hs Hx) as (i & Hi & ->).
  exists i. split_and!; [done | done |]. intros i' Hi'. lia.
Qed.

Lemma unbeaten_iteration (k start : Z) (n : nat) (stacks : list (list Z))
    (next : Z) (stacks' : list (list Z)) (next' : Z) :
  Nivasch.invariant f k start n stacks next →
  NivaschOrder.unbeaten f k start n stacks →
  Nivasch.iteration f k stacks next = Ret (inr (stacks', next')) →
  NivaschOrder.unbeaten f k start (S n) stacks'.
Proof.
  intros Hinv Hun Hit.
  destruct (iteration_step f _ _ _ _ _ Hinv)
    as (s & Hs & [[_ Heq] | (_ & s' & r & -> & _ & Heq & Hinv')]);
    rewrite Heq in Hit; [discriminate |].
  injection Hit as <- <-.
  pose proof (Nivasch.inv_k _ _ _ _ _ _ Hinv) as Hk.
  pose proof (Z.mod_pos_bound (f next) k ltac:(lia)) as Hidx.
  assert (Hnx : Nat.iter (S n) f start = f next).
  { simpl. by rewrite <- (Nivasch.inv_next _ _ _ _ _ _ Hinv). }
  intros j s0 x Hs0 Hx.
  apply list_lookup_insert_Some in Hs0 as [(<- & <- & Hlen) | [Hne Hs0]].
  - apply elem_of_app in Hx as [Hx | Hx].
    + destruct (Hun _ _ x Hs) as (i & Hi & Hxi & Hlater);
        [apply elem_of_app; by left |].
      exists i. split_and!; [lia | done |].
      intros i' Hi' Hclass.
      destruct (decide (i' = S n)) as [-> | Hne]; [| apply Hlater; [lia | done]].
      rewrite Hnx.
      apply list_elem_of_lookup in Hx as [p Hp].
      apply (Nivasch.inv_increasing _ _ _ _ _ _ Hinv' _ (s' ++ [f next])
               ltac:(by apply list_lookup_insert_eq) p (length s')).
      * by apply lookup_app_l_Some.
      * by apply list_lookup_middle.
      * by apply lookup_lt_Some in Hp.
    + apply list_elem_of_singleton in Hx as ->.
      exists (S n). split_and!; [done | done |]. intros i' Hi'. lia.
  - destruct (Hun _ _ x Hs0 Hx) as (i & Hi & Hxi & Hlater).
    exists i. split_and!; [lia | done |].
    intros i' Hi' Hclass.
    destruct (decide (i' = S n)) as [-> | Hne']; [| apply Hlater; [lia | done]].
    exfalso. apply Hne.
    rewrite Hnx in Hclass.
    rewrite (Nivasch.inv_partition _ _ _ _ _ _ Hinv _ _ _ Hs0 Hx) in Hclass.
    lia.
Qed.

Lemma loop_Ret_least (k start : Z) (n : nat) (stacks : list (list Z))
    (next : Z) (fuel : nat) (x : Z) (m : nat) :
  Nivasch.invariant f k start n stacks next →
  NivaschOrder.unbeaten f k start n stacks →
  Nivasch.loop f fuel k stacks next = Ret x →
  Nat.iter m f x mod k = x mod k → x ≤ Nat.iter m f x.
Proof.
  revert n stacks next.
  induction fuel as [|fuel IH]; intros n stacks next Hinv Hun H Hclass;
    [discriminate |].
  cbn [Nivasch.loop] in H.
  destruct (iteration_step f _ _ _ _ _ Hinv)
    as (s & Hs & [[Hin Heq] | (_ & s' & r & _ & _ & Heq & Hinv')]).
  - rewrite Heq, bind_Ret in H. injection H as <-.
    assert (Hnx : Nat.iter (S n) f start = f next).
    { simpl. by rewrite <- (Nivasch.inv_next _ _ _ _ _ _ Hinv). }
    destruct (Hun _ _ _ Hs Hin) as (i & Hi & Hxi & Hlater).
    set (p := (S n - i)%nat).
    assert (Hper : Nat.iter p f (f next) = f next).
    { rewrite Hxi at 1. rewrite <- Nat.iter_add.
      replace (p + i)%nat with (S n) by (unfold p; lia). done. }
    rewrite (iter_mod f p m (f next)) in Hclass |- * by first [done | unfold p; lia].
    pose proof (Nat.mod_upper_bound m p ltac:(unfold p; lia)) as Hr.
    destruct (m mod p)%nat as [|r'] eqn:Hrem; [simpl; lia |].
    assert (Hshift : Nat.iter (S r') f (f next)
                     = Nat.iter (S r' + i) f start).
    { rewrite Nat.iter_add. by rewrite <- Hxi. }
    rewrite Hshift in Hclass |- *.
    apply Z.lt_le_incl, Hlater; [unfold p in Hr; lia | done].
  - pose proof Heq as Hit. rewrite Heq, bind_Ret in H.
    eapply IH; [exact Hinv' | | exact H | exact Hclass].
    by eapply unbeaten_iteration.
Qed.

End NivaschLeast.

(** X6.  The point that [find_cycle] returns is the least point of the cycle
    in its residue class modulo [k]: every point of its orbit that is
    congruent to it is at least as large. *)
Theorem find_cycle_least_in_class (f : Z → Z) (fuel : nat) (k start x : Z)
    (m : nat) :
  Nivasch.find_cycle f fuel k start = Ret x →
  Nat.iter m f x mod k = x mod k → x ≤ Nat.iter m f x.
Proof.
  unfold Nivasch.find_cycle. intros H Hclass.
  apply bind_Ret_inv in H as (stacks & Hinit & Hloop).
  pose proof (init_Ret_inv _ _ _ Hinit) as Hk.
  destruct (init_Ret f k start Hk) as (stacks0 & Hinit0 & Hinv).
  assert (stacks0 = stacks) as -> by congruence.
  eapply loop_Ret_least; [exact Hinv | | exact Hloop | exact Hclass].
  by eapply unbeaten_init.
Qed.

(** On [rho] with two stacks the even points of the cycle 2 -> 3 -> 4 are
    2 and 4: 2 is returned. *)
Lemma find_cycle_least_in_class_witness :
  Nivasch.find_cycle rho 10 2 0 = Ret 2 ∧ 2 ≤ Nat.iter 2 rho 2.
Proof.
  split; [reflexivity |].
  apply (find_cycle_least_in_class rho 10 2 0 2 2); reflexivity.
Defined.

(** ** Hellman tables: preprocessing *)

Section Preprocess.

Variable draw : nat → Z.
Variables (m t : Z) (f_tag : ModifiedPRF.t).

Lemma chain_total (i : Z) (n : nat) (a : Z) :
  PRF.domain (ModifiedPRF.f f_tag) ≠ 0 →
  ∃ e, Hellman.chain f_tag i n a = Ret e.
Proof.
  intros Hdom. revert a. induction n as [|n IH]; intros a;
    cbn [Hellman.chain]; [by eauto |].
  destruct (step_total f_tag i a Hdom) as [a' ->]. rewrite bind_Ret.
  apply IH.
Qed.

Lemma chain_add (i : Z) (n1 n2 : nat) (a : Z) :
  Hellman.chain f_tag i (n1 + n2) a =
  Hellman.chain f_tag i n1 a ≫= Hellman.chain f_tag i n2.
Proof.
  revert a. induction n1 as [|n1 IH]; intros a; [done |].
  cbn [Nat.add Hellman.chain].
  destruct (Hellman.step f_tag i a) as [a'| |]; [| done | done].
  rewrite !bind_Ret. apply IH.
Qed.

Lemma chain_zero_domain (i : Z) (n : nat) (a : Z) :
  PRF.domain (ModifiedPRF.f f_tag) = 0 →
  Hellman.chain f_tag i (S n) a = Raise ZeroDivisionError.
Proof.
  intros Hdom. cbn [Hellman.chain]. unfold Hellman.step. by rewrite Hdom.
Qed.

Lemma dd_append_lookup (d : gmap Z (list Z)) (key v key' : Z) :
  HellmanRun.dd_append d key v !! key' =
  if decide (key = key') then Some (default [] (d !! key) ++ [v])
  else d !! key'.
Proof.
  unfold HellmanRun.dd_append, Hellman.dd_getitem.
  destruct (d !! key) as [l|] eqn:Hkey; simpl;
    destruct (decide (key = key')) as [<- | Hne];
    rewrite ?lookup_insert_eq, ?lookup_insert_ne by done; done.
Qed.

Lemma fill_table_spec (i : Z) (n c : nat) (table table' : gmap Z (list Z))
    (c' : nat) :
  HellmanRun.fill_table draw t f_tag i n c table = Ret (table', c') →
  c' = (c + n)%nat ∧
  ∀ e, table' !! e =
       HellmanRun.add_starts (table !! e)
         (filter (λ s, Hellman.chain f_tag i (Z.to_nat t) s = Ret e)
                 (draw <$> seq c n)).
Proof.
  revert c table. induction n as [|n IH]; intros c table;
    cbn [HellmanRun.fill_table].
  { intros [= <- <-]. split; [lia | done]. }
  intros H. apply bind_Ret_inv in H as (curr & Hcurr & H).
  apply IH in H as [-> Htable]. split; [lia |].
  intros e. rewrite Htable, dd_append_lookup.
  cbn [seq fmap list_fmap]. rewrite filter_cons.
  destruct (decide (curr = e)) as [<- | Hne].
  - rewrite decide_True by done.
    destruct (filter _ _) as [|s rest]; simpl; [done |].
    by rewrite <- app_assoc.
  - rewrite decide_False; [done |]. rewrite Hcurr. by intros [= ?].
Qed.

Lemma fill_table_total (i : Z) (n c : nat) (table : gmap Z (list Z)) :
  PRF.domain (ModifiedPRF.f f_tag) ≠ 0 →
  ∃ table', HellmanRun.fill_table draw t f_tag i n c table
            = Ret (table', (c + n)%nat).
Proof.
  intros Hdom. revert c table. induction n as [|n IH]; intros c table;
    cbn [HellmanRun.fill_table].
  { exists table. by rewrite Nat.add_0_r. }
  destruct (chain_total i (Z.to_nat t) (draw c) Hdom) as [curr ->].
  rewrite bind_Ret.
  destruct (IH (S c) (HellmanRun.dd_append table curr (draw c)))
    as [table' ->].
  exists table'. do 2 f_equal. lia.
Qed.

Lemma build_tables_spec (a b c : nat) (tables tables' : list (gmap Z (list Z)))
    (c' : nat) :
  HellmanRun.build_tables draw m t f_tag (seq a b) c tables
  = Ret (tables', c') →
  ∃ new, tables' = tables ++ new ∧ length new = b ∧
         c' = (c + b * Z.to_nat m)%nat ∧
         ∀ (j : nat) (d : gmap Z (list Z)),
           new !! j = Some d →
           HellmanRun.table_holds t f_tag d (a + j)
             (draw <$> seq (c + j * Z.to_nat m) (Z.to_nat m)).
Proof.
  revert a c tables. induction b as [|b IH]; intros a c tables;
    cbn [seq HellmanRun.build_tables].
  { intros [= <- <-]. exists []. rewrite app_nil_r.
    split_and!; [done | done | lia | done]. }
  intros H. apply bind_Ret_inv in H as ([table c1] & Hfill & H).
  apply fill_table_spec in Hfill as [-> Htable].
  apply IH in H as (new & -> & Hlen & -> & Hnew).
  exists (table :: new). split_and!.
  - by rewrite <- app_assoc.
  - simpl. lia.
  - lia.
  - intros [|j] d Hd; simpl in Hd.
    + injection Hd as <-. rewrite !Nat.add_0_r. simpl.
      intros e l. rewrite Htable, lookup_empty.
      unfold HellmanRun.add_starts.
      destruct (filter _ _) as [|s rest]; simpl.
      * split; [done | by intros [? ->]].
      * split; [by intros [= <-] | by intros [_ ->]].
    + specialize (Hnew j d Hd).
      replace (a + S j)%nat with (S a + j)%nat by lia.
      by replace (c + S j * Z.to_nat m)%nat
        with (c + Z.to_nat m + j * Z.to_nat m)%nat by lia.
Qed.

Lemma build_tables_total (indices : list nat) (c : nat)
    (tables : list (gmap Z (list Z))) :
  PRF.domain (ModifiedPRF.f f_tag) ≠ 0 →
  ∃ r, HellmanRun.build_tables draw m t f_tag indices c tables = Ret r.
Proof.
  intros Hdom. revert c tables.
  induction indices as [|i indices IH]; intros c tables;
    cbn [HellmanRun.build_tables]; [by eauto |].
  destruct (fill_table_total (Z.of_nat i) (Z.to_nat m) c ∅ Hdom)
    as [table ->].
  rewrite bind_Ret. apply IH.
Qed.

Lemma hellman_preprocess_spec (c : nat) (tables : list (gmap Z (list Z)))
    (c' : nat) :
  HellmanRun.hellman_preprocess draw m t f_tag c = Ret (tables, c') →
  length tables = Z.to_nat t ∧
  c' = (c + Z.to_nat t * Z.to_nat m)%nat ∧
  ∀ (i : nat) (d : gmap Z (list Z)),
    tables !! i = Some d → HellmanRun.table_holds t f_tag d i (HellmanRun.starts_of draw m c i).
Proof.
  unfold HellmanRun.hellman_preprocess. intros H.
  apply build_tables_spec in H as (new & -> & Hlen & -> & Hnew).
  split_and!; [done | done |].
  intros i d Hd. apply (Hnew i d Hd).
Qed.

End Preprocess.

(** ** Hellman tables: the online search finds what the tables cover *)

Section OnlineComplete.

Variables (t y : Z) (f_tag : ModifiedPRF.t).

Hypothesis Hdom : PRF.domain (ModifiedPRF.f f_tag) ≠ 0.

Lemma replay_complete (i : Z) (n s : nat) (a a_s : Z) :
  (s < n)%nat → Hellman.chain f_tag i s a = Ret a_s →
  Hellman.step f_tag i a_s = Ret y →
  ∃ x, Hellman.replay y f_tag i n a = Ret (Some x).
Proof.
  revert s a. induction n as [|n IH]; intros s a Hs Hchain Hstep; [lia |].
  cbn [Hellman.replay].
  destruct (step_total f_tag i a Hdom) as [v Hv]. rewrite Hv, !bind_Ret.
  destruct (Z.eqb_spec v y) as [-> | Hne].
  - rewrite py_mod_Ret by done. by eauto.
  - destruct s as [|s].
    + simpl in Hchain. injection Hchain as <-. congruence.
    + cbn [Hellman.chain] in Hchain. rewrite Hv, bind_Ret in Hchain.
      apply (IH s); [lia | done | done].
Qed.

Lemma replay_all_complete (i : Z) (starts : list Z) (a : Z) :
  a ∈ starts →
  (∃ x, Hellman.replay y f_tag i (Z.to_nat t) a = Ret (Some x)) →
  ∃ x, Hellman.replay_all t y f_tag i starts = Ret (Some x).
Proof.
  intros Ha [x Hx].
  induction starts as [|a0 starts IH]; [by apply elem_of_nil in Ha |].
  cbn [Hellman.replay_all].
  destruct (proj2 (replay_spec y f_tag i (Z.to_nat t) a0) Hdom) as [r Hr].
  rewrite Hr, bind_Ret. destruct r as [x0|]; [by eauto |].
  apply elem_of_cons in Ha as [-> | Ha]; [congruence | by apply IH].
Qed.

Lemma confirmed_replay (i a x : Z) :
  Hellman.confirmed t y f_tag i a x →
  ∃ x', Hellman.replay y f_tag i (Z.to_nat t) a = Ret (Some x').
Proof.
  intros (s & a_s & Hs & Hchain & Hx & Hy).
  apply (replay_complete i _ s a a_s); [done | done |].
  unfold Hellman.step. by rewrite Hx, bind_Ret.
Qed.

Lemma walk_complete (ts0 : list (gmap Z (list Z))) (i n : nat) (curr : Z)
    (ts : list (gmap Z (list Z))) (x : Z) :
  Hellman.tables_extend ts0 ts →
  Hellman.hit_from t y f_tag ts0 i n curr x →
  ∃ x', (Hellman.walk t y f_tag (Z.of_nat i) n curr ts).1 = Ret (Some x').
Proof.
  revert curr ts. induction n as [|n IH]; intros curr ts Hext Hhit.
  { destruct Hhit as (? & j & ? & ? & ? & _ & Hj & _). lia. }
  destruct Hhit as (d0 & j & e & l0 & a & Hd0 & Hj & Hchain & Hl0 & Ha & Hconf).
  cbn [Hellman.walk]. rewrite M_bind_eq.
  destruct (Forall2_lookup_l _ _ _ _ _ Hext Hd0) as (d & Hd & Hd0d).
  destruct (tables_getitem_spec i curr ts) as (Hext1 & Hret1 & Htot1).
  destruct (Hellman.tables_getitem (Z.of_nat i) curr ts) as [o1 ts1].
  simpl in Hext1, Hret1, Htot1.
  destruct Htot1 as [l ->]; [by apply lookup_lt_Some in Hd |].
  destruct (Hret1 l eq_refl) as (d' & Hd' & Hl).
  assert (d' = d) as -> by congruence.
  assert (Hext01 : Hellman.tables_extend ts0 ts1)
    by by eapply tables_extend_trans.
  rewrite M_bind_eq.
(* the lookups at [curr], then the rest of the walk *)
assert (Hrest : ∀ ts2, Hellman.tables_extend ts0 ts2 → (0 < j)%nat →
  ∃ x', ((Hellman.lift (Hellman.step f_tag (Z.of_nat i) curr)
          ≫= λ curr', Hellman.walk t y f_tag (Z.of_nat i) n curr') ts2).1
        = Ret (Some x')).
{ intros ts2 Hext2 Hpos. destruct j as [|j]; [lia |].
  cbn [Hellman.chain] in Hchain.
  rewrite M_bind_eq. unfold Hellman.lift.
  destruct (Hellman.step f_tag (Z.of_nat i) curr) as [curr'| |];
    [| done | done].
  rewrite bind_Ret in Hchain.
  apply IH; [done |]. exists d0, j, e, l0, a.
  split_and!; [done | lia | done | done | done | done]. }
destruct (0 <? length l)%nat eqn:Hnonempty.
- rewrite M_bind_eq.
  destruct (tables_getitem_spec i curr ts1) as (Hext2 & Hret2 & Htot2).
  destruct (Hellman.tables_getitem (Z.of_nat i) curr ts1) as [o2 ts2].
  simpl in Hext2, Hret2, Htot2.
  assert (Hext02 : Hellman.tables_extend ts0 ts2)
    by by eapply tables_extend_trans.
  destruct (Forall2_lookup_l _ _ _ _ _ Hext01 Hd0) as (d1 & Hd1 & Hd0d1).
  destruct Htot2 as [starts ->]; [by apply lookup_lt_Some in Hd1 |].
  destruct (Hret2 starts eq_refl) as (d1' & Hd1' & Hstarts).
  assert (d1' = d1) as -> by congruence.
  unfold Hellman.lift.
  destruct (proj2 (replay_all_spec t y f_tag (Z.of_nat i) starts) Hdom)
    as [r Hr].
  rewrite Hr. destruct r as [x0|]; simpl; [by eauto |].
  destruct j as [|j]; [| apply Hrest; [done | lia]].
  exfalso. simpl in Hchain. injection Hchain as <-.
  specialize (Hd0d1 curr). rewrite Hl0 in Hd0d1.
  rewrite Hd0d1 in Hstarts. simpl in Hstarts. subst starts.
  destruct (replay_all_complete (Z.of_nat i) l0 a Ha
              (confirmed_replay _ _ _ Hconf)) as [x' Hx'].
  congruence.
- simpl. destruct j as [|j]; [| apply Hrest; [done | lia]].
  exfalso. simpl in Hchain. injection Hchain as <-.
  specialize (Hd0d curr). rewrite Hl0 in Hd0d.
  rewrite Hd0d in Hl. simpl in Hl. subst l.
  destruct l0; [by apply elem_of_nil in Ha | done].
Qed.

Lemma each_table_complete (ts0 : list (gmap Z (list Z)))
    (indices : list nat) (ts : list (gmap Z (list Z))) (i : nat) (x : Z) :
  Hellman.tables_extend ts0 ts →
  (∀ i', i' ∈ indices → (i' < length ts0)%nat) →
  i ∈ indices → Hellman.hit t y f_tag ts0 i x →
  ∃ x', (Hellman.each_table t y f_tag indices ts).1 = Ret (Some x').
Proof.
  revert ts. induction indices as [|i0 indices IH]; intros ts Hext Hidx Hi Hhit;
    [by apply elem_of_nil in Hi |].
  cbn [Hellman.each_table]. rewrite M_bind_eq.
  destruct (walk_spec t y f_tag ts0 i0 (Z.to_nat t) y ts Hext)
    as (Hext1 & _ & Htot).
  destruct (Htot Hdom) as [r Hr]; [apply Hidx, list_elem_of_here |].
  pose proof (walk_complete ts0 i0 (Z.to_nat t) y ts x Hext) as Hwalk.
  destruct (Hellman.walk t y f_tag (Z.of_nat i0) (Z.to_nat t) y ts)
    as [o1 ts1]. simpl in Hext1, Hr, Hwalk. subst o1.
  destruct r as [x0|]; simpl; [by eauto |].
  apply elem_of_cons in Hi as [-> | Hi].
  - destruct (Hwalk Hhit). discriminate.
  - apply IH; [done | | done | done].
    intros i' Hi'. apply Hidx. by apply list_elem_of_further.
Qed.

Lemma hellman_online_complete (tables : list (gmap Z (list Z))) (i : nat)
    (x : Z) :
  Hellman.hit t y f_tag tables i x →
  ∃ x', (Hellman.hellman_online tables t y f_tag).1 = Ret (Some x').
Proof.
  intros Hhit. unfold Hellman.hellman_online.
  apply (each_table_complete tables _ tables i x);
    [apply tables_extend_refl | | | done].
  - intros i' Hi'. apply elem_of_seq in Hi'. lia.
  - destruct Hhit as (d & _ & _ & _ & _ & Hd & _).
    apply lookup_lt_Some in Hd. apply elem_of_seq. lia.
Qed.

End OnlineComplete.

(** X7.  The tables that [hellman_preprocess] returns: there are [t] of
    them, [t * m] start points were drawn, and table [i] binds each end
    point to the start points drawn for it whose chain of [t] perturbed
    steps ends there, in the order of drawing, and binds nothing else. *)
Theorem hellman_preprocess_tables (draw : nat → Z) (m t : Z)
    (f_tag : ModifiedPRF.t) (c : nat) (tables : list (gmap Z (list Z)))
    (c' : nat) :
  HellmanRun.hellman_preprocess draw m t f_tag c = Ret (tables, c') →
  length tables = Z.to_nat t ∧
  c' = (c + Z.to_nat t * Z.to_nat m)%nat ∧
  ∀ (i : nat) (d : gmap Z (list Z)),
    tables !! i = Some d →
    HellmanRun.table_holds t f_tag d i (HellmanRun.starts_of draw m c i).
Proof. apply hellman_preprocess_spec. Qed.

(** Three draws 0, 1, 0 for one table of one-step chains of the identity:
    the two chains from 0 are both kept, in order. *)
Lemma hellman_preprocess_tables_witness :
  HellmanRun.hellman_preprocess (λ n, Z.of_nat n mod 2) 3 1
    {| ModifiedPRF.f := identity_prf |} 0
  = Ret ([{[0 := [0; 0]; 1 := [1]]}], 3%nat) ∧
  length [({[0 := [0; 0]; 1 := [1]]} : gmap Z (list Z))] = Z.to_nat 1.
Proof.
  split; [reflexivity |].
  apply (hellman_preprocess_tables (λ n, Z.of_nat n mod 2) 3 1
           {| ModifiedPRF.f := identity_prf |} 0 _ 3%nat).
  reflexivity.
Defined.

(** X8.  [hellman_preprocess] returns for every oracle with a nonzero
    domain size; with a domain size of zero it raises [ZeroDivisionError] at
    the first step of the first chain, as soon as there is one
    ([t >= 1] and [m >= 1]). *)
Theorem hellman_preprocess_returns (draw : nat → Z) (m t : Z)
    (f_tag : ModifiedPRF.t) (c : nat) :
  (PRF.domain (ModifiedPRF.f f_tag) ≠ 0 →
   ∃ tables, HellmanRun.hellman_preprocess draw m t f_tag c
             = Ret (tables, (c + Z.to_nat t * Z.to_nat m)%nat)) ∧
  (PRF.domain (ModifiedPRF.f f_tag) = 0 → 1 ≤ t → 1 ≤ m →
   HellmanRun.hellman_preprocess draw m t f_tag c = Raise ZeroDivisionError).
Proof.
  split.
  - intros Hdom.
    destruct (build_tables_total draw m t f_tag (seq 0 (Z.to_nat t)) c []
                Hdom) as [[tables c'] Hr].
    exists tables. unfold HellmanRun.hellman_preprocess. rewrite Hr.
    apply (hellman_preprocess_spec draw m t f_tag c) in Hr as (_ & -> & _).
    done.
  - intros Hdom Ht Hm. unfold HellmanRun.hellman_preprocess.
    destruct (Z.to_nat t) as [|t'] eqn:Ht'; [lia |].
    cbn [seq HellmanRun.build_tables].
    destruct (Z.to_nat m) as [|m'] eqn:Hm'; [lia |].
    cbn [HellmanRun.fill_table]. rewrite Ht'.
    by rewrite chain_zero_domain.
Qed.

Lemma hellman_preprocess_returns_witness :
  (∃ tables, HellmanRun.hellman_preprocess (λ n, Z.of_nat n) 2 2
               {| ModifiedPRF.f := successor_prf |} 0
             = Ret (tables, (0 + Z.to_nat 2 * Z.to_nat 2)%nat)) ∧
  HellmanRun.hellman_preprocess (λ n, Z.of_nat n) 2 2
    {| ModifiedPRF.f :=
         {| PRF.calc := λ x, x; PRF.domain := 0; PRF.rang := 3 |} |} 0
  = Raise ZeroDivisionError.
Proof.
  split.
  - apply (hellman_preprocess_returns (λ n, Z.of_nat n) 2 2
             {| ModifiedPRF.f := successor_prf |} 0). done.
  - apply (hellman_preprocess_returns (λ n, Z.of_nat n) 2 2
             {| ModifiedPRF.f :=
                  {| PRF.calc := λ x, x; PRF.domain := 0; PRF.rang := 3 |} |}
             0); [reflexivity | lia | lia].
Defined.

(** X9.  For an oracle with a nonzero domain size, [hellman_online] returns
    a value exactly when some table holds, under an end point that the walk
    from [y] meets within [t] steps, a start point whose replayed chain
    confirms a preimage. *)
Theorem hellman_online_finds_iff (tables : list (gmap Z (list Z))) (t y : Z)
    (f_tag : ModifiedPRF.t) :
  PRF.domain (ModifiedPRF.f f_tag) ≠ 0 →
  (∃ x, (Hellman.hellman_online tables t y f_tag).1 = Ret (Some x)) ↔
  (∃ i x, Hellman.hit t y f_tag tables i x).
Proof.
  intros Hdom. split.
  - intros [x Hx].
    destruct (hellman_online_spec t y f_tag tables) as (_ & Hhit & _).
    destruct (Hhit x Hx) as [i Hi]. by exists i, x.
  - intros (i & x & Hhit). by eapply hellman_online_complete.
Qed.

Lemma hellman_online_finds_iff_witness :
  ∃ i x, Hellman.hit 3 5 {| ModifiedPRF.f := successor_prf |}
           [{[5 := [3]]}] i x.
Proof.
  apply (hellman_online_finds_iff [{[5 := [3]]}] 3 5
           {| ModifiedPRF.f := successor_prf |}); [done |].
  exists 4. reflexivity.
Defined.

(** X10.  Preprocessing and the online search fit together: when [y] is the
    image, under the perturbed step of table [i], of a point on one of the
    chains built for that table, the search in the preprocessed tables
    returns a preimage of [y]. *)
Theorem preprocess_then_online (draw : nat → Z) (m t : Z)
    (f_tag : ModifiedPRF.t) (c : nat) (tables : list (gmap Z (list Z)))
    (c' i j s : nat) (a_s y : Z) :
  PRF.domain (ModifiedPRF.f f_tag) ≠ 0 →
  HellmanRun.hellman_preprocess draw m t f_tag c = Ret (tables, c') →
  (i < Z.to_nat t)%nat → (j < Z.to_nat m)%nat → (s < Z.to_nat t)%nat →
  Hellman.chain f_tag (Z.of_nat i) s (draw (c + i * Z.to_nat m + j)%nat)
  = Ret a_s →
  Hellman.step f_tag (Z.of_nat i) a_s = Ret y →
  ∃ x, (Hellman.hellman_online tables t y f_tag).1 = Ret (Some x) ∧
       ModifiedPRF.calc f_tag x = Ret y.
Proof.
  intros Hdom Hpre Hi Hj Hs Hchain Hstep.
  apply hellman_preprocess_spec in Hpre as (Hlen & _ & Htables).
  destruct (lookup_lt_is_Some_2 tables i) as [d Hd]; [lia |].
  specialize (Htables i d Hd).
  set (a := draw (c + i * Z.to_nat m + j)%nat) in *.
  destruct (chain_total f_tag (Z.of_nat i) (Z.to_nat t) a Hdom) as [e He].
  set (l := filter (λ s0, Hellman.chain f_tag (Z.of_nat i) (Z.to_nat t) s0
                          = Ret e) (HellmanRun.starts_of draw m c i)).
  assert (Ha : a ∈ l).
  { apply list_elem_of_filter. split; [done |].
    unfold HellmanRun.starts_of. apply list_elem_of_fmap.
    exists (c + i * Z.to_nat m + j)%nat. split; [done |].
    apply elem_of_seq. lia. }
  assert (Hl : d !! e = Some l).
  { apply Htables. split; [| done].
    intros Hnil. rewrite Hnil in Ha. by apply elem_of_nil in Ha. }
  assert (Hx : ∃ x, py_mod (a_s + Z.of_nat i)
                      (PRF.domain (ModifiedPRF.f f_tag)) = Ret x ∧
                    ModifiedPRF.calc f_tag x = Ret y).
  { unfold Hellman.step in Hstep.
    apply bind_Ret_inv in Hstep as (x & Hx & Hy). by exists x. }
  destruct Hx as (x & Hx & Hy).
  assert (Hhit : Hellman.hit t y f_tag tables i x).
  { exists d, (Z.to_nat t - S s)%nat, e, l, a.
    split_and!; [done | lia | | done | done |].
    - replace (Z.to_nat t) with (s + S (Z.to_nat t - S s))%nat in He by lia.
      rewrite chain_add, Hchain, bind_Ret in He.
      cbn [Hellman.chain] in He. by rewrite Hstep, bind_Ret in He.
    - by exists s, a_s. }
  destruct (hellman_online_complete t y f_tag Hdom tables i x Hhit)
    as [x' Hx'].
  exists x'. split; [done |].
  destruct (hellman_online_spec t y f_tag tables) as (_ & Hsound & _).
  destruct (Hsound x' Hx') as (i' & d' & j' & e' & l' & a' & Hrest).
  destruct Hrest as (_ & _ & _ & _ & _ & s' & a_s' & _ & _ & _ & Hcalc).
  done.
Qed.

(** Table 0 of the successor map holds the chain 0 -> 1 -> 2, so 1, the
    image of 0, is inverted. *)
Lemma preprocess_then_online_witness :
  ∃ x, (Hellman.hellman_online
          [{[2 := [0]; 3 := [1]]}; {[6 := [2]; 7 := [3]]}] 2 1
          {| ModifiedPRF.f := successor_prf |}).1 = Ret (Some x) ∧
       ModifiedPRF.calc {| ModifiedPRF.f := successor_prf |} x = Ret 1.
Proof.
  apply (preprocess_then_online (λ n, Z.of_nat n) 2 2
           {| ModifiedPRF.f := successor_prf |} 0 _ 4 0 0 0 0 1);
    [done | reflexivity | simpl; lia | simpl; lia | simpl; lia
    | reflexivity | reflexivity].
Defined.

(** ** Hellman tables: the test driver *)

Lemma bind_ext {A B : Type} (m : outcome A) (k1 k2 : A → outcome B) :
  (∀ a, k1 a = k2 a) → m ≫= k1 = m ≫= k2.
Proof. intros Hk. destruct m; simpl; [apply Hk | done | done]. Qed.

Lemma calc_via_recover_x (self : ModifiedPRF.t) (x y : Z) :
  ModifiedPRF.calc self x = Ret y →
  ∃ x', ModifiedPRF.recover_x self x = Ret x' ∧
        PRF.calc (ModifiedPRF.f self) x' = y.
Proof.
  unfold ModifiedPRF.calc, ModifiedPRF.recover_x.
  destruct (_ <? _).
  { intros H. apply bind_Ret_inv in H as (r & -> & [= <-]). by eauto. }
  destruct (_ >? _).
  { intros H. apply bind_Ret_inv in H as (r & -> & [= <-]).
    rewrite bind_Ret. by eauto. }
  intros [= <-]. by eauto.
Qed.

Lemma hellman_online_found (tables : list (gmap Z (list Z))) (t y : Z)
    (f_tag : ModifiedPRF.t) (x : Z) :
  (Hellman.hellman_online tables t y f_tag).1 = Ret (Some x) →
  ModifiedPRF.calc f_tag x = Ret y.
Proof.
  intros Hx.
  destruct (hellman_online_spec t y f_tag tables) as (_ & Hsound & _).
  destruct (Hsound x Hx) as (i & d & j & e & l & a & Hrest).
  by destruct Hrest as (_ & _ & _ & _ & _ & s & a_s & _ & _ & _ & Hcalc).
Qed.

Lemma trials_lookups (draw : nat → Z) (f : PRF.t) (t : Z) (n c : nat)
    (tables : list (gmap Z (list Z))) (k : Z) :
  HellmanRun.trials draw f t {| ModifiedPRF.f := f |} n c tables k =
  HellmanRun.lookups_found draw f t {| ModifiedPRF.f := f |} n c tables k.
Proof.
  revert c tables k. induction n as [|n IH]; intros c tables k; [done |].
  cbn [HellmanRun.trials HellmanRun.lookups_found].
  pose proof (hellman_online_found tables t (PRF.calc f (draw c))
                {| ModifiedPRF.f := f |}) as Hfound.
  destruct (Hellman.hellman_online tables t (PRF.calc f (draw c))
              {| ModifiedPRF.f := f |}) as [[[x|] | e |] tables'];
    [| done | done | done].
  destruct (calc_via_recover_x _ _ _ (Hfound x eq_refl)) as (x' & -> & Hx').
  rewrite bind_Ret. simpl in Hx'. rewrite Hx', Z.eqb_refl. apply IH.
Qed.

Lemma lookups_found_bounds (draw : nat → Z) (f : PRF.t) (t : Z)
    (f_tag : ModifiedPRF.t) (n c : nat) (tables : list (gmap Z (list Z)))
    (k k' : Z) :
  HellmanRun.lookups_found draw f t f_tag n c tables k = Ret k' →
  k ≤ k' ≤ k + Z.of_nat n.
Proof.
  revert c tables k. induction n as [|n IH]; intros c tables k;
    cbn [HellmanRun.lookups_found]; [intros [= <-]; lia |].
  destruct (Hellman.hellman_online tables t (PRF.calc f (draw c)) f_tag)
    as [[[x|] | e |] tables']; try discriminate;
    intros H; apply IH in H; lia.
Qed.

Lemma run_hellman_lookups (draw : nat → Z) (f : PRF.t) (m t : Z)
    (c : nat) :
  HellmanRun.run_hellman draw f m t c =
  ('(tables, c') ← HellmanRun.hellman_preprocess draw m t
                     {| ModifiedPRF.f := f |} c;
   HellmanRun.lookups_found draw f t {| ModifiedPRF.f := f |} 100 c'
     tables 0).
Proof.
  unfold HellmanRun.run_hellman, ModifiedPRF.init.
  rewrite bind_Ret. apply bind_ext. intros [tables c'].
  apply trials_lookups.
Qed.

(** X11.  The test [f.calc(x) == y] at the end of a trial of [run_hellman]
    never fails: the count that [run_hellman] returns is the number of
    lookups that returned a value. *)
Theorem run_hellman_counts_lookups (draw : nat → Z) (f : PRF.t) (m t : Z)
    (c : nat) :
  HellmanRun.run_hellman draw f m t c =
  ('(tables, c') ← HellmanRun.hellman_preprocess draw m t
                     {| ModifiedPRF.f := f |} c;
   HellmanRun.lookups_found draw f t {| ModifiedPRF.f := f |} 100 c'
     tables 0).
Proof. apply run_hellman_lookups. Qed.

(** X12.  The count that [run_hellman] returns lies between 0 and 100. *)
Theorem run_hellman_bounds (draw : nat → Z) (f : PRF.t) (m t : Z) (c : nat)
    (k : Z) :
  HellmanRun.run_hellman draw f m t c = Ret k → 0 ≤ k ≤ 100.
Proof.
  rewrite run_hellman_lookups.
  intros H. apply bind_Ret_inv in H as ([tables c'] & _ & H).
  apply lookups_found_bounds in H. lia.
Qed.

Lemma run_hellman_bounds_witness :
  HellmanRun.run_hellman (λ n, Z.of_nat n mod 10) successor_prf 2 2 0
  = Ret 70 ∧ 0 ≤ 70 ≤ 100.
Proof.
  split; [by vm_compute |].
  apply (run_hellman_bounds (λ n, Z.of_nat n mod 10) successor_prf 2 2 0 70).
  by vm_compute.
Defined.

(** ** The adapter in its two unequal regimes *)

(** X13.  When the domain is smaller than the range, the adapted map only
    sees its argument modulo the domain size: the oracle is queried inside
    [0, domain), and arguments that differ by the domain size give the same
    value. *)
Theorem calc_expanding (self : ModifiedPRF.t) (x : Z) :
  0 < PRF.domain (ModifiedPRF.f self) →
  PRF.domain (ModifiedPRF.f self) < PRF.rang (ModifiedPRF.f self) →
  (∃ x', ModifiedPRF.recover_x self x = Ret x' ∧
         0 ≤ x' < PRF.domain (ModifiedPRF.f self) ∧
         ModifiedPRF.calc self x = Ret (PRF.calc (ModifiedPRF.f self) x')) ∧
  ModifiedPRF.calc self (x + PRF.domain (ModifiedPRF.f self))
  = ModifiedPRF.calc self x.
Proof.
  intros Hpos Hlt. unfold ModifiedPRF.calc, ModifiedPRF.recover_x.
  destruct (Z.ltb_spec (PRF.domain (ModifiedPRF.f self))
              (PRF.rang (ModifiedPRF.f self))); [| lia].
  rewrite !py_mod_Ret, !bind_Ret by lia. split.
  - eexists. split_and!; [done | by apply Z.mod_pos_bound.. | done].
  - do 2 f_equal. rewrite <- (Z.mul_1_l (PRF.domain _)) at 1.
    apply Z.mod_add. lia.
Qed.

Lemma calc_expanding_witness :
  ModifiedPRF.calc {| ModifiedPRF.f := expanding_prf |}
    (6 + PRF.domain expanding_prf)
  = ModifiedPRF.calc {| ModifiedPRF.f := expanding_prf |} 6.
Proof.
  apply (calc_expanding {| ModifiedPRF.f := expanding_prf |} 6);
    simpl; lia.
Defined.

(** X14.  When the domain is larger than the range, [recover_x] is
    injective on the working points [0, range): the oracle argument it
    builds is congruent to the working point modulo the range size, so two
    working points never share an oracle argument. *)
Theorem recover_x_compressing_injective (self : ModifiedPRF.t) (x1 x2 : Z) :
  0 < PRF.rang (ModifiedPRF.f self) →
  PRF.rang (ModifiedPRF.f self) < PRF.domain (ModifiedPRF.f self) →
  0 ≤ x1 < PRF.rang (ModifiedPRF.f self) →
  0 ≤ x2 < PRF.rang (ModifiedPRF.f self) →
  (∃ x', ModifiedPRF.recover_x self x1 = Ret x' ∧
         x' mod PRF.rang (ModifiedPRF.f self) = x1) ∧
  (ModifiedPRF.recover_x self x1 = ModifiedPRF.recover_x self x2 → x1 = x2).
Proof.
  intros Hpos Hlt H1 H2. unfold ModifiedPRF.recover_x.
  destruct (Z.ltb_spec (PRF.domain (ModifiedPRF.f self))
              (PRF.rang (ModifiedPRF.f self))); [lia |].
  destruct (Z.gtb_spec (PRF.domain (ModifiedPRF.f self))
              (PRF.rang (ModifiedPRF.f self))); [| lia].
  rewrite !py_mod_Ret, !bind_Ret by lia.
  assert (Hmod : ∀ x r, 0 ≤ x < PRF.rang (ModifiedPRF.f self) →
            (x + r * PRF.rang (ModifiedPRF.f self))
              mod PRF.rang (ModifiedPRF.f self) = x).
  { intros x r Hx. rewrite Z.mod_add by lia. by apply Z.mod_small. }
  split.
  - eexists. split; [done |]. by apply Hmod.
  - intros [= Heq].
    rewrite <- (Hmod x1 ((x1 + 1) mod PRF.domain (ModifiedPRF.f self)) H1).
    rewrite Heq. by apply Hmod.
Qed.

Lemma recover_x_compressing_injective_witness :
  ∃ x', ModifiedPRF.recover_x {| ModifiedPRF.f := compressing_prf |} 1
        = Ret x' ∧ x' mod PRF.rang compressing_prf = 1.
Proof.
  apply (recover_x_compressing_injective
           {| ModifiedPRF.f := compressing_prf |} 1 2); simpl; lia.
Defined.

(** ** bellcore.py: division, inverses and the fault attack *)

Lemma py_floordiv_Ret (a b : Z) : b ≠ 0 → py_floordiv a b = Ret (a / b).
Proof. intros Hb. unfold py_floordiv. destruct (Z.eqb_spec b 0); [lia | done]. Qed.

Lemma py_divmod_Ret (a b : Z) :
  b ≠ 0 → py_divmod a b = Ret (a / b, a mod b).
Proof. intros Hb. unfold py_divmod. destruct (Z.eqb_spec b 0); [lia | done]. Qed.

Lemma egcd_spec (fuel : nat) (a b g x y : Z) :
  Bellcore.egcd fuel a b = Ret (g, x, y) →
  a * x + b * y = g ∧ Z.abs g = Z.gcd a b ∧
  (a = 0 → g = b) ∧ (0 < a → 0 < g) ∧ (a < 0 → g < 0).
Proof.
  revert a b g x y. induction fuel as [|fuel IH]; intros a b g x y;
    cbn [Bellcore.egcd]; destruct (Z.eqb_spec a 0) as [-> | Ha];
    intros H; try discriminate;
    try (injection H as <- <- <-; pose proof (Z.gcd_0_l b);
         repeat split; lia).
    rewrite py_mod_Ret, bind_Ret in H by done.
  apply bind_Ret_inv in H as ([[g' y'] x'] & Hrec & H).
  rewrite py_floordiv_Ret, bind_Ret in H by done.
  injection H as <- <- <-.
  apply IH in Hrec as (Hbez & Hgcd & Hzero & Hpos & Hneg).
  pose proof (Z.div_mod b a Ha) as Hdiv.
  split_and!.
  - rewrite <- Hbez.
    replace (b * y') with ((a * (b / a) + b mod a) * y') by (by rewrite <- Hdiv).
    ring.
  - by rewrite Hgcd, Z.gcd_mod.
  - done.
  - intros Hap. pose proof (Z.mod_pos_bound b a Hap).
    destruct (decide (b mod a = 0)) as [Hz | Hnz]; [rewrite Hzero; lia |].
    apply Hpos. lia.
  - intros Han. pose proof (Z.mod_neg_bound b a Han).
    destruct (decide (b mod a = 0)) as [Hz | Hnz]; [rewrite Hzero; lia |].
    apply Hneg. lia.
Qed.

Lemma egcd_total (fuel : nat) (a b : Z) :
  (Z.abs_nat a ≤ fuel)%nat → ∃ r, Bellcore.egcd fuel a b = Ret r.
Proof.
  revert a b. induction fuel as [|fuel IH]; intros a b Hfuel;
    cbn [Bellcore.egcd]; destruct (Z.eqb_spec a 0) as [-> | Ha];
    try by eauto.
  - lia.
  - rewrite py_mod_Ret, bind_Ret by done.
    destruct (IH (b mod a) a) as [[[g y] x] ->].
    { destruct (Z_lt_le_dec 0 a) as [Hpos | Hneg].
      - pose proof (Z.mod_pos_bound b a Hpos). lia.
      - pose proof (Z.mod_neg_bound b a ltac:(lia)). lia. }
    rewrite bind_Ret, py_floordiv_Ret, bind_Ret by done. by eauto.
Qed.

Lemma modinv_Some (fuel : nat) (a m x : Z) :
  Bellcore.modinv fuel a m = Ret (Some x) →
  m ≠ 0 ∧ (a * x) mod m = 1 mod m ∧ x = x mod m.
Proof.
  unfold Bellcore.modinv. intros H.
  apply bind_Ret_inv in H as ([[g x0] y0] & Hegcd & H).
  apply egcd_spec in Hegcd as (Hbez & _).
  destruct (Z.eqb_spec g 1) as [-> | Hne]; [| discriminate]. simpl in H.
  apply bind_Ret_inv in H as (r & Hr & [= <-]).
  apply py_mod_Ret_inv in Hr as [Hm ->].
  split_and!; [done | | by rewrite Z.mod_mod].
  rewrite Z.mul_mod_idemp_r by done.
  replace (a * x0) with (1 + (- y0) * m) by lia.
  by rewrite Z.mod_add.
Qed.

(** X15.  [egcd a b] returns, within [|a|] recursive calls, a triple
    [(g, x, y)] with [a * x + b * y = g], where [g] is the greatest common
    divisor of [a] and [b] up to sign: positive for [a > 0], negative for
    [a < 0], and [b] itself for [a = 0]. *)
Theorem egcd_bezout (fuel : nat) (a b : Z) :
  (Z.abs_nat a ≤ fuel)%nat →
  ∃ g x y, Bellcore.egcd fuel a b = Ret (g, x, y) ∧
           a * x + b * y = g ∧ Z.abs g = Z.gcd a b ∧
           (a = 0 → g = b) ∧ (0 < a → 0 < g) ∧ (a < 0 → g < 0).
Proof.
  intros Hfuel. destruct (egcd_total fuel a b Hfuel) as [[[g x] y] Hr].
  exists g, x, y. split; [done |]. by apply egcd_spec in Hr.
Qed.

Lemma egcd_bezout_witness :
  ∃ g x y, Bellcore.egcd 12 12 18 = Ret (g, x, y) ∧
           12 * x + 18 * y = g ∧ Z.abs g = Z.gcd 12 18 ∧
           (12 = 0 → g = 18) ∧ (0 < 12 → 0 < g) ∧ (12 < 0 → g < 0).
Proof. apply (egcd_bezout 12 12 18). simpl. lia. Defined.

(** X16.  For positive [a] and [m], [modinv a m] returns the inverse of
    [a] modulo [m], reduced to [0, m), when [a] and [m] are coprime, and
    raises its exception otherwise. *)
Theorem modinv_positive (fuel : nat) (a m : Z) :
  0 < a → 0 < m → (Z.abs_nat a ≤ fuel)%nat →
  (Z.gcd a m = 1 →
   ∃ x, Bellcore.modinv fuel a m = Ret (Some x) ∧
        0 ≤ x < m ∧ (a * x) mod m = 1 mod m) ∧
  (Z.gcd a m ≠ 1 → Bellcore.modinv fuel a m = Ret None).
Proof.
  intros Ha Hm Hfuel.
  destruct (egcd_total fuel a m Hfuel) as [[[g x0] y0] Hr].
  pose proof (egcd_spec _ _ _ _ _ _ Hr) as (_ & Hgcd & _ & Hpos & _).
  specialize (Hpos Ha). rewrite Z.abs_eq in Hgcd by lia.
  split; intros Hco.
  - assert (Hinv : Bellcore.modinv fuel a m = Ret (Some (x0 mod m))).
    { unfold Bellcore.modinv. rewrite Hr, bind_Ret.
      destruct (Z.eqb_spec g 1); [| lia]. simpl.
      by rewrite py_mod_Ret, bind_Ret by lia. }
    exists (x0 mod m). split; [done |].
    split; [by apply Z.mod_pos_bound |].
    by apply modinv_Some in Hinv as (_ & ? & _).
  - unfold Bellcore.modinv. rewrite Hr, bind_Ret.
    destruct (Z.eqb_spec g 1); [lia | done].
Qed.

Lemma modinv_positive_witness :
  (∃ x, Bellcore.modinv 3 3 5 = Ret (Some x) ∧
        0 ≤ x < 5 ∧ (3 * x) mod 5 = 1 mod 5) ∧
  Bellcore.modinv 4 4 6 = Ret None.
Proof.
  split.
  - apply (modinv_positive 3 3 5); [lia | lia | simpl; lia | reflexivity].
  - apply (modinv_positive 4 4 6); [lia | lia | simpl; lia |].
    by vm_compute.
Defined.

(** X17.  [modinv] raises its exception for every negative [a], also when
    [a] has an inverse modulo [m]: the common divisor that [egcd] returns is
    negative then, and is compared with 1. *)
Theorem modinv_negative (fuel : nat) (a m : Z) :
  a < 0 → (Z.abs_nat a ≤ fuel)%nat →
  Bellcore.modinv fuel a m = Ret None.
Proof.
  intros Ha Hfuel.
  destruct (egcd_total fuel a m Hfuel) as [[[g x0] y0] Hr].
  pose proof (egcd_spec _ _ _ _ _ _ Hr) as (_ & _ & _ & _ & Hneg).
  specialize (Hneg Ha).
  unfold Bellcore.modinv. rewrite Hr, bind_Ret.
  destruct (Z.eqb_spec g 1); [lia | done].
Qed.

(** -1 is its own inverse modulo 5, and [modinv(-1, 5)] raises. *)
Lemma modinv_negative_witness :
  Bellcore.modinv 1 (-1) 5 = Ret None ∧ ((-1) * (-1)) mod 5 = 1 mod 5.
Proof.
  split; [| reflexivity].
  apply (modinv_negative 1 (-1) 5); [lia | simpl; lia].
Defined.

Lemma init_Some (fuel : nat) (key_p key_q : Z) (base : Bellcore.RSA_CRT)
    (rsa : Bellcore.RSA_oracle) :
  Bellcore.init fuel key_p key_q base = Ret (Some rsa) →
  Bellcore.base rsa = base ∧
  key_p ≠ 0 ∧ key_q ≠ 0 ∧
  (key_q * Bellcore._q_inv rsa) mod key_p = 1 mod key_p ∧
  (key_p * Bellcore._p_inv rsa) mod key_q = 1 mod key_q.
Proof.
  unfold Bellcore.init. intros H.
  apply bind_Ret_inv in H as ([q_inv|] & Hq & H); [| discriminate].
  apply bind_Ret_inv in H as ([p_inv|] & Hp & H); [| discriminate].
  injection H as <-. simpl.
  apply modinv_Some in Hq as (? & ? & _).
  apply modinv_Some in Hp as (? & ? & _). done.
Qed.

Lemma CRT_spec (rsa : Bellcore.RSA_oracle) (p q m_p m_q : Z) :
  Bellcore._p (Bellcore.base rsa) = p →
  Bellcore._q (Bellcore.base rsa) = q →
  Bellcore.n (Bellcore.base rsa) = p * q →
  0 < p → 0 < q →
  (q * Bellcore._q_inv rsa) mod p = 1 mod p →
  (p * Bellcore._p_inv rsa) mod q = 1 mod q →
  ∃ v, Bellcore.CRT rsa m_p m_q = Ret v ∧ 0 ≤ v < p * q ∧
       v mod p = m_p mod p ∧ v mod q = m_q mod q.
Proof.
  intros Hp Hq Hn Hpp Hqp Hqi Hpi. unfold Bellcore.CRT.
  rewrite Hp, Hq, Hn, py_mod_Ret by nia.
  eexists. split; [done |].
  split; [apply Z.mod_pos_bound; nia |].
  split.
  - rewrite Z.mod_mod_divide by (by exists q; lia).
    replace (m_p * q * Bellcore._q_inv rsa + m_q * p * Bellcore._p_inv rsa)
      with (m_p * (q * Bellcore._q_inv rsa)
            + (m_q * Bellcore._p_inv rsa) * p) by ring.
    rewrite Z.mod_add by lia.
    rewrite <- Z.mul_mod_idemp_r, Hqi, Z.mul_mod_idemp_r by lia.
    by rewrite Z.mul_1_r.
  - rewrite Z.mod_mod_divide by (by exists p; lia).
    replace (m_p * q * Bellcore._q_inv rsa + m_q * p * Bellcore._p_inv rsa)
      with (m_q * (p * Bellcore._p_inv rsa)
            + (m_p * Bellcore._q_inv rsa) * q) by ring.
    rewrite Z.mod_add by lia.
    rewrite <- Z.mul_mod_idemp_r, Hpi, Z.mul_mod_idemp_r by lia.
    by rewrite Z.mul_1_r.
Qed.

(** X18.  For an oracle that [__init__] built from positive [p] and [q]
    with modulus [p * q], [CRT(m_p, m_q)] is the residue modulo [p * q]
    that is congruent to [m_p] modulo [p] and to [m_q] modulo [q]. *)
Theorem CRT_combines (fuel : nat) (p q : Z) (base : Bellcore.RSA_CRT)
    (rsa : Bellcore.RSA_oracle) (m_p m_q : Z) :
  Bellcore.init fuel p q base = Ret (Some rsa) →
  Bellcore._p base = p → Bellcore._q base = q → Bellcore.n base = p * q →
  0 < p → 0 < q →
  ∃ v, Bellcore.CRT rsa m_p m_q = Ret v ∧ 0 ≤ v < p * q ∧
       v mod p = m_p mod p ∧ v mod q = m_q mod q.
Proof.
  intros Hinit Hp Hq Hn Hpp Hqp.
  apply init_Some in Hinit as (Hbase & _ & _ & Hqi & Hpi).
  apply CRT_spec; by rewrite ?Hbase.
Qed.

(** A toy oracle for the primes 3 and 5: every partial decryption is 1,
    the faulty one is 2. *)
Lemma CRT_combines_witness :
  ∃ v, Bellcore.CRT
         {| Bellcore.base :=
              {| Bellcore._p := 3; Bellcore._q := 5; Bellcore.n := 15;
                 Bellcore._dec_mod_p := λ _, 1;
                 Bellcore._dec_mod_q := λ _, 1;
                 Bellcore._faulty_dec_mod_p := λ _, 2 |};
            Bellcore._q_inv := 2; Bellcore._p_inv := 2 |} 2 4 = Ret v ∧
       0 ≤ v < 3 * 5 ∧ v mod 3 = 2 mod 3 ∧ v mod 5 = 4 mod 5.
Proof.
  apply (CRT_combines 5 3 5
           {| Bellcore._p := 3; Bellcore._q := 5; Bellcore.n := 15;
              Bellcore._dec_mod_p := λ _, 1;
              Bellcore._dec_mod_q := λ _, 1;
              Bellcore._faulty_dec_mod_p := λ _, 2 |});
    [reflexivity | reflexivity | reflexivity | reflexivity | lia | lia].
Defined.

(** X19.  The fault attack factors the modulus: when [p] is prime, the
    modulus is [p * q], and the faulty partial decryption of the test
    message differs modulo [p] from the correct one, [bellcore_attack]
    returns [(p, q)]. *)
Theorem bellcore_attack_factors (fuel : nat) (p q : Z)
    (base : Bellcore.RSA_CRT) (rsa : Bellcore.RSA_oracle) :
  Bellcore.init fuel p q base = Ret (Some rsa) →
  Bellcore._p base = p → Bellcore._q base = q → Bellcore.n base = p * q →
  Z.prime p → 0 < q →
  Bellcore._faulty_dec_mod_p base Bellcore.MESSAGE_TO_DECRYPT mod p
  ≠ Bellcore._dec_mod_p base Bellcore.MESSAGE_TO_DECRYPT mod p →
  (Z.abs_nat (p * q) ≤ fuel)%nat →
  Bellcore.bellcore_attack fuel rsa = Ret (Some (p, q)).
Proof.
  intros Hinit Hp Hq Hn [Hp1 Hprime] Hqp Hfault Hfuel.
  apply init_Some in Hinit as (Hbase & _ & _ & Hqi & Hpi).
  unfold Bellcore.bellcore_attack, Bellcore.dec, Bellcore.faulty_dec.
  rewrite Hbase.
  set (mp := Bellcore._dec_mod_p base Bellcore.MESSAGE_TO_DECRYPT) in *.
  set (mp' := Bellcore._faulty_dec_mod_p base Bellcore.MESSAGE_TO_DECRYPT)
    in *.
  set (mq := Bellcore._dec_mod_q base Bellcore.MESSAGE_TO_DECRYPT).
  destruct (CRT_spec rsa p q mp mq) as (m & -> & _ & Hmp & Hmq);
    try (by rewrite ?Hbase); try lia.
  destruct (CRT_spec rsa p q mp' mq) as (m' & -> & _ & Hmp' & Hmq');
    try (by rewrite ?Hbase); try lia.
  rewrite !bind_Ret, Hn.
(* q divides m - m' and p does not *)
assert (Hqdiv : (q | m - m')).
{ apply Z.mod_divide; [lia |].
  rewrite Zminus_mod, Hmq, Hmq', Z.sub_diag. by apply Z.mod_0_l; lia. }
assert (Hpndiv : ¬ (p | m - m')).
{ intros Hdiv. apply Z.mod_divide in Hdiv; [| lia].
  apply Hfault. rewrite <- Hmp, <- Hmp'.
  rewrite Zminus_mod in Hdiv.
  pose proof (Z.mod_pos_bound m p ltac:(lia)).
  pose proof (Z.mod_pos_bound m' p ltac:(lia)).
  destruct (decide (m mod p = m' mod p)) as [|Hne]; [done |].
  exfalso.
  destruct (Z_lt_le_dec (m mod p) (m' mod p)).
  - rewrite <- (Z.mod_add _ 1 p) in Hdiv by lia.
    rewrite Z.mod_small in Hdiv by lia. lia.
  - rewrite Z.mod_small in Hdiv by lia. lia. }
destruct Hqdiv as [k Hk].
assert (Hgcd : Z.gcd (p * q) (m - m') = q).
{ rewrite Hk, Z.gcd_mul_mono_r_nonneg by lia.
  assert (Hco : Z.coprime p k).
  { apply Z.coprime_prime_l; [done |].
    intros [c Hc]. apply Hpndiv. exists (c * q). rewrite Hk, Hc. ring. }
  unfold Z.coprime in Hco. rewrite Hco. lia. }
destruct (egcd_total fuel (p * q) (m - m') Hfuel) as [[[g x] y] Hr].
pose proof (egcd_spec _ _ _ _ _ _ Hr) as (_ & Hg & _).
rewrite Hr, bind_Ret. rewrite Hg, Hgcd.
rewrite py_floordiv_Ret, bind_Ret by lia.
rewrite Z.div_mul by lia. by rewrite Z.eqb_refl.
Qed.

Lemma bellcore_attack_factors_witness :
  Bellcore.bellcore_attack 15
    {| Bellcore.base :=
         {| Bellcore._p := 3; Bellcore._q := 5; Bellcore.n := 15;
            Bellcore._dec_mod_p := λ _, 1;
            Bellcore._dec_mod_q := λ _, 1;
            Bellcore._faulty_dec_mod_p := λ _, 2 |};
       Bellcore._q_inv := 2; Bellcore._p_inv := 2 |}
  = Ret (Some (3, 5)).
Proof.
  apply (bellcore_attack_factors 15 3 5
           {| Bellcore._p := 3; Bellcore._q := 5; Bellcore.n := 15;
              Bellcore._dec_mod_p := λ _, 1;
              Bellcore._dec_mod_q := λ _, 1;
              Bellcore._faulty_dec_mod_p := λ _, 2 |});
    [reflexivity | reflexivity | reflexivity | reflexivity
    | apply Z.prime_3 | lia | by vm_compute | simpl; lia].
Defined.

(** X20.  Without a fault the attack does not fail: when the faulty
    partial decryption of the test message equals the correct one and the
    modulus is positive, [bellcore_attack] passes its own test and returns
    the trivial pair [(1, n)]. *)
Theorem bellcore_attack_no_fault (fuel : nat) (rsa : Bellcore.RSA_oracle) :
  0 < Bellcore.n (Bellcore.base rsa) → (1 ≤ fuel)%nat →
  Bellcore._faulty_dec_mod_p (Bellcore.base rsa) Bellcore.MESSAGE_TO_DECRYPT
  = Bellcore._dec_mod_p (Bellcore.base rsa) Bellcore.MESSAGE_TO_DECRYPT →
  Bellcore.bellcore_attack fuel rsa
  = Ret (Some (1, Bellcore.n (Bellcore.base rsa))).
Proof.
  intros Hn Hfuel Hsame.
  unfold Bellcore.bellcore_attack, Bellcore.dec, Bellcore.faulty_dec.
  rewrite Hsame. unfold Bellcore.CRT.
  rewrite py_mod_Ret, !bind_Ret by lia. rewrite Z.sub_diag.
  destruct fuel as [|fuel]; [lia |]. cbn [Bellcore.egcd].
  destruct (Z.eqb_spec (Bellcore.n (Bellcore.base rsa)) 0); [lia |].
  rewrite py_mod_Ret, bind_Ret by lia. rewrite Z.mod_0_l by lia.
  replace (Bellcore.egcd fuel 0 (Bellcore.n (Bellcore.base rsa)))
    with (@Ret (Z * Z * Z) (Bellcore.n (Bellcore.base rsa), 0, 1))
    by (by destruct fuel).
  rewrite bind_Ret, py_floordiv_Ret, !bind_Ret by lia.
  rewrite Z.abs_eq by lia.
  rewrite py_floordiv_Ret, bind_Ret by lia.
  rewrite Z.div_same by lia. rewrite Z.mul_1_l. by rewrite Z.eqb_refl.
Qed.

Lemma bellcore_attack_no_fault_witness :
  Bellcore.bellcore_attack 1
    {| Bellcore.base :=
         {| Bellcore._p := 3; Bellcore._q := 5; Bellcore.n := 15;
            Bellcore._dec_mod_p := λ _, 1;
            Bellcore._dec_mod_q := λ _, 1;
            Bellcore._faulty_dec_mod_p := λ _, 1 |};
       Bellcore._q_inv := 2; Bellcore._p_inv := 2 |}
  = Ret (Some (1, 15)).
Proof.
  apply (bellcore_attack_no_fault 1
           {| Bellcore.base :=
                {| Bellcore._p := 3; Bellcore._q := 5; Bellcore.n := 15;
                   Bellcore._dec_mod_p := λ _, 1;
                   Bellcore._dec_mod_q := λ _, 1;
                   Bellcore._faulty_dec_mod_p := λ _, 1 |};
              Bellcore._q_inv := 2; Bellcore._p_inv := 2 |});
    [simpl; lia | lia | reflexivity].
Defined.

(** X21.  [divceil] and [divfloor] bracket the quotient: for a positive
    divisor [b * divfloor(a, b) <= a <= b * divceil(a, b)], the two differ
    by at most one and agree exactly when [b] divides [a]; for a zero
    divisor both raise [ZeroDivisionError]. *)
Theorem divceil_divfloor (a b : Z) :
  (0 < b →
   ∃ c f, Bellcore.divceil a b = Ret c ∧ Bellcore.divfloor a b = Ret f ∧
          b * f ≤ a ≤ b * c ∧ a < b * (f + 1) ∧ b * (c - 1) < a ∧
          (c = f ↔ (b | a)) ∧ (c = f ∨ c = f + 1)) ∧
  (b = 0 →
   Bellcore.divceil a b = Raise ZeroDivisionError ∧
   Bellcore.divfloor a b = Raise ZeroDivisionError).
Proof.
  split; [| by intros ->].
  intros Hb. unfold Bellcore.divceil, Bellcore.divfloor.
  rewrite py_divmod_Ret, !bind_Ret by lia.
  pose proof (Z.div_mod a b ltac:(lia)) as Hdiv.
  pose proof (Z.mod_pos_bound a b Hb) as Hmod.
  assert (Hiff : a mod b = 0 ↔ (b | a)) by (apply Z.mod_divide; lia).
  destruct (Z.eqb_spec (a mod b) 0) as [Hz | Hnz]; simpl;
    eexists _, _; (split; [done |]); (split; [done |]);
    split_and!; try nia; try tauto; split; try tauto; lia.
Qed.

Lemma divceil_divfloor_witness :
  ∃ c f, Bellcore.divceil 7 2 = Ret c ∧ Bellcore.divfloor 7 2 = Ret f ∧
         2 * f ≤ 7 ≤ 2 * c ∧ 7 < 2 * (f + 1) ∧ 2 * (c - 1) < 7 ∧
         (c = f ↔ (2 | 7)) ∧ (c = f ∨ c = f + 1).
Proof. apply (divceil_divfloor 7 2). lia. Defined.

(** ** manger.py: the three steps of the attack *)

Lemma result_bind_Ok {A B : Type} (a : A) (k : A → Manger.result B) :
  Manger.Ok a ≫= k = k a.
Proof. reflexivity. Qed.

Lemma manger_divfloor_Ok (a b : Z) :
  b ≠ 0 → Manger.divfloor a b = Manger.Ok (a / b).
Proof.
  intros Hb. unfold Manger.divfloor. by rewrite py_divmod_Ret by done.
Qed.

(** For a positive divisor [divceil] is the least multiplier that reaches
    the numerator. *)
Lemma manger_divceil_inv (a b q : Z) :
  Manger.divceil a b = Manger.Ok q → 0 < b → b * (q - 1) < a ≤ b * q.
Proof.
  unfold Manger.divceil, py_divmod.
  destruct (Z.eqb_spec b 0); [discriminate |]. simpl. intros H Hb.
  pose proof (Z.div_mod a b ltac:(lia)).
  pose proof (Z.mod_pos_bound a b Hb).
  destruct (Z.eqb_spec (a mod b) 0); simpl in H; injection H as <-; nia.
Qed.

Lemma manger_divceil_Ok (a b : Z) :
  b ≠ 0 → ∃ q, Manger.divceil a b = Manger.Ok q.
Proof.
  intros Hb. unfold Manger.divceil. rewrite py_divmod_Ret by done. simpl.
  destruct (negb _); by eauto.
Qed.

Lemma manger_divceil_total (a b : Z) :
  0 < b → ∃ q, Manger.divceil a b = Manger.Ok q ∧ b * (q - 1) < a ≤ b * q.
Proof.
  intros Hb. destruct (manger_divceil_Ok a b) as [q Hq]; [lia |].
  exists q. split; [done |]. by apply manger_divceil_inv.
Qed.

(** The multiplier [f3] of a round stretches an interval of width [d] over
    more than [B]: this is what makes either answer of the oracle narrow
    the interval.  [f] is a multiplier that takes [m_min] beyond [n] and
    stretches the interval over at most [B], as [f2] does at the start. *)
Lemma round_stretches (n B f m_min d f_tmp i f3 : Z) :
  0 < B → 3 * B ≤ n →
  0 < m_min < B → 0 < d → n ≤ f * m_min → f * d ≤ B →
  f_tmp * d ≤ 2 * B < (f_tmp + 1) * d →
  i * n ≤ f_tmp * m_min < (i + 1) * n →
  m_min * (f3 - 1) < i * n ≤ m_min * f3 →
  2 ≤ i ∧ B < f3 * d.
Proof.
  intros HB Hn3 Hmin Hd Hf Hfd Hft Hi Hf3.
  assert (Hfpos : 4 ≤ f) by nia.
  assert (Hft2 : 2 * f ≤ f_tmp) by nia.
  assert (Hi2 : 2 ≤ i) by nia.
  split; [done |].
  assert (Hkey : B * m_min < i * n * d).
  { destruct (Z.lt_ge_cases (B * m_min) (2 * n * d)) as [Hcase | Hcase].
    - nia.
    - assert (Hd2 : 2 * d ≤ B) by nia.
      assert (H1 : f_tmp * m_min - n + 1 ≤ i * n) by lia.
      assert (H2 : 2 * B - d + 1 ≤ f_tmp * d) by lia.
      assert (H3 : (2 * B - d + 1) * m_min ≤ f_tmp * d * m_min) by nia.
      assert (H4 : (f_tmp * m_min - n + 1) * d ≤ i * n * d) by nia.
      nia. }
  nia.
Qed.

Lemma div_bounds (a b : Z) : 0 < b → a / b * b ≤ a < (a / b + 1) * b.
Proof.
  intros Hb. pose proof (Z.div_mod a b ltac:(lia)).
  pose proof (Z.mod_pos_bound a b Hb). nia.
Qed.

(** [try_with_oracle] raises nothing when the modulus is positive and fits
    in [k] bytes. *)
Lemma try_with_oracle_value (k : Z) (key : Manger.key) (c : Z)
    (query : Z → bool) (f : Z) :
  0 ≤ k → 0 < Manger.n key ≤ 256 ^ k →
  Manger.try_with_oracle k key c query f
  = Manger.Ok (query ((f ^ Z.of_N (Manger.e key)) mod Manger.n key * c
                      mod Manger.n key)).
Proof.
  intros Hk Hn. unfold Manger.try_with_oracle, Manger.py_pow3.
  destruct (Z.eqb_spec (Manger.n key) 0) as [Hz | Hnz]; [lia |].
  rewrite result_bind_Ok.
  rewrite py_mod_Ret by done. simpl Manger.of_outcome.
  rewrite result_bind_Ok.
  pose proof (Z.mod_pos_bound
                (f ^ Z.of_N (Manger.e key) mod Manger.n key * c)
                (Manger.n key) ltac:(lia)) as Hmod.
  unfold Manger.to_bytes.
  destruct (Z.ltb_spec k 0) as [Hk0 | Hk0]; [lia |].
  destruct (Z.ltb_spec (f ^ Z.of_N (Manger.e key) mod Manger.n key * c
                        mod Manger.n key) 0)
    as [Hneg | Hnneg]; [lia |].
  destruct (Z.leb_spec (256 ^ k)
              (f ^ Z.of_N (Manger.e key) mod Manger.n key * c
               mod Manger.n key))
    as [Hbig | Hsmall]; [lia |].
  by rewrite result_bind_Ok.
Qed.

(** With the public exponent 1 a plaintext is its own ciphertext, and the
    oracle that compares its query with [B] answers for it. *)
Lemma identity_key_oracle (k n m : Z) :
  n ≠ 0 →
  Manger.oracle_for k {| Manger.e := 1; Manger.n := n |} m
    (λ x, x <? Manger.B k) m.
Proof.
  intros Hn f. simpl. rewrite Z.pow_1_r.
  by rewrite Z.mul_mod_idemp_l by done.
Qed.

Section MangerFacts.

Variables (k : Z) (key : Manger.key) (c : Z) (query : Z → bool) (m : Z).

Local Abbreviation n := (Manger.n key).
Local Abbreviation B := (Manger.B k).

Hypothesis Hk : 1 ≤ k.
Hypothesis Hm : 0 < m < B.
Hypothesis Hn : 3 * B ≤ n.
Hypothesis Hfit : n ≤ 256 ^ k.
Hypothesis Horacle : Manger.oracle_for k key c query m.

Lemma B_pos : 0 < B.
Proof. unfold Manger.B. apply Z.pow_pos_nonneg; lia. Qed.

Lemma try_with_oracle_Ok (f : Z) :
  Manger.try_with_oracle k key c query f = Manger.Ok ((f * m) mod n <? B).
Proof.
  pose proof B_pos as HB.
  rewrite try_with_oracle_value by lia. by rewrite Horacle.
Qed.

(** Step 1: the loop doubles [f1 = 2 ^ j] while [f1 * m < B]. *)
Lemma find_f1_loop_spec (fuel : nat) (j : Z) :
  1 ≤ j → 2 ^ (j - 1) * m < B → (Z.to_nat (8 * (k - 1) - j) ≤ fuel)%nat →
  ∃ j', 1 ≤ j' ∧
        Manger.find_f1_loop k key c query fuel (2 ^ j) = Manger.Ok (2 ^ j') ∧
        B ≤ 2 ^ j' * m < 2 * B.
Proof.
  pose proof B_pos as HB.
  revert j. induction fuel as [|fuel IH]; intros j Hj Hinv Hfuel;
    cbn [Manger.find_f1_loop]; rewrite try_with_oracle_Ok, result_bind_Ok;
    (assert (Hdouble : 2 ^ j = 2 * 2 ^ (j - 1));
     [rewrite <- Z.pow_succ_r by lia; f_equal; lia |]);
    rewrite (Z.mod_small (2 ^ j * m) n) by nia;
    destruct (Z.ltb_spec (2 ^ j * m) B) as [Hlt | Hge];
    try (exists j; split_and!; [done | done | done | nia]).
  - exfalso.
    assert (2 ^ j < 2 ^ (8 * (k - 1))) by (unfold Manger.B in *; nia).
    assert (j < 8 * (k - 1)); [| lia].
    apply (Z.pow_lt_mono_r_iff 2); lia.
  - destruct (IH (j + 1)) as (j' & Hj' & Hloop & Hbound).
    + lia.
    + by replace (j + 1 - 1) with j by lia.
    + lia.
    + exists j'. split_and!; [done | | lia | lia].
      rewrite <- Hloop. f_equal. rewrite Z.pow_add_r by lia. lia.
Qed.

(** Step 2: the loop adds [f1 / 2] while [f2 * m < n]. *)
Lemma find_f2_loop_spec (fuel : nat) (h f2 : Z) :
  0 < h * m < B → B ≤ f2 * m < n + B →
  (Z.to_nat (n - f2 * m) ≤ fuel)%nat →
  ∃ f2', Manger.find_f2_loop k key c query fuel (2 * h) f2 = Manger.Ok f2' ∧
         n ≤ f2' * m < n + B.
Proof.
  pose proof B_pos as HB.
  revert f2. induction fuel as [|fuel IH]; intros f2 Hh Hinv Hfuel;
    cbn [Manger.find_f2_loop]; rewrite try_with_oracle_Ok, result_bind_Ok;
    (destruct (Z_lt_le_dec (f2 * m) n) as [Hlow | Hhigh];
     [rewrite Z.mod_small by lia
     |rewrite <- (Z.mod_add _ (-1) n), Z.mod_small by lia]);
    match goal with
    | |- context [?a <? ?b] => destruct (Z.ltb_spec a b) as [Hb | Hb]; try lia
    end; simpl; try (by eauto with lia).
  replace (2 * h / 2) with h by (by rewrite Z.mul_comm, Z.div_mul).
  apply IH; [done | nia | nia].
Qed.

Lemma find_f1_total (fuel : nat) :
  (Z.to_nat (8 * (k - 1)) ≤ fuel)%nat →
  ∃ j, 1 ≤ j ∧ Manger.find_f1 k key c query fuel = Manger.Ok (2 ^ j) ∧
       B ≤ 2 ^ j * m < 2 * B.
Proof.
  intros Hfuel. unfold Manger.find_f1.
  change 2 with (2 ^ 1) at 1. apply find_f1_loop_spec; [lia | | lia].
  simpl. lia.
Qed.

Lemma find_f2_total (fuel : nat) (j : Z) :
  1 ≤ j → B ≤ 2 ^ j * m < 2 * B → (Z.to_nat n ≤ fuel)%nat →
  ∃ f2, Manger.find_f2 k key c query fuel (2 ^ j) = Manger.Ok f2 ∧
        n ≤ f2 * m < n + B.
Proof.
  pose proof B_pos as HB. intros Hj Hf1 Hfuel. unfold Manger.find_f2.
  rewrite manger_divfloor_Ok, result_bind_Ok by lia.
  assert (Hdouble : 2 ^ j = 2 * 2 ^ (j - 1)).
  { rewrite <- Z.pow_succ_r by lia. f_equal. lia. }
  set (h := 2 ^ (j - 1)) in *. rewrite Hdouble in *.
  replace (2 * h / 2) with h by (by rewrite Z.mul_comm, Z.div_mul).
  set (d := (n + B) / B).
  assert (Hd : 3 ≤ d ∧ d * B ≤ n + B).
  { unfold d. split; [apply Z.div_le_lower_bound; lia |].
    rewrite Z.mul_comm. apply Z.mul_div_le. lia. }
  apply find_f2_loop_spec; [nia | nia | nia].
Qed.

(** Every round narrows the interval between [m_min] and [m_max], so as
    many rounds as the interval is wide are enough. *)
Lemma find_m_loop_total (fuel : nat) (f m_min m_max : Z) :
  0 < m_min ≤ m → m ≤ m_max →
  n ≤ f * m_min → f * (m_max - m_min) ≤ B →
  (Z.to_nat (m_max - m_min) ≤ fuel)%nat →
  Manger.find_m_loop k key c query fuel m_min m_max = Manger.Ok m.
Proof.
  pose proof B_pos as HB.
  revert m_min m_max. induction fuel as [|fuel IH];
    intros m_min m_max Hmin Hmax Hf Hfd Hfuel; cbn [Manger.find_m_loop];
    destruct (Z.eqb_spec m_max m_min) as [Heq | Hne]; simpl;
    try (f_equal; lia); try lia.
  set (d := m_max - m_min) in *.
  assert (Hd : 0 < d) by (unfold d; lia).
  rewrite manger_divfloor_Ok, result_bind_Ok by lia.
  rewrite manger_divfloor_Ok, result_bind_Ok by lia.
  pose proof (div_bounds (2 * B) d Hd) as Hft.
  set (f_tmp := 2 * B / d) in *.
  pose proof (div_bounds (f_tmp * m_min) n ltac:(lia)) as Hi.
  set (i := f_tmp * m_min / n) in *.
  destruct (manger_divceil_total (i * n) m_min) as (f3 & -> & Hf3); [lia |].
  rewrite result_bind_Ok.
  rewrite try_with_oracle_Ok.
  rewrite result_bind_Ok.
  destruct (round_stretches n B f m_min d f_tmp i f3) as [Hi2 Hwide];
    try done; try lia.
  assert (Hf3pos : 0 < f3) by nia.
  assert (Hf3ft : f3 ≤ f_tmp).
  { assert (Hlt : m_min * (f3 - 1) < m_min * f_tmp) by lia.
    apply Z.mul_lt_mono_pos_l in Hlt; lia. }
  assert (Hlow : i * n ≤ f3 * m).
  { etrans; [apply Hf3 |]. rewrite (Z.mul_comm m_min).
    apply Z.mul_le_mono_nonneg_l; lia. }
  assert (Hhigh : f3 * m < i * n + 3 * B).
  { assert (Hpart : f3 * (m - m_min) ≤ f_tmp * d).
    { etrans; [apply (Z.mul_le_mono_nonneg_r f3 f_tmp); lia |].
      apply Z.mul_le_mono_nonneg_l; unfold d; lia. }
    replace (f3 * (m - m_min)) with (f3 * m - m_min * f3) in Hpart by ring.
    replace (m_min * (f3 - 1)) with (m_min * f3 - m_min) in Hf3 by ring.
    lia. }
  assert (Hmod : (f3 * m) mod n = f3 * m - i * n).
  { rewrite <- (Z.mod_add _ (- i) n) by lia.
    replace (f3 * m + - i * n) with (f3 * m - i * n) by lia.
    apply Z.mod_small. nia. }
  rewrite Hmod.
  assert (Hfpos : 0 < f) by nia.
  destruct (Z.ltb_spec (f3 * m - i * n) B) as [Htrue | Hfalse].
  - rewrite manger_divfloor_Ok, result_bind_Ok by lia.
    assert (Hnew : m ≤ (i * n + B) / f3 < m_max).
    { split; [apply Z.div_le_lower_bound; lia |].
      apply Z.div_lt_upper_bound; [done |]. unfold d in Hwide. nia. }
    apply IH; [done | lia | done | | lia].
    etrans; [| exact Hfd].
    apply Z.mul_le_mono_nonneg_l; unfold d; lia.
  - destruct (manger_divceil_total (i * n + B) f3) as (m_min' & -> & Hnew);
      [done |].
    rewrite result_bind_Ok.
    assert (Hin : m_min < m_min' ≤ m).
    { split.
      - apply (Z.mul_lt_mono_pos_l f3); [done |].
        replace (m_min * (f3 - 1)) with (f3 * m_min - m_min) in Hf3
          by ring.
        lia.
      - assert (Hlt : f3 * (m_min' - 1) < f3 * m) by lia.
        apply (Z.mul_lt_mono_pos_l f3) in Hlt; [lia | done]. }
    apply IH; [lia | done | | | lia].
    + etrans; [exact Hf |]. apply Z.mul_le_mono_nonneg_l; lia.
    + etrans; [| exact Hfd].
      apply Z.mul_le_mono_nonneg_l; unfold d; lia.
Qed.

(** Step 3 returns the plaintext, within [B] rounds. *)
Lemma find_m_total (fuel : nat) (f2 : Z) :
  n ≤ f2 * m < n + B → (Z.to_nat B ≤ fuel)%nat →
  Manger.find_m k key c query fuel f2 = Manger.Ok m.
Proof.
  pose proof B_pos as HB. intros Hf2 Hfuel. unfold Manger.find_m.
  assert (Hf2pos : 0 < f2) by nia.
  destruct (manger_divceil_total n f2) as (m_min & -> & Hmin); [done |].
  rewrite result_bind_Ok.
  rewrite manger_divfloor_Ok, result_bind_Ok by lia.
  pose proof (div_bounds (n + B) f2 Hf2pos) as Hmax.
  set (m_max := (n + B) / f2) in *.
  assert (Hle : m ≤ m_max) by nia.
  assert (Hge : 0 < m_min ≤ m) by nia.
  assert (Hwidth : f2 * (m_max - m_min) ≤ B) by nia.
  apply (find_m_loop_total fuel f2); [done | done | lia | done |].
  assert (m_max - m_min ≤ B) by nia. lia.
Qed.

(** The whole attack returns the plaintext, within [n] rounds of each of
    its loops. *)
Lemma manger_attack_total (fuel : nat) :
  c = (m ^ Z.of_N (Manger.e key)) mod n → (Z.to_nat n ≤ fuel)%nat →
  Manger.manger_attack k key c query fuel = Manger.Ok (Some m).
Proof.
  pose proof B_pos as HB. intros Hc Hfuel.
  assert (Hlin : 8 * (k - 1) < B).
  { unfold Manger.B. apply Z.pow_gt_lin_r; lia. }
  unfold Manger.manger_attack.
  destruct (find_f1_total fuel)
    as (j & Hj & -> & Hf1); [lia |].
  rewrite result_bind_Ok.
  destruct (find_f2_total fuel j)
    as (f2 & -> & Hf2); [done | done | lia |].
  rewrite result_bind_Ok.
  rewrite find_m_total by (done || lia). rewrite result_bind_Ok.
  unfold Manger.py_pow3.
  destruct (Z.eqb_spec n 0) as [Hz | Hnz]; [lia |].
  rewrite result_bind_Ok, <- Hc, Z.eqb_refl.
  unfold Manger.to_bytes.
  destruct (Z.ltb_spec k 0) as [Hk0 | Hk0]; [lia |].
  destruct (Z.ltb_spec m 0) as [Hneg | Hnneg]; [lia |].
  destruct (Z.leb_spec (256 ^ k) m) as [Hbig | Hsmall]; [lia |].
  by rewrite result_bind_Ok.
Qed.

End MangerFacts.

(** X22.  Step 1 of the attack: when the oracle answers for the plaintext
    [m] with [0 < m < B], [3 * B <= n] and [n] fits in [k] bytes, [find_f1]
    returns within [8 * (k - 1)] rounds a power of two [f1 >= 2] with
    [B <= f1 * m < 2 * B]. *)
Theorem find_f1_bounds (k : Z) (key : Manger.key) (c : Z) (query : Z → bool)
    (m : Z) (fuel : nat) :
  1 ≤ k → 0 < m < Manger.B k → 3 * Manger.B k ≤ Manger.n key →
  Manger.n key ≤ 256 ^ k → Manger.oracle_for k key c query m →
  (Z.to_nat (8 * (k - 1)) ≤ fuel)%nat →
  ∃ j, 1 ≤ j ∧ Manger.find_f1 k key c query fuel = Manger.Ok (2 ^ j) ∧
       Manger.B k ≤ 2 ^ j * m < 2 * Manger.B k.
Proof. intros. by apply find_f1_total. Qed.

Lemma find_f1_bounds_witness :
  ∃ j, 1 ≤ j ∧
       Manger.find_f1 2 {| Manger.e := 1; Manger.n := 1000 |} 5
         (λ x, x <? 256) 8 = Manger.Ok (2 ^ j) ∧
       Manger.B 2 ≤ 2 ^ j * 5 < 2 * Manger.B 2.
Proof.
  apply (find_f1_bounds 2 {| Manger.e := 1; Manger.n := 1000 |} 5
           (λ x, x <? 256) 5 8);
    [lia | by vm_compute | by vm_compute | by vm_compute
    | apply (identity_key_oracle 2 1000 5); lia | simpl; lia].
Defined.

(** X23.  Step 2 of the attack: from a power of two [f1] as step 1 returns
    it, [find_f2] returns within [n] rounds an [f2] with
    [n <= f2 * m < n + B]. *)
Theorem find_f2_bounds (k : Z) (key : Manger.key) (c : Z) (query : Z → bool)
    (m : Z) (fuel : nat) (j : Z) :
  1 ≤ k → 0 < m < Manger.B k → 3 * Manger.B k ≤ Manger.n key →
  Manger.n key ≤ 256 ^ k → Manger.oracle_for k key c query m →
  1 ≤ j → Manger.B k ≤ 2 ^ j * m < 2 * Manger.B k →
  (Z.to_nat (Manger.n key) ≤ fuel)%nat →
  ∃ f2, Manger.find_f2 k key c query fuel (2 ^ j) = Manger.Ok f2 ∧
        Manger.n key ≤ f2 * m < Manger.n key + Manger.B k.
Proof. intros. by apply find_f2_total. Qed.

Lemma find_f2_bounds_witness :
  ∃ f2, Manger.find_f2 2 {| Manger.e := 1; Manger.n := 1000 |} 5
          (λ x, x <? 256) 1000 (2 ^ 6) = Manger.Ok f2 ∧
        1000 ≤ f2 * 5 < 1000 + Manger.B 2.
Proof.
  apply (find_f2_bounds 2 {| Manger.e := 1; Manger.n := 1000 |} 5
           (λ x, x <? 256) 5 1000 6);
    [lia | by vm_compute | by vm_compute | by vm_compute
    | apply (identity_key_oracle 2 1000 5); lia | lia | by vm_compute
    | simpl; lia].
Defined.

(** X24.  Step 3 of the attack: from an [f2] with [n <= f2 * m < n + B],
    every round of [find_m] narrows the interval and keeps [m] in it, and
    [find_m] returns [m] within [B] rounds. *)
Theorem find_m_recovers (k : Z) (key : Manger.key) (c : Z)
    (query : Z → bool) (m : Z) (fuel : nat) (f2 : Z) :
  1 ≤ k → 0 < m < Manger.B k → 3 * Manger.B k ≤ Manger.n key →
  Manger.n key ≤ 256 ^ k → Manger.oracle_for k key c query m →
  Manger.n key ≤ f2 * m < Manger.n key + Manger.B k →
  (Z.to_nat (Manger.B k) ≤ fuel)%nat →
  Manger.find_m k key c query fuel f2 = Manger.Ok m.
Proof. intros. by apply find_m_total. Qed.

(** With the modulus 769 and the plaintext 201 step 2 gives [f2 = 4], the
    interval starts as [193, 256] and is narrowed in several rounds. *)
Lemma find_m_recovers_witness :
  Manger.find_m 2 {| Manger.e := 1; Manger.n := 769 |} 201
    (λ x, x <? 256) 256 4 = Manger.Ok 201.
Proof.
  apply (find_m_recovers 2 {| Manger.e := 1; Manger.n := 769 |} 201
           (λ x, x <? 256) 201 256 4);
    [lia | by vm_compute | by vm_compute | by vm_compute
    | apply (identity_key_oracle 2 769 201); lia | by vm_compute
    | by vm_compute].
Defined.

(** X25.  The attack as a whole: when [c] is the encryption of a plaintext
    [m] with [0 < m < B], the oracle answers for [m], [3 * B <= n] and [n]
    fits in [k] bytes, [manger_attack] returns the bytes of [m], with at
    most [n] rounds in each of its three loops; it raises nothing and does
    not return [None]. *)
Theorem manger_attack_recovers (k : Z) (key : Manger.key) (c : Z)
    (query : Z → bool) (m : Z) (fuel : nat) :
  1 ≤ k → 0 < m < Manger.B k → 3 * Manger.B k ≤ Manger.n key →
  Manger.n key ≤ 256 ^ k → Manger.oracle_for k key c query m →
  c = (m ^ Z.of_N (Manger.e key)) mod Manger.n key →
  (Z.to_nat (Manger.n key) ≤ fuel)%nat →
  Manger.manger_attack k key c query fuel = Manger.Ok (Some m).
Proof. intros. by apply manger_attack_total. Qed.

Lemma manger_attack_recovers_witness :
  Manger.manger_attack 2 {| Manger.e := 1; Manger.n := 769 |} 201
    (λ x, x <? 256) 769 = Manger.Ok (Some 201).
Proof.
  apply (manger_attack_recovers 2 {| Manger.e := 1; Manger.n := 769 |}
           201 (λ x, x <? 256) 201 769);
    [lia | by vm_compute | by vm_compute | by vm_compute
    | apply (identity_key_oracle 2 769 201); lia | by vm_compute
    | by vm_compute].
Defined.
(** X26.  [try_with_oracle] raises nothing when the modulus is positive and
    fits in [k] bytes: it returns the oracle's answer to
    [pow(f, e, n) * c % n].  With the modulus 0 it raises [ValueError]. *)
Theorem try_with_oracle_returns (k : Z) (key : Manger.key) (c : Z)
    (query : Z → bool) (f : Z) :
  (0 ≤ k → 0 < Manger.n key ≤ 256 ^ k →
   Manger.try_with_oracle k key c query f
   = Manger.Ok (query ((f ^ Z.of_N (Manger.e key)) mod Manger.n key * c
                       mod Manger.n key))) ∧
  (Manger.n key = 0 →
   Manger.try_with_oracle k key c query f = Manger.Err Manger.ValueError).
Proof.
  split; [apply try_with_oracle_value |].
  intros Hz. unfold Manger.try_with_oracle, Manger.py_pow3.
  by rewrite Hz.
Qed.

Lemma try_with_oracle_returns_witness :
  Manger.try_with_oracle 2 {| Manger.e := 3; Manger.n := 1000 |} 7
    (λ x, x <? 256) 12 = Manger.Ok (96 <? 256) ∧
  Manger.try_with_oracle 2 {| Manger.e := 3; Manger.n := 0 |} 7
    (λ x, x <? 256) 12 = Manger.Err Manger.ValueError.
Proof.
  split.
  - apply (try_with_oracle_returns 2 {| Manger.e := 3; Manger.n := 1000 |}
             7 (λ x, x <? 256) 12); [lia | by vm_compute].
  - by apply (try_with_oracle_returns 2 {| Manger.e := 3; Manger.n := 0 |}
                7 (λ x, x <? 256) 12).
Defined.
